(** * suntime: solar event times and DMS coordinate notation

    A shallow embedding of the Go package [suntime] (file suntime.go).
    [float64] is the kernel's binary64 type [float]; Go's [int] is [Z]
    (the values that occur stay far inside 64 bits); Go strings are
    [string], that is, sequences of bytes.  Functions of the Go standard
    library and of the packages the source imports are modelled in the
    modules [math], [strconv], [strings], [regexp], [time] and [julian]
    below; the functions of suntime.go follow them under their own names. *)

From Stdlib Require Import ZArith Reals Lra Lia Floats String Ascii List Bool.
Import ListNotations.

Set Warnings "-inexact-float".

Local Open Scope string_scope.
Local Open Scope Z_scope.

(** ** Conversions between [float64] and integers *)

Module F64.

(** [float64(n)] for an integer [n]: the nearest binary64 value. *)
Definition of_int (n : Z) : float :=
  SF2Prim (binary_normalize prec emax n 0 false).

(** The integer part of a finite float, rounded toward zero. *)
Definition trunc (x : float) : Z :=
  match Prim2SF x with
  | S754_finite s m e =>
      let v := if 0 <=? e then Z.shiftl (Zpos m) e else Z.shiftr (Zpos m) (- e) in
      if s then - v else v
  | _ => 0
  end.

Definition min_int64 : Z := - 2 ^ 63.
Definition max_int64 : Z := 2 ^ 63 - 1.

(** [int(x)] and [int64(x)]: truncation toward zero.  The language leaves
    the result open when the value does not fit; amd64 yields the smallest
    int64 then, also for NaN and the infinities. *)
Definition to_int (x : float) : Z :=
  match Prim2SF x with
  | S754_finite _ _ _ =>
      let v := trunc x in
      if (min_int64 <=? v) && (v <=? max_int64) then v else min_int64
  | S754_zero _ => 0
  | _ => min_int64
  end.

End F64.

(** ** Package math *)

Module math.

Definition Abs (x : float) : float := PrimFloat.abs x.

(** [math.Round]: the nearest integer, halves away from zero, the sign
    kept (so that values in (-0.5, 0) give -0).  Floats with exponent
    [0 <= e] are integers already; NaN and the infinities are returned
    as they are. *)
Definition Round (x : float) : float :=
  match Prim2SF x with
  | S754_finite s m e =>
      if 0 <=? e then x
      else
        let n := Z.shiftr (Zpos m + Z.shiftl 1 (- e - 1)) (- e) in
        SF2Prim (binary_normalize prec emax (if s then - n else n) 0 s)
  | _ => x
  end.

Definition Pi : float := 0x1.921fb54442d18p+1%float.

Definition NaN : float := nan.

(** [math.Sqrt]: the correctly rounded square root. *)
Definition Sqrt (x : float) : float := PrimFloat.sqrt x.

(** [math.Modf]: the integer part and the fraction, both with the sign
    of the argument. *)
Definition Modf_pos (f : float) : float * float :=
  if (f <? 1)%float then
    (if (f =? 0)%float then (f, f) else (0%float, f))
  else
    let int :=
      match Prim2SF f with
      | S754_finite _ _ e => if 0 <=? e then f else F64.of_int (F64.trunc f)
      | _ => f
      end in
    (int, (f - int)%float).

Definition Modf (f : float) : float * float :=
  if (f <? 0)%float then
    let '(int, frac) := Modf_pos (- f)%float in ((- int)%float, (- frac)%float)
  else Modf_pos f.

(** Coefficients of the sine and cosine polynomials (sin.go). *)
Definition _sin (i : nat) : float :=
  nth i [ 1.58962301576546568060e-10; -2.50507477628578072866e-8;
          2.75573136213857245213e-6; -1.98412698295895385996e-4;
          8.33333333332211858878e-3; -1.66666666666666307295e-1 ]%float 0%float.

Definition _cos (i : nat) : float :=
  nth i [ -1.13585365213876817300e-11; 2.08757008419747316778e-9;
          -2.75573141792967388112e-7; 2.48015872888517045348e-5;
          -1.38888888888730564116e-3; 4.16666666666665929218e-2 ]%float 0%float.

Definition PI4A : float := 7.85398125648498535156e-1%float.
Definition PI4B : float := 3.77489470793079817668e-8%float.
Definition PI4C : float := 2.69515142907905952645e-15%float.

Definition reduceThreshold : float := F64.of_int (2 ^ 29).

(** The two polynomials, in [z] with [zz = z * z]. *)
Definition sin_poly (z zz : float) : float :=
  (z + z * zz * ((((((_sin 0 * zz) + _sin 1) * zz + _sin 2) * zz + _sin 3) * zz
                    + _sin 4) * zz + _sin 5))%float.

Definition cos_poly (zz : float) : float :=
  (1.0 - 0.5 * zz
   + zz * zz * ((((((_cos 0 * zz) + _cos 1) * zz + _cos 2) * zz + _cos 3) * zz
                   + _cos 4) * zz + _cos 5))%float.

(** The reduction of a non-negative [x] to an octant [j] (modulo 8) and a
    remainder [z], by Cody and Waite's three-part subtraction.  From
    [reduceThreshold] on the library switches to the Payne-Hanek
    reduction over its table of the bits of 4/Pi; that branch is outside
    this model, which answers with a NaN remainder there. *)
Definition reduce (x : float) : Z * float :=
  if (reduceThreshold <=? x)%float then (0, NaN)
  else
    let j := F64.to_int (x * 0x1.45f306dc9c883p+0)%float in  (* x * (4/Pi) *)
    let y := F64.of_int j in
    let '(j, y) := if Z.odd j then (j + 1, (y + 1)%float) else (j, y) in
    (Z.land j 7, (((x - y * PI4A) - y * PI4B) - y * PI4C)%float).

(** [math.Sin]. *)
Definition Sin (x : float) : float :=
  if (x =? 0)%float || is_nan x then x
  else if is_infinity x then NaN
  else
    let sign := (x <? 0)%float in
    let x := if sign then (- x)%float else x in
    let '(j, z) := reduce x in
    let '(sign, j) := if 3 <? j then (negb sign, j - 4) else (sign, j) in
    let zz := (z * z)%float in
    let y := if (j =? 1) || (j =? 2) then cos_poly zz else sin_poly z zz in
    if sign then (- y)%float else y.

(** [math.Cos]. *)
Definition Cos (x : float) : float :=
  if is_nan x || is_infinity x then NaN
  else
    let x := Abs x in
    let '(j, z) := reduce x in
    let '(sign, j) := if 3 <? j then (true, j - 4) else (false, j) in
    let sign := if 1 <? j then negb sign else sign in
    let zz := (z * z)%float in
    let y := if (j =? 1) || (j =? 2) then sin_poly z zz else cos_poly zz in
    if sign then (- y)%float else y.

(** [xatan]: the arctangent series on [0, 0.66] (atan.go). *)
Definition xatan (x : float) : float :=
  let P0 := (-8.750608600031904122785e-01)%float in
  let P1 := (-1.615753718733365076637e+01)%float in
  let P2 := (-7.500855792314704667340e+01)%float in
  let P3 := (-1.228866684490136173410e+02)%float in
  let P4 := (-6.485021904942025371773e+01)%float in
  let Q0 := 2.485846490142306297962e+01%float in
  let Q1 := 1.650270098316988542046e+02%float in
  let Q2 := 4.328810604912902668951e+02%float in
  let Q3 := 4.853903996359136964868e+02%float in
  let Q4 := 1.945506571482613964425e+02%float in
  let z := (x * x)%float in
  let z := (z * ((((P0 * z + P1) * z + P2) * z + P3) * z + P4)
              / (((((z + Q0) * z + Q1) * z + Q2) * z + Q3) * z + Q4))%float in
  (x * z + x)%float.

(** [satan]: reduces a positive argument to [0, 0.66] and calls [xatan]. *)
Definition satan (x : float) : float :=
  let Morebits := 6.123233995736765886130e-17%float in
  let Tan3pio8 := 2.41421356237309504880%float in
  if (x <=? 0.66)%float then xatan x
  else if (Tan3pio8 <? x)%float then
    (0x1.921fb54442d18p+0 - xatan (1 / x) + Morebits)%float
  else
    (0x1.921fb54442d18p-1 + xatan ((x - 1) / (x + 1)) + 0x1.1a62633145c07p-55)%float.

(** [math.Asin] (asin.go); NaN when the argument is outside [-1, 1]. *)
Definition Asin (x : float) : float :=
  if (x =? 0)%float then x
  else
    let sign := (x <? 0)%float in
    let x := if sign then (- x)%float else x in
    if (1 <? x)%float then NaN
    else
      let temp := Sqrt (1 - x * x) in
      let temp :=
        if (0.7 <? x)%float then (0x1.921fb54442d18p+0 - satan (temp / x))%float
        else satan (x / temp) in
      if sign then (- temp)%float else temp.

(** [math.Acos]: [Pi/2 - Asin(x)]. *)
Definition Acos (x : float) : float := (0x1.921fb54442d18p+0 - Asin x)%float.

(** [math.Pow(10, places)] for the small non-negative integer exponents
    the source uses: below 10^22 every power of ten is a binary64 value
    and the library returns it exactly. *)
Definition Pow10 (places : Z) : float := F64.of_int (10 ^ places).

End math.

(** ** Package strings *)

Module strings.

Definition upper_byte (c : ascii) : ascii :=
  let n := nat_of_ascii c in
  if (97 <=? n)%nat && (n <=? 122)%nat then ascii_of_nat (n - 32) else c.

(** [strings.ToUpper] on ASCII text: the letters a-z are mapped to A-Z,
    every other byte is kept. *)
Fixpoint ToUpper (s : string) : string :=
  match s with
  | EmptyString => EmptyString
  | String c rest => String (upper_byte c) (ToUpper rest)
  end.

End strings.

(** ** Package strconv *)

Module strconv.

Definition is_digit (c : ascii) : bool :=
  let n := nat_of_ascii c in (48 <=? n)%nat && (n <=? 57)%nat.

Definition digit_value (c : ascii) : Z := Z.of_nat (nat_of_ascii c) - 48.

(** The value of a string of decimal digits, read left to right from the
    accumulator [acc]; [None] when a byte is not a digit. *)
Fixpoint digits_from (acc : Z) (s : string) : option Z :=
  match s with
  | EmptyString => Some acc
  | String c rest =>
      if is_digit c then digits_from (10 * acc + digit_value c) rest else None
  end.

(** [strconv.Atoi] on unsigned decimal text that fits an [int]: the value
    and a nil error ([None]); on anything else the value 0 and an error.
    (Signs, and the clamping of values that do not fit, are left out: the
    pattern of ParseDMS passes one or two digits.) *)
Definition Atoi (s : string) : Z * option string :=
  match s with
  | EmptyString => (0, Some "strconv.Atoi: invalid syntax")
  | _ =>
      match digits_from 0 s with
      | Some n =>
          if n <=? F64.max_int64 then (n, None)
          else (0, Some "strconv.Atoi: value out of range")
      | None => (0, Some "strconv.Atoi: invalid syntax")
      end
  end.

(** Splits decimal text at its first point: the digits before it and,
    when there is a point, the text after it. *)
Fixpoint split_point (s : string) : string * option string :=
  match s with
  | EmptyString => (EmptyString, None)
  | String c rest =>
      if Ascii.eqb c "." then (EmptyString, Some rest)
      else let '(i, f) := split_point rest in (String c i, f)
  end.

(** The binary64 value nearest to [n / 10^k] (ties to even), for [0 <= n]. *)
Definition nearest_ratio (n : Z) (k : Z) : float :=
  match n with
  | Zpos _ =>
      let '(q, e, l) := SFdiv_core_binary prec emax n 0 (10 ^ k) 0 in
      SF2Prim (binary_round_aux prec emax false q e l)
  | _ => 0%float
  end.

(** [strconv.ParseFloat(s, 64)] on plain decimal text, digits with an
    optional point and fraction digits: the correctly rounded value and a
    nil error.  Signs, exponents, hexadecimal and the named values are
    left out: they yield the error here, and group 3 of the pattern of
    ParseDMS never passes them. *)
Definition ParseFloat (s : string) : float * option string :=
  let '(i, f) := split_point s in
  let f := match f with Some t => t | None => EmptyString end in
  match String.length (i ++ f), digits_from 0 (i ++ f) with
  | S _, Some n => (nearest_ratio n (Z.of_nat (String.length f)), None)
  | _, _ => (0%float, Some "strconv.ParseFloat: invalid syntax")
  end.

End strconv.

(** ** Package regexp

    The fragment of the regular-expression syntax that the pattern of
    ParseDMS uses, with the leftmost-first (greedy, backtracking) meaning
    of the package.  Text is matched byte by byte; a non-ASCII literal is
    the sequence of its UTF-8 bytes. *)

Module regexp.

Inductive re : Type :=
| Lit (c : ascii)                                  (* one literal byte *)
| Class (p : ascii -> bool)                        (* \d, \s, [...] *)
| Cat (r1 r2 : re)                                 (* r1 r2 *)
| Opt (r : re)                                     (* r? *)
| Rep (p : ascii -> bool) (lo : nat) (hi : option nat)  (* c{lo,hi}, c+ *)
| Cap (i : nat) (r : re).                          (* the i-th group ( r ) *)

(** The submatches found so far, by group number. *)
Definition captures := list (nat * string).

Definition K := string -> captures -> option captures.

(** Greedy repetition of a byte class: as many bytes as allowed first,
    then fewer. *)
Fixpoint rep (p : ascii -> bool) (lo : nat) (hi : option nat)
    (s : string) (caps : captures) (k : K) : option captures :=
  let stop := match lo with O => k s caps | S _ => None end in
  let more :=
    match hi with
    | Some O => false
    | _ => true
    end in
  match s with
  | String c rest =>
      if more && p c then
        match rep p (Nat.pred lo) (option_map Nat.pred hi) rest caps k with
        | Some r => Some r
        | None => stop
        end
      else stop
  | EmptyString => stop
  end.

(** The text consumed between [s] and its suffix [rest]. *)
Definition consumed (s rest : string) : string :=
  substring 0 (String.length s - String.length rest) s.

Fixpoint run (r : re) (s : string) (caps : captures) (k : K) : option captures :=
  match r with
  | Lit c =>
      match s with
      | String d rest => if Ascii.eqb c d then k rest caps else None
      | EmptyString => None
      end
  | Class p =>
      match s with
      | String d rest => if p d then k rest caps else None
      | EmptyString => None
      end
  | Cat r1 r2 => run r1 s caps (fun rest caps' => run r2 rest caps' k)
  | Opt r1 =>
      match run r1 s caps k with
      | Some c => Some c
      | None => k s caps
      end
  | Rep p lo hi => rep p lo hi s caps k
  | Cap i r1 =>
      run r1 s caps (fun rest caps' => k rest ((i, consumed s rest) :: caps'))
  end.

Fixpoint group (i : nat) (caps : captures) : string :=
  match caps with
  | [] => EmptyString
  | (j, t) :: rest => if Nat.eqb i j then t else group i rest
  end.

(** A pattern of the form [^ r $] with [n] groups against the whole of
    [s]: [FindStringSubmatch], that is, [None] for Go's nil and otherwise
    the whole match followed by the text of the groups 1..n. *)
Definition FindStringSubmatch (r : re) (n : nat) (s : string) : option (list string) :=
  match run r s [] (fun rest caps =>
                     match rest with EmptyString => Some caps | _ => None end) with
  | Some caps => Some (s :: map (fun i => group i caps) (seq 1 n))
  | None => None
  end.

(** [\d], [\s] and the class [[NSEW]]. *)
Definition digit : ascii -> bool := strconv.is_digit.

Definition space (c : ascii) : bool :=
  let n := nat_of_ascii c in
  (n =? 9)%nat || (n =? 10)%nat || (n =? 12)%nat || (n =? 13)%nat || (n =? 32)%nat.

Definition one_of (set : string) (c : ascii) : bool :=
  existsb (Ascii.eqb c) (list_ascii_of_string set).

End regexp.

(** ** Package time

    A [time.Time] is modelled by the instant it denotes: the number of
    nanoseconds since 1970-01-01T00:00:00Z.  The location of a value only
    matters for the calendar fields, and the source reads those after
    [UTC()]. *)

Module time.

Definition Time : Type := Z.

Definition Duration : Type := Z.

Definition Nanosecond : Duration := 1.
Definition Second : Duration := 1000000000.
Definition Hour : Duration := 3600 * Second.

Definition ns_per_day : Z := 24 * Hour.

(** Days from 1970-01-01 to the first day of [month] (1..12) of [year],
    proleptic Gregorian calendar, plus [day - 1]. *)
Definition days_from_civil (year month day : Z) : Z :=
  let y := if month <=? 2 then year - 1 else year in
  let era := y / 400 in
  let yoe := y - era * 400 in
  let mp := if 2 <? month then month - 3 else month + 9 in
  let doy := (153 * mp + 2) / 5 + day - 1 in
  let doe := yoe * 365 + yoe / 4 - yoe / 100 + doy in
  era * 146097 + doe - 719468.

(** The calendar date (year, month, day) of a day number. *)
Definition civil_from_days (z : Z) : Z * Z * Z :=
  let z := z + 719468 in
  let era := z / 146097 in
  let doe := z - era * 146097 in
  let yoe := (doe - doe / 1460 + doe / 36524 - doe / 146096) / 365 in
  let doy := doe - (365 * yoe + yoe / 4 - yoe / 100) in
  let mp := (5 * doy + 2) / 153 in
  let d := doy - (153 * mp + 2) / 5 + 1 in
  let m := if mp <? 10 then mp + 3 else mp - 9 in
  ((yoe + era * 400) + (if m <=? 2 then 1 else 0), m, d).

(** [time.Date(year, month, day, 0, 0, 0, 0, time.UTC)]: the month is
    brought into 1..12 by carrying into the year, the day counts on
    linearly from the first of that month (day 0 is the last day of the
    month before). *)
Definition Date (year month day : Z) : Time :=
  let m := month - 1 in
  let year := year + m / 12 in
  let month := m mod 12 + 1 in
  days_from_civil year month day * ns_per_day.

(** [t.UTC()]: the same instant. *)
Definition UTC (t : Time) : Time := t.

Definition date_of (t : Time) : Z * Z * Z := civil_from_days (t / ns_per_day).

Definition Year (t : Time) : Z := fst (fst (date_of t)).
Definition Month (t : Time) : Z := snd (fst (date_of t)).
Definition Day (t : Time) : Z := snd (date_of t).

(** [t.Add(d)]. *)
Definition Add (t : Time) (d : Duration) : Time := t + d.

(** [t.Round(d)]: the nearest multiple of [d], halves rounded up; [t]
    itself when [d <= 0]. *)
Definition Round (t : Time) (d : Duration) : Time :=
  if d <=? 0 then t
  else
    let r := t mod d in
    if r + r <? d then Add t (- r) else Add t (d - r).

End time.

(** ** Package julian (github.com/soniakeys/meeus/v3/julian)

    Modelled from the library's documented algorithms (Meeus,
    Astronomical Algorithms, chapter 7, in the integer form the library
    gives them); its source is not part of this repository.  [int64]
    arithmetic wraps around. *)

Module julian.

Definition wrap64 (x : Z) : Z := (x + 2 ^ 63) mod 2 ^ 64 - 2 ^ 63.

(** [base.FloorDiv] and [base.FloorDiv64]: division rounding down. *)
Definition FloorDiv (x y : Z) : Z := x / y.

(** [CalendarGregorianToJD(y, m, d)]. *)
Definition CalendarGregorianToJD (y m : Z) (d : float) : float :=
  let '(y, m) := if (m =? 1) || (m =? 2) then (y - 1, m + 12) else (y, m) in
  let a := FloorDiv y 100 in
  let b := 2 - a + FloorDiv a 4 in
  (F64.of_int (FloorDiv (wrap64 (36525 * (y + 4716))) 100)
   + F64.of_int (FloorDiv (306 * (m + 1)) 10 + b) + d - 1524.5)%float.

(** The Gregorian calendar date of a Julian day: year, month and the day
    of the month with its fraction. *)
Definition jdToCalendarGregorian (jd : float) : Z * Z * float :=
  let '(zf, f) := math.Modf (jd + 0.5)%float in
  let z := F64.to_int zf in
  let alpha := FloorDiv (wrap64 (wrap64 (z * 100) - 186721625)) 3652425 in
  let a := wrap64 (wrap64 (z + 1 + alpha) - FloorDiv alpha 4) in
  let b := wrap64 (a + 1524) in
  let c := FloorDiv (wrap64 (wrap64 (b * 100) - 12210)) 36525 in
  let d := FloorDiv (wrap64 (36525 * c)) 100 in
  let e := FloorDiv (wrap64 (wrap64 (b - d) * 10000)) 306001 in
  let day := (F64.of_int (wrap64 (wrap64 (b - d) - FloorDiv (306001 * e) 10000)) + f)%float in
  let month := if (e =? 14) || (e =? 15) then e - 13 else e - 1 in
  let year := if (month =? 1) || (month =? 2) then c - 4715 else c - 4716 in
  (year, month, day).

(** [JDToTime(jd)]. *)
Definition JDToTime (jd : float) : time.Time :=
  let '(y, m, d) := jdToCalendarGregorian jd in
  let t := time.Date y m 0 in
  time.Add t (F64.to_int (d * 24 * F64.of_int time.Hour)%float).

End julian.

(** ** The DMS value

    Modelled from the spec: the declaration of the struct [DMS] is not in
    suntime.go; its fields and their types are the ones the composite
    literals [DMS{Degrees: ..., Minutes: ..., Seconds: ...}] of ParseDMS
    and DecimalToDMS give it (two [int]s and a [float64]). *)

Record DMS : Type := mkDMS {
  Degrees : Z;
  Minutes : Z;
  Seconds : float
}.

(** ** Coordinate notation: suntime.go, lines 186-236 *)

(** [roundToPlaces value places]. *)
Definition roundToPlaces (value : float) (places : Z) : float :=
  let factor := math.Pow10 places in
  (math.Round (value * factor) / factor)%float.

(** What [DmsToDecimal] writes to standard output in its [default] case. *)
Definition invalid_direction_line : string :=
  "Invalid direction. Use N, S, E, or W.".

(** [DmsToDecimal dms direction]: the returned float together with the
    lines that [fmt.Println] writes during the call. *)
Definition DmsToDecimal (dms : DMS) (direction : string) : float * list string :=
  let decimal :=
    (F64.of_int (Degrees dms) + F64.of_int (Minutes dms) / 60
       + Seconds dms / 3600)%float in
  let '(decimal, out) :=
    if (direction =? "S")%string || (direction =? "W")%string
    then ((- decimal)%float, [])
    else if (direction =? "N")%string || (direction =? "E")%string
    then (decimal, [])
    else (decimal, [invalid_direction_line]) in
  (roundToPlaces decimal 7, out).

(** [DecimalToDMS decimal isLatitude]. *)
Definition DecimalToDMS (decimal : float) (isLatitude : bool) : DMS * string :=
  let negative := (decimal <? 0)%float in
  let direction :=
    if isLatitude then (if negative then "S" else "N")
    else (if negative then "W" else "E") in
  let decimal := if negative then math.Abs decimal else decimal in
  let degrees := F64.to_int decimal in
  let minutes := F64.to_int ((decimal - F64.of_int degrees) * 60)%float in
  let seconds :=
    (roundToPlaces ((decimal - F64.of_int degrees) * 60 - F64.of_int minutes) 4
       * 60)%float in
  (mkDMS degrees minutes seconds, direction%string).

(** ** ParseDMS: suntime.go, lines 162-184 *)

Definition byte (n : nat) : ascii := ascii_of_nat n.

(** The pattern of line 165,
    [^(\d{1,2})°\s+(\d{1,2})'\s+(\d{1,2}(?:\.\d+)?)Q\s+([NSEW])$]
    where Q stands for the double-quote character (byte 34); the degree
    sign U+00B0 is the two bytes C2 B0. *)
Definition dms_pattern : regexp.re :=
  let cat := regexp.Cat in
  let d12 := regexp.Rep regexp.digit 1 (Some 2%nat) in
  let ws := regexp.Rep regexp.space 1 None in
  cat (regexp.Cap 1 d12)
   (cat (regexp.Lit (byte 194)) (cat (regexp.Lit (byte 176))
   (cat ws
   (cat (regexp.Cap 2 d12)
   (cat (regexp.Lit "'")
   (cat ws
   (cat (regexp.Cap 3
           (cat d12 (regexp.Opt (cat (regexp.Lit ".")
                                     (regexp.Rep regexp.digit 1 None)))))
   (cat (regexp.Lit (byte 34))
   (cat ws
        (regexp.Cap 4 (regexp.Class (regexp.one_of "NSEW")))))))))))).

(** [fmt.Errorf("invalid DMS format: %s", input)]. *)
Definition format_error (input : string) : string :=
  "invalid DMS format: " ++ input.

(** [ParseDMS input]: the DMS value, the direction and the error
    ([None] is Go's nil error). *)
Definition ParseDMS (input : string) : DMS * string * option string :=
  match regexp.FindStringSubmatch dms_pattern 4 input with
  | None => (mkDMS 0 0 0%float, "", Some (format_error input))
  | Some matches =>
      let m i := nth i matches "" in
      let degrees := fst (strconv.Atoi (m 1%nat)) in
      let minutes :=
        if (m 2%nat =? "")%string then 0 else fst (strconv.Atoi (m 2%nat)) in
      let seconds :=
        if (m 3%nat =? "")%string then 0%float
        else fst (strconv.ParseFloat (m 3%nat)) in
      let direction := strings.ToUpper (m 4%nat) in
      (mkDMS degrees minutes seconds, direction, None)
  end.

(** ** Julian days: suntime.go, lines 76-93 *)

Definition J1970 : float := 2440588.0%float.
Definition J2000 : float := 2451545.0%float.

(** [math.Pi / 180.0] and [180.0 / math.Pi]: constant expressions, so
    each is the exact quotient rounded once. *)
Definition DegreesToRadians : float := 0x1.1df46a2529d39p-6%float.
Definition RadiansToDegrees : float := 0x1.ca5dc1a63c1f8p+5%float.

(** [ToJulianDay t]. *)
Definition ToJulianDay (t : time.Time) : float :=
  let date := time.UTC t in
  julian.CalendarGregorianToJD (time.Year date) (time.Month date)
    (F64.of_int (time.Day date)).

(** [FromJulianDay jd]. *)
Definition FromJulianDay (jd : float) : time.Time := julian.JDToTime jd.

(** [JulianToUTC julian]. *)
Definition JulianToUTC (julian : float) : float :=
  let julianMidnight := (julian + 0.5)%float in
  let utcTime := time.UTC (FromJulianDay julianMidnight) in
  ToJulianDay utcTime.

(** ** Helper functions: suntime.go, lines 95-115

    The three helpers that the package keeps beside [calculateTime]
    (which no longer calls them).  [-23.44*math.Pi/180] and [2*math.Pi]
    are constant expressions, each rounded once; [lat*math.Pi/180] is a
    product and a quotient of float64 values. *)

Definition solarDeclination (d : float) : float :=
  math.Asin (math.Sin (-0x1.a2ec77a9a4f4bp-2)
             * math.Cos (0x1.921fb54442d18p+2 * (d + 10) / 365.0))%float.

Definition hourAngle (lat decl angle : float) (isSunrise : bool) : float :=
  let latRad := (lat * math.Pi / 180)%float in
  let declRad := decl in
  let h :=
    math.Acos ((math.Cos (angle * math.Pi / 180) - math.Sin latRad * math.Sin declRad)
               / (math.Cos latRad * math.Cos declRad))%float in
  if isSunrise then (- h)%float else h.

Definition solarTransit (d lng h : float) : float :=
  (J2000 + d + h / 0x1.921fb54442d18p+2)%float.

(** ** The solar event calculator: suntime.go, lines 117-155

    The local variables of [calculateTime], each as a function of the
    arguments it depends on. *)

Definition Jstar_of (julianDay longitude : float) : float :=
  let n := (julianDay - J2000)%float in
  (n - longitude / 360.0)%float.

Definition M_of (Jstar : float) : float :=
  ((357.5291 + 0.98560028 * Jstar) * DegreesToRadians)%float.

Definition C_of (M : float) : float :=
  (1.9148 * math.Sin M + 0.0200 * math.Sin (2 * M)
   + 0.0003 * math.Sin (3 * M))%float.

(** [102.9372*DegreesToRadians] is a constant expression: the exact
    product rounded once. *)
Definition lambda_of (M C : float) : float :=
  ((M + C + 0x1.cbed85e0e09a6p+0 + math.Pi) * RadiansToDegrees)%float.

Definition Jtransit_of (Jstar M lambda : float) : float :=
  (J2000 + Jstar + 0.0053 * math.Sin M
   - 0.0069 * math.Sin (2 * lambda * DegreesToRadians))%float.

(** [23.44*DegreesToRadians] is a constant expression as well. *)
Definition delta_of (lambda : float) : float :=
  math.Asin (math.Sin (lambda * DegreesToRadians)
             * math.Sin 0x1.a2ec77a9a4f4bp-2)%float.

(** The argument of [math.Acos] in the hour angle. *)
Definition acos_argument (latitude delta angle : float) : float :=
  let latRad := (latitude * DegreesToRadians)%float in
  let declRad := delta in
  ((math.Cos (angle * DegreesToRadians) - math.Sin latRad * math.Sin declRad)
   / (math.Cos latRad * math.Cos declRad))%float.

(** The hour angle [h] after the sign has been set. *)
Definition hour_angle (latitude delta angle : float) (isSunrise : bool) : float :=
  let h := math.Acos (acos_argument latitude delta angle) in
  if isSunrise then (- h)%float else h.

(** [Jset], the Julian day of the event. *)
Definition Jset_of (julianDay longitude latitude angle : float)
    (isSunrise : bool) : float :=
  let Jstar := Jstar_of julianDay longitude in
  let M := M_of Jstar in
  let C := C_of M in
  let lambda := lambda_of M C in
  let Jtransit := Jtransit_of Jstar M lambda in
  let delta := delta_of lambda in
  let h := hour_angle latitude delta angle isSunrise in
  (Jtransit + h / 0x1.921fb54442d18p+2)%float.

(** [calculateTime julianDay longitude latitude angle isSunrise]. *)
Definition calculateTime (julianDay longitude latitude angle : float)
    (isSunrise : bool) : time.Time :=
  time.Round (FromJulianDay (Jset_of julianDay longitude latitude angle isSunrise))
    time.Second.

(** ** ConvertTimeFromUTC: suntime.go, lines 157-160

    [time.Duration(offset) * time.Hour] is an int64 product, which wraps. *)

Definition ConvertTimeFromUTC (t : time.Time) (offset : Z) : time.Time :=
  time.Add t (julian.wrap64 (offset * time.Hour)).

(** ** The eight events: suntime.go, lines 35-74 *)

Definition Sunrise (julianDay longitude latitude : float) : time.Time :=
  calculateTime (JulianToUTC julianDay) longitude latitude 90.833 true.

Definition Sunset (julianDay longitude latitude : float) : time.Time :=
  calculateTime (JulianToUTC julianDay) longitude latitude 90.833 false.

Definition CivilTwilightSunrise (julianDay longitude latitude : float) : time.Time :=
  calculateTime (JulianToUTC julianDay) longitude latitude 96.0 true.

Definition CivilTwilightSunset (julianDay longitude latitude : float) : time.Time :=
  calculateTime (JulianToUTC julianDay) longitude latitude 96.0 false.

Definition NauticalTwilightSunrise (julianDay longitude latitude : float) : time.Time :=
  calculateTime (JulianToUTC julianDay) longitude latitude 102.0 true.

Definition NauticalTwilightSunset (julianDay longitude latitude : float) : time.Time :=
  calculateTime (JulianToUTC julianDay) longitude latitude 102.0 false.

Definition AstronomicalTwilightSunrise (julianDay longitude latitude : float) : time.Time :=
  calculateTime (JulianToUTC julianDay) longitude latitude 108.0 true.

Definition AstronomicalTwilightSunset (julianDay longitude latitude : float) : time.Time :=
  calculateTime (JulianToUTC julianDay) longitude latitude 108.0 false.

(** ** Inputs used in the examples *)

(** The double-quote character, as a string. *)
Definition dquote : string := String (byte 34) EmptyString.

(** The fixture of the test suite (38 degrees, 51 minutes, 31.44 seconds
    north), and the same text with a lower-case hemisphere letter. *)
Definition fixture_text : string := "38° 51' 31.44" ++ dquote ++ " N".
Definition fixture_text_lower : string := "38° 51' 31.44" ++ dquote ++ " n".

Definition fixture_dms : DMS := mkDMS 38 51 31.44%float.

(** A text that the pattern accepts although its minutes and seconds
    exceed 59: 99 degrees, 99 minutes, 99.9 seconds west. *)
Definition wide_text : string := "99° 99' 99.9" ++ dquote ++ " W".

(** The sum [degrees + minutes/60 + seconds/3600] as the code computes it. *)
Definition dms_sum (dms : DMS) : float :=
  (F64.of_int (Degrees dms) + F64.of_int (Minutes dms) / 60
     + Seconds dms / 3600)%float.

Definition south_or_west (direction : string) : bool :=
  (direction =? "S")%string || (direction =? "W")%string.

(** The mean anomaly in degrees, before the conversion to radians. *)
Definition M_degrees (Jstar : float) : float :=
  (357.5291 + 0.98560028 * Jstar)%float.

(** The ecliptic longitude in the specification's words (step 5):
    [M + C + 102.9372 + 180], all four in degrees. *)
Definition lambda_by_spec (Jstar : float) : float :=
  (M_degrees Jstar + C_of (M_of Jstar) + 102.9372 + 180)%float.

(** The fixture of the test suite: 2025-01-07, longitude 90.85866,
    latitude 38.85563244. *)
Definition fixture_jd : float := 2460682.5%float.
Definition fixture_longitude : float := 90.85866%float.
Definition fixture_latitude : float := 38.85563244%float.

(** The declination [delta] that [calculateTime] derives from the day and
    the longitude. *)
Definition declination (julianDay longitude : float) : float :=
  let M := M_of (Jstar_of julianDay longitude) in
  delta_of (lambda_of M (C_of M)).

(** The argument of the arccosine is outside [-1, 1]. *)
Definition unreachable (julianDay longitude latitude angle : float) : bool :=
  let a := acos_argument latitude (declination julianDay longitude) angle in
  (a <? -1)%float || (1 <? a)%float.

(** The winter solstice of 2023 (2023-12-22T00:00Z) at 70 degrees north. *)
Definition solstice_jd : float := 2460300.5%float.

(** ** The calendar algorithms over the integers

    The integer arithmetic of [julian.CalendarGregorianToJD] and of
    [julian.jdToCalendarGregorian] as it runs when no int64 operation
    overflows, used to reason about them. *)

(** The sum that [CalendarGregorianToJD] forms before it subtracts 1524.5. *)
Definition meeus_days (y m d : Z) : Z :=
  let '(y, m) := if (m =? 1) || (m =? 2) then (y - 1, m + 12) else (y, m) in
  let a := y / 100 in
  let b := 2 - a + a / 4 in
  36525 * (y + 4716) / 100 + (306 * (m + 1) / 10 + b) + d.

(** Year, month and day of [jdToCalendarGregorian] for the day number [z]. *)
Definition meeus_date (z : Z) : Z * Z * Z :=
  let alpha := (z * 100 - 186721625) / 3652425 in
  let a := z + 1 + alpha - alpha / 4 in
  let b := a + 1524 in
  let c := (b * 100 - 12210) / 36525 in
  let d := 36525 * c / 100 in
  let e := (b - d) * 10000 / 306001 in
  let day := b - d - 306001 * e / 10000 in
  let month := if (e =? 14) || (e =? 15) then e - 13 else e - 1 in
  let year := if (month =? 1) || (month =? 2) then c - 4715 else c - 4716 in
  (year, month, day).

(** The day [doy] (counted from the first of March) of the year [yoe] of
    the 400-year era [era], as a day number from 0000-03-01. *)
Definition era_day (era yoe doy : Z) : Z :=
  146097 * era + (365 * yoe + yoe / 4 - yoe / 100 + doy).

Definition in_year (yoe doy : Z) : Prop :=
  0 <= yoe < 400 /\ 0 <= doy
  /\ 365 * yoe + yoe / 4 - yoe / 100 + doy
       < 365 * (yoe + 1) + (yoe + 1) / 4 - (yoe + 1) / 100 + (yoe + 1) / 400.

Definition date_in_year (era yoe doy : Z) : Z * Z * Z :=
  let mp := (5 * doy + 2) / 153 in
  let d := doy - (153 * mp + 2) / 5 + 1 in
  let m := if mp <? 10 then mp + 3 else mp - 9 in
  ((yoe + era * 400) + (if m <=? 2 then 1 else 0), m, d).

(** The instants whose calendar year is between 1 and 9999. *)
Definition in_common_era (t : time.Time) : Prop :=
  time.Date 1 1 1 <= t < time.Date 10000 1 1.

(** Midnight UTC of the calendar day of [t]. *)
Definition midnight_of (t : time.Time) : time.Time :=
  time.Date (time.Year t) (time.Month t) (time.Day t).

(** The sunrise that the test suite expects, 2025-01-07T13:19:48Z, and a
    Julian day in the afternoon of the fixture's date. *)
Definition test_sunrise : time.Time := 1736255988 * time.Second.
Definition afternoon_jd : float := 2460682.75%float.

(** Two Julian days of the first civil day of the count, and one of the
    year 1029 just before a midnight. *)
Definition day_zero_jd : float := (-0.25)%float.
Definition day_zero_late_jd : float := (-0x1p-54)%float.
Definition before_midnight_jd : float := 0x1.fffffffffffffp+20%float.

(** ** Shapes of the texts that the pattern of ParseDMS captures *)

Fixpoint all_bytes (p : ascii -> bool) (s : string) : bool :=
  match s with
  | EmptyString => true
  | String c rest => p c && all_bytes p rest
  end.

Definition within (hi : option nat) (n : nat) : Prop :=
  match hi with Some h => (n <= h)%nat | None => True end.

(** The text of a seconds field: one or two digits, then optionally a
    point and at least one digit. *)
Definition seconds_text (g : string) : Prop :=
  exists pre, all_bytes regexp.digit pre = true
    /\ (1 <= String.length pre <= 2)%nat
    /\ (g = pre \/
        exists frac, all_bytes regexp.digit frac = true
                     /\ (1 <= String.length frac)%nat
                     /\ g = pre ++ String "." frac).

Definition digits12 (g : string) : Prop :=
  all_bytes regexp.digit g = true /\ (1 <= String.length g <= 2)%nat.

Definition hemisphere (g : string) : Prop :=
  g = "N" \/ g = "S" \/ g = "E" \/ g = "W".


(** The offsets whose product with [time.Hour] fits an int64. *)
Definition offset_fits (offset : Z) : Prop := (Z.abs offset <= 2562047)%Z.


(** A run of white space: at least one byte, each of the class [\s]. *)
Definition spaces (w : string) : Prop :=
  all_bytes regexp.space w = true /\ (1 <= String.length w)%nat.

(** The texts of the pattern, by their four groups: the degrees, the
    degree sign, white space, the minutes, an apostrophe, white space,
    the seconds, a double quote, white space and the hemisphere letter. *)
Definition dms_text (input g1 g2 g3 g4 : string) : Prop :=
  digits12 g1 /\ digits12 g2 /\ seconds_text g3 /\ hemisphere g4
  /\ exists w1 w2 w3,
       spaces w1 /\ spaces w2 /\ spaces w3
       /\ input = g1 ++ String (byte 194) (String (byte 176)
                    (w1 ++ g2 ++ String "'" (w2 ++ g3 ++ String (byte 34) (w3 ++ g4)))).

(** A repetition has taken all it can: the limit is reached, or the
    text ends, or the next byte is outside the class. *)
Definition stops (p : ascii -> bool) (hi : option nat) (pre rest : string) : Prop :=
  hi = Some (String.length pre)
  \/ match rest with
     | EmptyString => True
     | String ch _ => p ch = false
     end.

(** ** Real values of floats, and the notions of the rounding proofs *)

Local Open Scope R_scope.

Definition bpow (e : Z) : R := powerRZ 2 e.

(* locations *)
Definition inbetween (m : Z) (l : location) (x : R) : Prop :=
  match l with
  | loc_Exact => x = IZR m
  | loc_Inexact c =>
      IZR m < x < IZR m + 1 /\
      match c with
      | Lt => x < IZR m + / 2
      | Eq => x = IZR m + / 2
      | Gt => IZR m + / 2 < x
      end
  end.

Definition located (r : shr_record) (x : R) : Prop :=
  (0 <= shr_m r)%Z /\ inbetween (shr_m r) (loc_of_shr_record r) x.

Definition round_result (sx : bool) (m' e' : Z) : spec_float :=
  if (m' =? 0)%Z then S754_zero sx
  else if (m' =? 2 ^ 53)%Z then
    (if (e' + 1 <=? 971)%Z then S754_finite sx (2 ^ 52)%positive (e' + 1)
     else S754_infinity sx)
  else if (e' <=? 971)%Z then S754_finite sx (Z.to_pos m') e'
  else S754_infinity sx.

Definition SF2R (z : spec_float) : R :=
  match z with
  | S754_finite s m e =>
      if s then - (IZR (Zpos m) * bpow e) else IZR (Zpos m) * bpow e
  | _ => 0
  end.

Definition SF_finite (z : spec_float) : bool :=
  match z with
  | S754_zero _ | S754_finite _ _ _ => true
  | _ => false
  end.

Definition SF_sign_is (sx : bool) (z : spec_float) : Prop :=
  match z with
  | S754_zero s | S754_finite s _ _ | S754_infinity s => s = sx
  | S754_nan => True
  end.

Definition representable (a : R) : Prop :=
  exists k e0, a = IZR k * bpow e0 /\ (Z.abs k < 2 ^ 53)%Z /\ (-1074 <= e0)%Z.

Definition signed (sx : bool) (A : R) : R := if sx then - A else A.

(** [z] is the result of rounding the magnitude [a] with the sign [sx]. *)
Definition rounded (sx : bool) (a : R) (z : spec_float) : Prop :=
  valid_binary z = true /\ SF_finite z = true /\ SF_sign_is sx z /\
  exists A, SF2R z = signed sx A /\ 0 <= A
            /\ Rabs (A - a) <= a * bpow (-53) + bpow (-1075)
            /\ (representable a -> A = a).

(** A real [v] rounded to the float [z]. *)
Definition Rrounded (v : R) (z : spec_float) : Prop :=
  valid_binary z = true /\ SF_finite z = true
  /\ Rabs (SF2R z - v) <= Rabs v * bpow (-53) + bpow (-1075)
  /\ (representable v -> SF2R z = v)
  /\ (0 <= v -> 0 <= SF2R z) /\ (v <= 0 -> SF2R z <= 0).

Definition Rcmp (c : comparison) (a b : R) : Prop :=
  match c with
  | Lt => a < b
  | Eq => a = b
  | Gt => b < a
  end.

(** Floats *)
Definition B2R (x : float) : R := SF2R (Prim2SF x).

Definition finite (x : float) : Prop := SF_finite (Prim2SF x) = true.

(** The decomposition of a non-negative decimal into degrees, minutes and
    seconds, as [DecimalToDMS] computes it after the sign is taken off. *)
Definition dms_of (x : float) : DMS :=
  let degrees := F64.to_int x in
  let minutes := F64.to_int ((x - F64.of_int degrees) * 60)%float in
  let seconds :=
    (roundToPlaces ((x - F64.of_int degrees) * 60 - F64.of_int minutes) 4 * 60)%float in
  mkDMS degrees minutes seconds.

Definition direction_of (decimal : float) (isLatitude : bool) : string :=
  if isLatitude then (if (decimal <? 0)%float then "S" else "N")
  else (if (decimal <? 0)%float then "W" else "E").

(** The Julian days of the midnights of the years 1 to 9999: the values
    k + 1/2 for the day numbers k of that range. *)
Definition midnight_jd (jd : float) : Prop :=
  finite jd /\ exists k : Z, (1721425 <= k <= 5373483)%Z /\ B2R jd = IZR k + 1 / 2.

(** The civil day of a Julian day: the day whose noon is the Julian day
    number n runs from the midnight n - 1/2 up to the midnight n + 1/2. *)
Definition on_civil_day (n : Z) (jd : float) : Prop :=
  finite jd /\ IZR n - 1 / 2 <= B2R jd < IZR n + 1 / 2.


(** The half arc of the event as a fraction of the day: the hour angle
    of the setting over 2 pi. *)
Definition half_arc (julianDay longitude latitude angle : float) : float :=
  let Jstar := Jstar_of julianDay longitude in
  let M := M_of Jstar in
  let lambda := lambda_of M (C_of M) in
  (hour_angle latitude (delta_of lambda) angle false / 0x1.921fb54442d18p+2)%float.

Definition transit_of (julianDay longitude : float) : float :=
  let Jstar := Jstar_of julianDay longitude in
  let M := M_of Jstar in
  Jtransit_of Jstar M (lambda_of M (C_of M)).


(** The argument that [hourAngle] passes to [math.Acos]. *)
Definition hourAngle_argument (lat decl angle : float) : float :=
  let latRad := (lat * math.Pi / 180)%float in
  ((math.Cos (angle * math.Pi / 180) - math.Sin latRad * math.Sin decl)
   / (math.Cos latRad * math.Cos decl))%float.


Local Close Scope R_scope.

(** * Properties *)

(** ** NaN and the order on floats *)

Lemma Prim2SF_nan : Prim2SF nan = S754_nan.
Proof. reflexivity. Qed.

Lemma add_nan_r (x : float) : (x + nan)%float = nan.
Proof.
  apply Prim2SF_inj. rewrite add_spec, Prim2SF_nan.
  destruct (Prim2SF x); reflexivity.
Qed.

Lemma sub_nan_r (x : float) : (x - nan)%float = nan.
Proof.
  apply Prim2SF_inj. rewrite sub_spec, Prim2SF_nan.
  destruct (Prim2SF x); reflexivity.
Qed.

Lemma SFltb_opp (x y : spec_float) : SFltb (SFopp x) (SFopp y) = SFltb y x.
Proof.
  destruct x as [[|]|[|]| |[|] mx ex], y as [[|]|[|]| |[|] my ey];
    try reflexivity; unfold SFltb; simpl.
  all: rewrite (Z.compare_antisym ex ey);
    destruct (ex ?= ey)%Z eqn:E; simpl; try reflexivity.
  all: change (Pos.compare_cont Eq my mx) with (Pos.compare my mx);
    change (Pos.compare_cont Eq mx my) with (Pos.compare mx my);
    rewrite (Pos.compare_antisym mx my); destruct (mx ?= my)%positive; reflexivity.
Qed.

Lemma ltb_opp (x y : float) : (- x <? - y)%float = (y <? x)%float.
Proof. now rewrite !FloatAxioms.ltb_spec, !opp_spec, SFltb_opp. Qed.

Lemma ltb_one_not_zero (x : float) :
  (1 <? x)%float = true -> (x =? 0)%float = false /\ (x <? 0)%float = false.
Proof.
  intros H. rewrite FloatAxioms.ltb_spec in H.
  rewrite FloatAxioms.eqb_spec, FloatAxioms.ltb_spec.
  change (Prim2SF 1) with (S754_finite false 4503599627370496 (-52)) in H.
  change (Prim2SF 0) with (S754_zero false).
  destruct (Prim2SF x) as [s|[|]| |[|] m e]; simpl in *; try discriminate; auto.
Qed.

Lemma ltb_minus_one_negative (x : float) :
  (x <? -1)%float = true -> (x =? 0)%float = false /\ (x <? 0)%float = true.
Proof.
  intros H. rewrite FloatAxioms.ltb_spec in H.
  rewrite FloatAxioms.eqb_spec, FloatAxioms.ltb_spec.
  change (Prim2SF (-1)) with (S754_finite true 4503599627370496 (-52)) in H.
  change (Prim2SF 0) with (S754_zero false).
  destruct (Prim2SF x) as [s|[|]| |[|] m e]; simpl in *; try discriminate; auto.
Qed.

(** [math.Acos] answers NaN outside [-1, 1]. *)
Lemma Asin_above_one (x : float) : (1 <? x)%float = true -> math.Asin x = nan.
Proof.
  intros H. unfold math.Asin.
  destruct (ltb_one_not_zero x H) as [-> ->]. now rewrite H.
Qed.

Lemma Asin_below_minus_one (x : float) :
  (x <? -1)%float = true -> math.Asin x = nan.
Proof.
  intros H. unfold math.Asin.
  destruct (ltb_minus_one_negative x H) as [-> ->].
  assert (H1 : (1 <? - x)%float = true).
  { change 1%float with (- (-1))%float. now rewrite ltb_opp. }
  now rewrite H1.
Qed.

Lemma Acos_outside (x : float) :
  (x <? -1)%float || (1 <? x)%float = true -> math.Acos x = nan.
Proof.
  intros H. unfold math.Acos.
  apply orb_true_iff in H as [H|H].
  - rewrite (Asin_below_minus_one x H). apply sub_nan_r.
  - rewrite (Asin_above_one x H). apply sub_nan_r.
Qed.

(** ** DmsToDecimal *)

(** C9.  [DmsToDecimal dms direction] is degrees + minutes/60 +
    seconds/3600, negated exactly when the direction is S or W, then
    rounded to 7 decimal places (multiplied by 10^7, rounded to the
    nearest integer, divided by 10^7); for DMS{38, 51, 31.44} and N the
    result is 38.8587333. *)
Theorem DmsToDecimal_formula :
  (forall dms direction,
      let v := if south_or_west direction then (- dms_sum dms)%float
               else dms_sum dms in
      fst (DmsToDecimal dms direction)
      = (math.Round (v * 10000000) / 10000000)%float)
  /\ fst (DmsToDecimal fixture_dms "N") = 38.8587333%float.
Proof.
  split; [|vm_compute; reflexivity].
  intros dms direction. unfold DmsToDecimal, south_or_west, dms_sum.
  destruct ((direction =? "S")%string || (direction =? "W")%string);
    [reflexivity|].
  destruct ((direction =? "N")%string || (direction =? "E")%string);
    reflexivity.
Qed.

(** C6, as the code behaves: with a direction outside N, S, E, W the call
    does not fail; it prints one line and returns the sum, not negated,
    rounded to 7 places. *)
Theorem DmsToDecimal_invalid_direction (dms : DMS) (direction : string) :
  ~ In direction ["N"; "S"; "E"; "W"] ->
  DmsToDecimal dms direction
  = (roundToPlaces (dms_sum dms) 7, ["Invalid direction. Use N, S, E, or W."]).
Proof.
  intros H. unfold DmsToDecimal, dms_sum.
  assert (E : forall d, In d ["N"; "S"; "E"; "W"] ->
                        (direction =? d)%string = false).
  { intros d Hd. apply String.eqb_neq. intros ->. contradiction. }
  rewrite !E by (simpl; auto). reflexivity.
Qed.

Lemma DmsToDecimal_invalid_direction_witness :
  ~ In "X" ["N"; "S"; "E"; "W"]
  /\ DmsToDecimal fixture_dms "X"
     = (roundToPlaces (dms_sum fixture_dms) 7,
        ["Invalid direction. Use N, S, E, or W."]).
Proof.
  assert (H : ~ In "X" ["N"; "S"; "E"; "W"]).
  { simpl. intros [H|[H|[H|[H|[]]]]]; discriminate H. }
  split; [exact H | exact (DmsToDecimal_invalid_direction fixture_dms "X" H)].
Defined.

(** C6, counterexample: for the direction X the call returns 38.8587333,
    the value it returns for N, after printing the diagnostic line. *)
Lemma DmsToDecimal_X_returns_positive :
  DmsToDecimal fixture_dms "X"
  = (38.8587333%float, ["Invalid direction. Use N, S, E, or W."])
  /\ fst (DmsToDecimal fixture_dms "X") = fst (DmsToDecimal fixture_dms "N").
Proof. split; vm_compute; reflexivity. Qed.

(** ** ParseDMS *)

Lemma ParseDMS_fixture : ParseDMS fixture_text = (fixture_dms, "N", None).
Proof. vm_compute. reflexivity. Qed.

Lemma ParseDMS_missing_symbols :
  ParseDMS "38 51 31 N"
  = (mkDMS 0 0 0%float, "", Some "invalid DMS format: 38 51 31 N").
Proof. vm_compute. reflexivity. Qed.

(** C5, the failing input: the same text as the fixture with the
    hemisphere letter in lower case is rejected with the format error;
    the pattern's class [[NSEW]] has no lower-case letters, and the
    [strings.ToUpper] after the match never sees one. *)
Theorem ParseDMS_lower_case_rejected :
  ParseDMS fixture_text_lower
  = (mkDMS 0 0 0%float, "", Some (format_error fixture_text_lower)).
Proof. vm_compute. reflexivity. Qed.

(** ** The equation of the center and the ecliptic longitude *)

(** C3, at the fixture: the equation of the center is 0.109 (degrees),
    and the code's ecliptic longitude is more than 6 degrees above
    [M + C + 102.9372 + 180]: [C] enters the sum in radians unconverted,
    so it is scaled by 180/Pi when the sum is converted to degrees. *)
Theorem lambda_mixes_units_at_fixture :
  let Jstar := Jstar_of fixture_jd fixture_longitude in
  let M := M_of Jstar in
  let C := C_of M in
  (0.109 <? C)%float = true /\ (C <? 0.110)%float = true
  /\ (6 <? lambda_of M C - lambda_by_spec Jstar)%float = true
  /\ (Leibniz.eqb (lambda_of M C)
        ((M + C + 0x1.cbed85e0e09a6p+0 + math.Pi) * RadiansToDegrees))%float
     = true.
Proof. vm_compute. repeat split. Qed.

(** ** Unreachable angles *)

Lemma div_nan_l (y : float) : (nan / y)%float = nan.
Proof.
  apply Prim2SF_inj. rewrite div_spec, Prim2SF_nan. reflexivity.
Qed.

Lemma Jset_unreachable (julianDay longitude latitude angle : float)
    (isSunrise : bool) :
  unreachable julianDay longitude latitude angle = true ->
  Jset_of julianDay longitude latitude angle isSunrise = nan.
Proof.
  intros H. unfold Jset_of, hour_angle.
  fold (declination julianDay longitude).
  rewrite (Acos_outside _ H).
  replace (if isSunrise then (- nan)%float else nan) with nan
    by now destruct isSunrise.
  rewrite div_nan_l. apply add_nan_r.
Qed.

(** C1, as the code behaves: when the argument of the arccosine is outside
    [-1, 1], [calculateTime] reports no error; the hour angle is NaN and
    the call returns the time value that [FromJulianDay] makes of NaN,
    rounded to the second, whatever the other inputs are. *)
Theorem calculateTime_unreachable (julianDay longitude latitude angle : float)
    (isSunrise : bool) :
  unreachable julianDay longitude latitude angle = true ->
  calculateTime julianDay longitude latitude angle isSunrise
  = time.Round (FromJulianDay nan) time.Second.
Proof.
  intros H. unfold calculateTime. now rewrite Jset_unreachable.
Qed.

Lemma calculateTime_unreachable_witness :
  unreachable solstice_jd 0 70 90.833 = true
  /\ calculateTime solstice_jd 0 70 90.833 true
     = time.Round (FromJulianDay nan) time.Second.
Proof.
  assert (H : unreachable solstice_jd 0 70 90.833 = true)
    by (vm_compute; reflexivity).
  split; [exact H | exact (calculateTime_unreachable _ _ _ _ true H)].
Defined.

(** C1, counterexample: at 70 degrees north on the winter solstice the
    argument of the arccosine is above 1, and [Sunrise] returns a time
    value (an instant in the year -5005) instead of failing. *)
Lemma Sunrise_polar_night_returns_time :
  unreachable (JulianToUTC solstice_jd) 0 70 90.833 = true
  /\ Sunrise solstice_jd 0 70 = -220092248837000000000.
Proof. split; vm_compute; reflexivity. Qed.

(** ** The pattern of ParseDMS and the conversions of its groups *)

Lemma string_length_app (a b : string) :
  String.length (a ++ b) = (String.length a + String.length b)%nat.
Proof. induction a; simpl; congruence. Qed.

Lemma substring_prefix (a b : string) : substring 0 (String.length a) (a ++ b) = a.
Proof.
  induction a as [|c a IH]; simpl.
  - destruct b; reflexivity.
  - now rewrite IH.
Qed.

Lemma consumed_app (pre rest : string) : regexp.consumed (pre ++ rest) rest = pre.
Proof.
  unfold regexp.consumed. rewrite string_length_app.
  replace (String.length pre + String.length rest - String.length rest)%nat
    with (String.length pre) by lia.
  apply substring_prefix.
Qed.

Lemma rep_inv p : forall s lo hi caps k c,
  regexp.rep p lo hi s caps k = Some c ->
  exists pre rest,
    s = pre ++ rest /\ all_bytes p pre = true
    /\ (lo <= String.length pre)%nat /\ within hi (String.length pre)
    /\ k rest caps = Some c.
Proof.
  induction s as [|ch s IH]; intros lo hi caps k c H; simpl in H.
  - destruct lo; [|discriminate]. exists "", "". repeat split; auto.
    destruct hi; simpl; lia.
  - assert (Stop : (match lo with O => k (String ch s) caps | S _ => None end) = Some c ->
            exists pre rest, String ch s = pre ++ rest /\ all_bytes p pre = true
              /\ (lo <= String.length pre)%nat /\ within hi (String.length pre)
              /\ k rest caps = Some c).
    { intros E. destruct lo; [|discriminate]. exists "", (String ch s).
      repeat split; auto. destruct hi; simpl; lia. }
    destruct ((match hi with Some O => false | _ => true end) && p ch) eqn:G;
      [|now apply Stop].
    apply andb_true_iff in G as [G1 G2].
    destruct (regexp.rep p (Nat.pred lo) (option_map Nat.pred hi) s caps k) as [r|] eqn:R;
      [|now apply Stop].
    injection H as <-.
    apply IH in R as (pre & rest & -> & A & L & W & K).
    exists (String ch pre), rest. simpl. rewrite G2, A.
    repeat split; auto; [lia|].
    destruct hi as [[|h]|]; simpl in *; try discriminate; lia.
Qed.

Lemma cap_rep_inv i p lo hi s caps k c :
  regexp.run (regexp.Cap i (regexp.Rep p lo hi)) s caps k = Some c ->
  exists pre rest,
    s = pre ++ rest /\ all_bytes p pre = true
    /\ (lo <= String.length pre)%nat /\ within hi (String.length pre)
    /\ k rest ((i, pre) :: caps) = Some c.
Proof.
  simpl. intros H. apply rep_inv in H as (pre & rest & -> & A & L & W & K).
  rewrite consumed_app in K. eauto 10.
Qed.

Lemma lit_inv ch s caps k c :
  regexp.run (regexp.Lit ch) s caps k = Some c ->
  exists rest, s = String ch rest /\ k rest caps = Some c.
Proof.
  simpl. destruct s as [|d rest]; [discriminate|].
  destruct (Ascii.eqb_spec ch d) as [->|]; [|discriminate]. eauto.
Qed.

Lemma run_cat a b s caps k :
  regexp.run (regexp.Cat a b) s caps k
  = regexp.run a s caps (fun rest caps' => regexp.run b rest caps' k).
Proof. reflexivity. Qed.

Lemma run_rep_inv p lo hi s caps k c :
  regexp.run (regexp.Rep p lo hi) s caps k = Some c ->
  exists pre rest,
    s = pre ++ rest /\ all_bytes p pre = true
    /\ (lo <= String.length pre)%nat /\ within hi (String.length pre)
    /\ k rest caps = Some c.
Proof. apply rep_inv. Qed.

Lemma opt_inv r s caps k c :
  regexp.run (regexp.Opt r) s caps k = Some c ->
  regexp.run r s caps k = Some c \/ k s caps = Some c.
Proof.
  simpl. destruct (regexp.run r s caps k) as [x|]; [intros [= <-]; now left|now right].
Qed.

Lemma cap_class_inv i p s caps k c :
  regexp.run (regexp.Cap i (regexp.Class p)) s caps k = Some c ->
  exists d rest, s = String d rest /\ p d = true
                 /\ k rest ((i, String d EmptyString) :: caps) = Some c.
Proof.
  simpl. destruct s as [|d rest]; [discriminate|].
  destruct (p d) eqn:P; [|discriminate]. intros H.
  change (String d rest) with (String d EmptyString ++ rest) in H.
  rewrite consumed_app in H. eauto.
Qed.

Lemma app_assoc_s (a b c : string) : (a ++ b) ++ c = a ++ (b ++ c).
Proof. induction a; simpl; congruence. Qed.

Lemma one_of_NSEW d :
  regexp.one_of "NSEW" d = true -> hemisphere (String d EmptyString).
Proof.
  unfold regexp.one_of, hemisphere. simpl. intros H.
  repeat (apply orb_true_iff in H as [H|H];
          [apply Ascii.eqb_eq in H; subst; auto|]).
  discriminate.
Qed.

Theorem dms_pattern_groups input matches :
  regexp.FindStringSubmatch dms_pattern 4 input = Some matches ->
  exists g1 g2 g3 g4,
    matches = [input; g1; g2; g3; g4]
    /\ digits12 g1 /\ digits12 g2 /\ seconds_text g3 /\ hemisphere g4.
Proof.
  unfold regexp.FindStringSubmatch.
  destruct (regexp.run dms_pattern input [] _) as [caps|] eqn:R; [|discriminate].
  intros [= <-]. unfold dms_pattern in R.
  rewrite run_cat in R. apply cap_rep_inv in R as (g1 & r1 & -> & D1 & L1 & W1 & R).
  cbv beta in R.
  rewrite run_cat in R. apply lit_inv in R as (r2 & -> & R).
  rewrite run_cat in R. apply lit_inv in R as (r3 & -> & R).
  rewrite run_cat in R. apply run_rep_inv in R as (w1 & r4 & -> & _ & _ & _ & R).
  rewrite run_cat in R. apply cap_rep_inv in R as (g2 & r5 & -> & D2 & L2 & W2 & R).
  cbv beta in R.
  rewrite run_cat in R. apply lit_inv in R as (r6 & -> & R).
  rewrite run_cat in R. apply run_rep_inv in R as (w2 & r7 & -> & _ & _ & _ & R).
  rewrite run_cat in R.
  (* group 3 *)
  change (regexp.run (regexp.Cap 3 ?r) r7 ?c ?k)
    with (regexp.run r r7 c (fun rest caps' => k rest ((3%nat, regexp.consumed r7 rest) :: caps'))) in R.
  rewrite run_cat in R. apply run_rep_inv in R as (pre & r8 & -> & D3 & L3 & W3 & R).
  assert (G3 : exists g3 r9,
             pre ++ r8 = g3 ++ r9 /\ seconds_text g3 /\
             regexp.run (regexp.Cat (regexp.Lit (byte 34))
                (regexp.Cat (regexp.Rep regexp.space 1 None)
                   (regexp.Cap 4 (regexp.Class (regexp.one_of "NSEW")))))
               r9 ((3%nat, g3) :: (2%nat, g2) :: (1%nat, g1) :: [])
               (fun rest caps => match rest with EmptyString => Some caps | _ => None end)
             = Some caps).
  { apply opt_inv in R as [R|R].
    - rewrite run_cat in R. apply lit_inv in R as (r9 & -> & R).
      apply run_rep_inv in R as (frac & r10 & -> & D4 & L4 & _ & R).
      cbv beta in R.
      replace (pre ++ String "." (frac ++ r10)) with ((pre ++ String "." frac) ++ r10) in *
        by (rewrite app_assoc_s; reflexivity).
      rewrite consumed_app in R.
      exists (pre ++ String "." frac), r10. split; [reflexivity|]. split; [|exact R].
      exists pre. simpl in W3. repeat split; auto. right. exists frac. auto.
    - cbv beta in R. rewrite consumed_app in R.
      exists pre, r8. split; [reflexivity|]. split; [|exact R].
      exists pre. simpl in W3. repeat split; auto. }
  destruct G3 as (g3 & r9 & E3 & S3 & R'). rewrite E3. clear R E3.
  rewrite run_cat in R'. apply lit_inv in R' as (r10 & -> & R').
  rewrite run_cat in R'. apply run_rep_inv in R' as (w3 & r11 & -> & _ & _ & _ & R').
  apply cap_class_inv in R' as (d & r12 & -> & P & R').
  destruct r12; [|discriminate]. injection R' as <-.
  exists g1, g2, g3, (String d EmptyString).
  simpl in W1, W2.
  split; [reflexivity|]. repeat split; auto. now apply one_of_NSEW.
Qed.

Lemma digit_value_range c :
  strconv.is_digit c = true -> 0 <= strconv.digit_value c <= 9.
Proof.
  unfold strconv.is_digit, strconv.digit_value. intros H.
  apply andb_true_iff in H as [H1 H2].
  apply Nat.leb_le in H1, H2. lia.
Qed.

Lemma digits_from_value s : forall acc,
  all_bytes strconv.is_digit s = true -> 0 <= acc ->
  exists n, strconv.digits_from acc s = Some n
            /\ acc * 10 ^ Z.of_nat (String.length s) <= n
               < (acc + 1) * 10 ^ Z.of_nat (String.length s).
Proof.
  induction s as [|c s IH]; intros acc H Hacc.
  - exists acc. simpl. split; [reflexivity|lia].
  - simpl in H. apply andb_true_iff in H as [Hc Hs].
    pose proof (digit_value_range c Hc) as V.
    destruct (IH (10 * acc + strconv.digit_value c) Hs ltac:(lia)) as (n & E & B).
    exists n. simpl strconv.digits_from. rewrite Hc. split; [exact E|].
    cbn [String.length]. rewrite Nat2Z.inj_succ, Z.pow_succ_r by lia.
    pose proof (Z.pow_pos_nonneg 10 (Z.of_nat (String.length s)) ltac:(lia) ltac:(lia)).
    nia.
Qed.

Lemma Atoi_digits12 g :
  digits12 g -> exists n, strconv.Atoi g = (n, None) /\ 0 <= n <= 99.
Proof.
  intros [D [L1 L2]].
  destruct (digits_from_value g 0 D ltac:(lia)) as (n & E & B).
  assert (Hp : 10 ^ Z.of_nat (String.length g) <= 10 ^ 2).
  { apply Z.pow_le_mono_r; lia. }
  exists n. unfold strconv.Atoi. destruct g as [|c g]; [simpl in L1; lia|].
  rewrite E. destruct (Z.leb_spec n F64.max_int64) as [_|G].
  - split; [reflexivity|lia].
  - unfold F64.max_int64 in G. lia.
Qed.

Lemma digit_not_point c : strconv.is_digit c = true -> Ascii.eqb c "." = false.
Proof.
  intros H. apply Ascii.eqb_neq. intros ->. discriminate H.
Qed.

Lemma split_point_digits pre :
  all_bytes strconv.is_digit pre = true ->
  strconv.split_point pre = (pre, None)
  /\ forall t, strconv.split_point (pre ++ String "." t) = (pre, Some t).
Proof.
  induction pre as [|c pre IH]; intros H.
  - split; reflexivity.
  - simpl in H. apply andb_true_iff in H as [Hc Hs].
    destruct (IH Hs) as [E1 E2]. simpl. rewrite (digit_not_point c Hc), E1.
    split; [reflexivity|]. intros t. now rewrite E2.
Qed.

Lemma all_bytes_app p a b :
  all_bytes p a = true -> all_bytes p b = true -> all_bytes p (a ++ b) = true.
Proof. induction a; simpl; intros H1 H2; [assumption|]. apply andb_true_iff in H1 as [-> H1]. auto. Qed.


(** ** The two calendars agree *)

Ltac div_lia := Z.to_euclidean_division_equations; lia.

Lemma civil_round_trip D :
  let '(y, m, d) := time.civil_from_days D in
  time.days_from_civil y m d = D /\ 1 <= m <= 12 /\ 1 <= d <= 31.
Proof.
  unfold time.civil_from_days, time.days_from_civil. cbv zeta.
  repeat match goal with
  | |- context [?a <? ?b] => destruct (Z.ltb_spec a b)
  | |- context [?a <=? ?b] => destruct (Z.leb_spec a b)
  end; div_lia.
Qed.

Lemma days_from_civil_day y m d :
  time.days_from_civil y m d = time.days_from_civil y m 0 + d.
Proof. unfold time.days_from_civil. cbv zeta. lia. Qed.

Lemma meeus_days_civil y m d : 1 <= m <= 12 ->
  meeus_days y m d = time.days_from_civil y m d + 2442112.
Proof.
  intros Hm. unfold meeus_days, time.days_from_civil.
  assert (C : m = 1 \/ m = 2 \/ m = 3 \/ m = 4 \/ m = 5 \/ m = 6 \/ m = 7 \/ m = 8
              \/ m = 9 \/ m = 10 \/ m = 11 \/ m = 12) by lia.
  destruct C as [-> | [-> | [-> | [-> | [-> | [-> | [-> | [-> | [-> | [-> | [-> | ->]]]]]]]]]]];
    cbn [Z.eqb Pos.eqb orb Z.leb Z.ltb Z.compare Pos.compare Pos.compare_cont];
    cbv zeta; div_lia.
Qed.

Lemma meeus_alpha era yoe doy :
  in_year yoe doy ->
  ((era_day era yoe doy + 1721120) * 100 - 186721625) / 3652425
  = 4 * era + yoe / 100 - 4.
Proof. unfold in_year, era_day. intros H. div_lia. Qed.

Lemma meeus_c era yoe doy :
  in_year yoe doy ->
  let b := era_day era yoe doy + 1721120 + 1 + (4 * era + yoe / 100 - 4)
           - (4 * era + yoe / 100 - 4) / 4 + 1524 in
  b = 146100 * era + 1722519 + (365 * yoe + yoe / 4 + doy + 123)
  /\ (b * 100 - 12210) / 36525 = 400 * era + yoe + 4716.
Proof.
  unfold in_year, era_day. intros H. cbv zeta. set (b := _ + 1524).
  assert (E : b = 146100 * era + 1722519 + (365 * yoe + yoe / 4 + doy + 123)).
  { subst b. div_lia. }
  split; [exact E|]. rewrite E. clear E b. div_lia.
Qed.

Lemma meeus_d era yoe :
  36525 * (400 * era + yoe + 4716) / 100
  = 146100 * era + 1722519 + (365 * yoe + yoe / 4).
Proof. div_lia. Qed.

Lemma meeus_month doy : 0 <= doy <= 365 ->
  let e := (doy + 123) * 10000 / 306001 in
  let mp := (5 * doy + 2) / 153 in
  e = mp + 4 /\ 0 <= mp <= 11
  /\ doy + 123 - 306001 * e / 10000 = doy - (153 * mp + 2) / 5 + 1.
Proof. intros H e mp. subst e mp. div_lia. Qed.

Lemma civil_parts D :
  exists era yoe doy,
    in_year yoe doy /\ doy <= 365 /\ D + 719468 = era_day era yoe doy
    /\ time.civil_from_days D = date_in_year era yoe doy.
Proof.
  unfold time.civil_from_days. cbv zeta.
  set (z := D + 719468). set (era := z / 146097). set (doe := z - era * 146097).
  set (yoe := (doe - doe / 1460 + doe / 36524 - doe / 146096) / 365).
  set (doy := doe - (365 * yoe + yoe / 4 - yoe / 100)).
  exists era, yoe, doy. split; [|split; [|split; [|reflexivity]]].
  - unfold in_year. subst doy yoe doe era. div_lia.
  - subst doy yoe doe era. div_lia.
  - unfold era_day. subst doy doe. lia.
Qed.

Lemma meeus_date_parts era yoe doy :
  in_year yoe doy -> doy <= 365 ->
  meeus_date (era_day era yoe doy + 1721120) = date_in_year era yoe doy.
Proof.
  intros H Hd. unfold meeus_date. cbv zeta.
  rewrite (meeus_alpha era yoe doy H).
  destruct (meeus_c era yoe doy H) as [Eb Ec]. cbv zeta in Eb, Ec.
  rewrite Ec, Eb, meeus_d.
  replace (146100 * era + 1722519 + (365 * yoe + yoe / 4 + doy + 123)
           - (146100 * era + 1722519 + (365 * yoe + yoe / 4)))
    with (doy + 123) by ring.
  destruct H as (_ & H0 & _).
  destruct (meeus_month doy (conj H0 Hd)) as (Ee & Hmp & Eday). cbv zeta in Ee, Hmp, Eday.
  rewrite Eday, Ee. unfold date_in_year. cbv zeta.
  set (mp := (5 * doy + 2) / 153) in *. clearbody mp.
  destruct (Z.ltb_spec mp 10) as [L|L].
  - replace ((mp + 4 =? 14) || (mp + 4 =? 15)) with false
      by (symmetry; apply orb_false_iff; split; apply Z.eqb_neq; lia).
    replace (mp + 4 - 1) with (mp + 3) by ring.
    replace ((mp + 3 =? 1) || (mp + 3 =? 2)) with false
      by (symmetry; apply orb_false_iff; split; apply Z.eqb_neq; lia).
    replace (mp + 3 <=? 2) with false by (symmetry; apply Z.leb_gt; lia).
    f_equal. f_equal. lia.
  - assert (C : mp = 10 \/ mp = 11) by lia.
    destruct C as [-> | ->]; cbn [Z.add Pos.add Z.eqb Pos.eqb orb Z.sub Z.opp Z.pos_sub
                                   Z.leb Z.compare Pos.compare Pos.compare_cont Z.succ_double
                                   Z.pred_double Z.double Pos.pred_double Pos.succ];
      f_equal; f_equal; lia.
Qed.

(** The date that the algorithm of Meeus gives for the day number
    D + 2440588 is the calendar date of the day D after 1970-01-01. *)
Lemma meeus_date_civil D : meeus_date (D + 2440588) = time.civil_from_days D.
Proof.
  destruct (civil_parts D) as (era & yoe & doy & H & Hd & E & ->).
  replace (D + 2440588) with (era_day era yoe doy + 1721120) by lia.
  now apply meeus_date_parts.
Qed.

Lemma wrap64_small x : - 2 ^ 63 <= x < 2 ^ 63 -> julian.wrap64 x = x.
Proof.
  intros H. unfold julian.wrap64. rewrite Z.mod_small; lia.
Qed.

(** The year of a day between 0001-01-01 and 9999-12-31. *)
Lemma civil_year_range D :
  -719162 <= D <= 2932896 ->
  1 <= fst (fst (time.civil_from_days D)) <= 9999.
Proof.
  intros H. pose proof (civil_round_trip D) as R.
  destruct (time.civil_from_days D) as [[y m] d]. destruct R as (E & Hm & Hd).
  cbn [fst]. unfold time.days_from_civil in E. cbv zeta in E.
  destruct (Z.leb_spec m 2), (Z.ltb_spec 2 m); try lia; div_lia.
Qed.

(** ** Binary64 arithmetic over the reals *)

Section FloatTheory.

Local Open Scope R_scope.

Lemma bpow_gt_0 e : 0 < bpow e.
Proof. apply powerRZ_lt. lra. Qed.

Lemma bpow_plus a b : bpow (a + b) = bpow a * bpow b.
Proof. apply powerRZ_add. lra. Qed.

Lemma bpow_opp e : bpow (- e) = / bpow e.
Proof. apply powerRZ_neg'. Qed.

Lemma bpow_0 : bpow 0 = 1.
Proof. reflexivity. Qed.

Lemma bpow_1 : bpow 1 = 2.
Proof. unfold bpow. simpl. lra. Qed.

Lemma bpow_m1 : bpow (-1) = / 2.
Proof. unfold bpow. simpl. now rewrite Rmult_1_r. Qed.

Lemma bpow_IZR e : (0 <= e)%Z -> bpow e = IZR (2 ^ e).
Proof.
  intros H. destruct e as [|p|p]; [reflexivity| |lia].
  unfold bpow. now rewrite <- Zpower_pos_powerRZ.
Qed.

Lemma bpow_ge_1 e : (0 <= e)%Z -> 1 <= bpow e.
Proof.
  intros H. rewrite bpow_IZR by assumption. apply IZR_le.
  pose proof (Z.pow_pos_nonneg 2 e). lia.
Qed.

Lemma bpow_le a b : (a <= b)%Z -> bpow a <= bpow b.
Proof.
  intros H. replace b with (a + (b - a))%Z by lia. rewrite bpow_plus.
  pose proof (bpow_gt_0 a). pose proof (bpow_ge_1 (b - a) ltac:(lia)). nra.
Qed.

Lemma bpow_lt a b : (a < b)%Z -> bpow a < bpow b.
Proof.
  intros H. replace b with (a + 1 + (b - a - 1))%Z by lia.
  rewrite !bpow_plus, bpow_1.
  pose proof (bpow_gt_0 a). pose proof (bpow_ge_1 (b - a - 1) ltac:(lia)). nra.
Qed.

Lemma bpow_inv_l e : bpow (- e) * bpow e = 1.
Proof. rewrite <- bpow_plus. now replace (- e + e)%Z with 0%Z by lia. Qed.

(* digits *)
Lemma digits2_size p : digits2_pos p = Pos.size p.
Proof. induction p; simpl; congruence. Qed.

Lemma digits2_bounds p :
  (2 ^ (Zpos (digits2_pos p) - 1) <= Zpos p < 2 ^ Zpos (digits2_pos p))%Z.
Proof.
  rewrite digits2_size. split.
  - pose proof (Pos.size_le p) as H.
    assert (H' : (2 ^ Zpos (Pos.size p) <= 2 * Zpos p)%Z).
    { change (2 * Zpos p)%Z with (Zpos p~0). rewrite <- Pos2Z.inj_pow. now apply Pos2Z.pos_le_pos. }
    replace (Zpos (Pos.size p)) with (Z.succ (Zpos (Pos.size p) - 1)) in H' by lia.
    rewrite Z.pow_succ_r in H' by lia. lia.
  - pose proof (Pos.size_gt p) as H. rewrite <- Pos2Z.inj_pow. now apply Pos2Z.pos_lt_pos.
Qed.

Lemma Zdigits2_bounds m : (0 < m)%Z ->
  (2 ^ (Zdigits2 m - 1) <= m < 2 ^ Zdigits2 m)%Z.
Proof. destruct m; try lia. intros _. apply digits2_bounds. Qed.

Lemma Zdigits2_nonneg m : (0 <= Zdigits2 m)%Z.
Proof. destruct m; simpl; lia. Qed.

(* a number below 2^k has at most k digits *)
Lemma Zdigits2_le m k : (0 <= m < 2 ^ k)%Z -> (0 <= k)%Z -> (Zdigits2 m <= k)%Z.
Proof.
  intros [H0 H] Hk. destruct (Z.eq_dec m 0) as [->|N]; [simpl; lia|].
  pose proof (Zdigits2_bounds m ltac:(lia)) as [L _].
  destruct (Z_le_gt_dec (Zdigits2 m) k); [assumption|].
  assert (2 ^ k <= 2 ^ (Zdigits2 m - 1))%Z by (apply Z.pow_le_mono_r; lia). lia.
Qed.

Lemma Zdigits2_ge m k : (2 ^ k <= m)%Z -> (0 <= k)%Z -> (k + 1 <= Zdigits2 m)%Z.
Proof.
  intros H Hk.
  assert (0 < m)%Z by (pose proof (Z.pow_pos_nonneg 2 k); lia).
  pose proof (Zdigits2_bounds m ltac:(lia)) as [_ U].
  destruct (Z_le_gt_dec (k + 1) (Zdigits2 m)); [assumption|].
  assert (2 ^ Zdigits2 m <= 2 ^ k)%Z by (apply Z.pow_le_mono_r; lia). lia.
Qed.

Lemma shr_1_located r x : located r x -> located (shr_1 r) (x / 2).
Proof.
  destruct r as [m rb sb]. unfold located. cbn [shr_m loc_of_shr_record].
  intros [Hm H].
  destruct m as [|[p|p|]|]; [| | | |lia].
  all: destruct rb, sb.
  all: cbn [shr_1 orb shr_m loc_of_shr_record inbetween] in *.
  all: try rewrite (IZR_POS_xO p) in H; try rewrite (IZR_POS_xI p) in H.
  all: split; [lia|]; lra.
Qed.

Lemma iter_shr_1_located p : forall r x,
  located r x -> located (iter_pos shr_1 p r) (x * bpow (- Zpos p)).
Proof.
  induction p as [p IH|p IH|]; intros r x H; simpl iter_pos.
  - apply shr_1_located in H. apply IH, IH in H.
    replace (x * bpow (- Zpos p~1)) with (x / 2 * bpow (- Zpos p) * bpow (- Zpos p)); [exact H|].
    replace (- Zpos p~1)%Z with (-1 + (- Zpos p + - Zpos p))%Z by lia.
    rewrite !bpow_plus, bpow_m1. lra.
  - apply IH, IH in H.
    replace (x * bpow (- Zpos p~0)) with (x * bpow (- Zpos p) * bpow (- Zpos p)); [exact H|].
    replace (- Zpos p~0)%Z with (- Zpos p + - Zpos p)%Z by lia.
    rewrite !bpow_plus. lra.
  - apply shr_1_located in H. unfold Rdiv in H. rewrite <- bpow_m1 in H. exact H.
Qed.

Lemma located_of_loc m l x :
  (0 <= m)%Z -> inbetween m l x -> located (shr_record_of_loc m l) x.
Proof. intros Hm H. split; destruct l as [|[| |]]; simpl; auto. Qed.

Lemma shr_located m l x e n :
  (0 <= m)%Z -> inbetween m l x -> (0 <= n)%Z ->
  located (fst (shr (shr_record_of_loc m l) e n)) (x * bpow (- n))
  /\ snd (shr (shr_record_of_loc m l) e n) = (e + n)%Z.
Proof.
  intros Hm H Hn. destruct n as [|p|p]; try lia.
  - change (bpow (- 0)) with 1. rewrite Rmult_1_r. split; [now apply located_of_loc|simpl; lia].
  - split; [|reflexivity]. apply iter_shr_1_located. now apply located_of_loc.
Qed.

Lemma fexp_eq e : fexp prec emax e = Z.max (e - 53) (-1074).
Proof. reflexivity. Qed.

Lemma round_nearest_even_spec m l y :
  inbetween m l y ->
  let m' := round_nearest_even m l in
  (m <= m' <= m + 1)%Z /\ Rabs (IZR m' - y) <= / 2
  /\ (l = loc_Exact -> m' = m).
Proof.
  intros H. destruct l as [|[| |]]; simpl in *.
  - subst y. split; [lia|]. split; [|reflexivity].
    replace (IZR m - IZR m) with 0 by lra. rewrite Rabs_R0. lra.
  - destruct H as [H1 H2]. destruct (Z.even m).
    + split; [lia|]. split; [|discriminate]. rewrite H2.
      replace (IZR m - (IZR m + / 2)) with (- / 2) by lra.
      rewrite Rabs_Ropp, Rabs_pos_eq; lra.
    + split; [lia|]. split; [|discriminate]. rewrite H2, plus_IZR.
      replace (IZR m + 1 - (IZR m + / 2)) with (/ 2) by lra.
      rewrite Rabs_pos_eq; lra.
  - destruct H as [H1 H2]. split; [lia|]. split; [|discriminate].
    rewrite Rabs_left1; lra.
  - destruct H as [H1 H2]. split; [lia|]. split; [|discriminate].
    rewrite plus_IZR. rewrite Rabs_pos_eq; lra.
Qed.

Lemma inbetween_bounds m l x : inbetween m l x -> IZR m <= x < IZR m + 1.
Proof. destruct l as [|c]; simpl; [intros ->; lra|intros [H _]; lra]. Qed.

Lemma shr_exact_noop m e n :
  (n <= 0)%Z -> shr (shr_record_of_loc m loc_Exact) e n = (Build_shr_record m false false, e).
Proof. intros H. destruct n; try lia; reflexivity. Qed.

Lemma second_shr sx m' e' :
  (0 <= m' <= 2 ^ 53)%Z -> (-1074 <= e')%Z ->
  (let '(mrs'', e'') := shr_fexp prec emax m' e' loc_Exact in
   match shr_m mrs'' with
   | Z0 => S754_zero sx
   | Zpos m => if (e'' <=? emax - prec)%Z then S754_finite sx m e'' else S754_infinity sx
   | _ => S754_nan
   end) = round_result sx m' e'.
Proof.
  intros Hm He. unfold shr_fexp, round_result.
  destruct (Z.eqb_spec m' 0) as [->|N0].
  { simpl Zdigits2. rewrite shr_exact_noop by (rewrite fexp_eq; lia). reflexivity. }
  destruct (Z.eqb_spec m' (2 ^ 53)) as [->|N1].
  { change (Zdigits2 (2 ^ 53)) with 54%Z.
    replace (fexp prec emax (54 + e') - e')%Z with 1%Z by (rewrite fexp_eq; lia).
    reflexivity. }
  assert (Hd : (Zdigits2 m' <= 53)%Z) by (apply Zdigits2_le; lia).
  rewrite shr_exact_noop by (rewrite fexp_eq; lia).
  simpl shr_m. destruct m' as [|p|p]; try lia. reflexivity.
Qed.

Lemma IZR_pow2_bpow k : (0 <= k)%Z -> IZR (2 ^ k) = bpow k.
Proof. intros H. now rewrite bpow_IZR. Qed.

Theorem binary_round_aux_correct sx mx ex lx x :
  (0 <= mx)%Z -> inbetween mx lx x ->
  (ex <= fexp prec emax (Zdigits2 mx + ex))%Z ->
  let e' := fexp prec emax (Zdigits2 mx + ex) in
  exists m' : Z,
    (0 <= m' <= 2 ^ 53)%Z
    /\ Rabs (IZR m' - x * bpow (ex - e')) <= / 2
    /\ (e' = (-1074)%Z \/ (2 ^ 52 <= m')%Z)
    /\ binary_round_aux prec emax sx mx ex lx = round_result sx m' e'.
Proof.
  intros Hmx Hin Hpre e'.
  set (n := (e' - ex)%Z). assert (Hn : (0 <= n)%Z) by (unfold n, e'; lia).
  destruct (shr_located mx lx x ex n Hmx Hin Hn) as [[Hm1 Hloc] He1].
  unfold binary_round_aux, shr_fexp. fold e'. fold n.
  destruct (shr (shr_record_of_loc mx lx) ex n) as [mrs' e1] eqn:E.
  cbn [fst snd] in *. subst e1.
  replace (ex + n)%Z with e' by (unfold n; lia).
  set (m1 := shr_m mrs') in *. set (l1 := loc_of_shr_record mrs') in *.
  set (y := x * bpow (- n)) in *.
  destruct (round_nearest_even_spec m1 l1 y Hloc) as [Hr [Habs Hex]].
  set (m' := round_nearest_even m1 l1) in *.
  assert (He' : (-1074 <= e')%Z) by (unfold e'; rewrite fexp_eq; lia).
  assert (Hm1b : (m1 < 2 ^ 53)%Z).
  { apply lt_IZR. rewrite IZR_pow2_bpow by lia.
    pose proof (inbetween_bounds _ _ _ Hloc) as [Hy _].
    pose proof (inbetween_bounds _ _ _ Hin) as [_ Hx].
    set (d := Zdigits2 mx) in *.
    assert (Hd : IZR mx + 1 <= bpow d).
    { rewrite <- IZR_pow2_bpow by apply Zdigits2_nonneg.
      rewrite <- plus_IZR. apply IZR_le.
      destruct (Z.eq_dec mx 0) as [->|N]; [simpl; lia|].
      pose proof (Zdigits2_bounds mx ltac:(lia)) as B. fold d in B. lia. }
    assert (Hdn : bpow d * bpow (- n) <= bpow 53).
    { rewrite <- bpow_plus. apply bpow_le. unfold n, e'. rewrite fexp_eq. fold d. lia. }
    pose proof (bpow_gt_0 (- n)). unfold y in Hy. nra. }
  exists m'. replace (ex - e')%Z with (- n)%Z by (unfold n; lia). fold y.
  split; [lia|]. split; [exact Habs|]. split; [|apply second_shr; lia].
  destruct (Z.eq_dec e' (-1074)) as [|Ne]; [now left|right].
  set (d := Zdigits2 mx) in *.
  assert (Hd : (e' = d + ex - 53)%Z) by (unfold e' in *; rewrite fexp_eq in *; lia).
  assert (Hpos : (0 < mx)%Z).
  { destruct (Z.eq_dec mx 0) as [E0|]; [|lia]. subst mx. simpl in d. lia. }
  pose proof (Zdigits2_bounds mx Hpos) as [B _]. fold d in B.
  pose proof (inbetween_bounds _ _ _ Hin) as [Hx _].
  assert (Hy : bpow 52 <= y).
  { unfold y. replace 52%Z with ((d - 1) + - n)%Z by (unfold n; lia).
    rewrite bpow_plus. apply Rmult_le_compat_r; [apply Rlt_le, bpow_gt_0|].
    rewrite <- IZR_pow2_bpow by lia. eapply Rle_trans; [apply IZR_le, B|exact Hx]. }
  rewrite <- IZR_pow2_bpow in Hy by lia.
  assert (A : IZR (2 ^ 52 - 1) < IZR m').
  { rewrite minus_IZR. pose proof (Rabs_def2 _ _ (Rle_lt_trans _ _ 1 Habs ltac:(lra))). lra. }
  apply lt_IZR in A. lia.
Qed.

Lemma Zdigits2_pos m : (0 < m)%Z -> (1 <= Zdigits2 m)%Z.
Proof. destruct m; simpl; lia. Qed.

Lemma Zdigits2_eq53 m : (2 ^ 52 <= m < 2 ^ 53)%Z -> Zdigits2 m = 53%Z.
Proof.
  intros H. pose proof (Zdigits2_le m 53 ltac:(lia) ltac:(lia)).
  pose proof (Zdigits2_ge m 52 ltac:(lia) ltac:(lia)). lia.
Qed.

Lemma valid_finite sx m e :
  (0 < m < 2 ^ 53)%Z -> (-1074 <= e <= 971)%Z ->
  (e = (-1074)%Z \/ (2 ^ 52 <= m)%Z) ->
  valid_binary (S754_finite sx (Z.to_pos m) e) = true.
Proof.
  intros Hm He Hc. unfold valid_binary, bounded, canonical_mantissa.
  apply andb_true_iff. split; [|apply Z.leb_le; change (emax - prec)%Z with 971%Z; lia].
  apply Z.eqb_eq. rewrite fexp_eq.
  change (Zpos (digits2_pos (Z.to_pos m))) with (Zdigits2 (Zpos (Z.to_pos m))).
  rewrite Z2Pos.id by lia.
  destruct Hc as [->|Hc].
  - pose proof (Zdigits2_le m 53 ltac:(lia) ltac:(lia)). lia.
  - rewrite Zdigits2_eq53 by lia. lia.
Qed.

Lemma round_result_rounded sx m' e' :
  (0 <= m' <= 2 ^ 53)%Z -> (-1074 <= e' <= 970)%Z ->
  (e' = (-1074)%Z \/ (2 ^ 52 <= m')%Z) ->
  SF_finite (round_result sx m' e') = true
  /\ valid_binary (round_result sx m' e') = true
  /\ SF_sign_is sx (round_result sx m' e')
  /\ SF2R (round_result sx m' e') = signed sx (IZR m' * bpow e').
Proof.
  intros Hm He Hc. unfold round_result.
  destruct (Z.eqb_spec m' 0) as [->|N0].
  { simpl. repeat split. destruct sx; simpl; lra. }
  destruct (Z.eqb_spec m' (2 ^ 53)) as [->|N1].
  { destruct (Z.leb_spec (e' + 1) 971); [|lia].
    split; [reflexivity|]. split.
    - apply (valid_finite sx (2 ^ 52) (e' + 1)); [lia|lia|right; lia].
    - split; [reflexivity|]. unfold SF2R, signed.
      replace (IZR (Zpos (2 ^ 52)) * bpow (e' + 1)) with (IZR (2 ^ 53) * bpow e'); [reflexivity|].
      rewrite bpow_plus, bpow_1.
      change (Zpos (2 ^ 52)) with (2 ^ 52)%Z.
      replace (2 ^ 53)%Z with (2 ^ 52 * 2)%Z by reflexivity.
      rewrite mult_IZR. lra. }
  destruct (Z.leb_spec e' 971); [|lia].
  split; [reflexivity|]. split; [apply valid_finite; lia|].
  split; [reflexivity|]. unfold SF2R, signed. rewrite Z2Pos.id by lia. reflexivity.
Qed.

Theorem binary_round_aux_rounded sx mx ex lx x :
  (0 <= mx)%Z -> inbetween mx lx x ->
  (ex <= fexp prec emax (Zdigits2 mx + ex))%Z ->
  x * bpow ex < bpow 1023 ->
  rounded sx (x * bpow ex) (binary_round_aux prec emax sx mx ex lx).
Proof.
  intros Hmx Hin Hpre Hov.
  destruct (binary_round_aux_correct sx mx ex lx x Hmx Hin Hpre)
    as (m' & Hm' & Habs & Hc & ->).
  set (e' := fexp prec emax (Zdigits2 mx + ex)) in *.
  set (d := Zdigits2 mx) in *. set (a := x * bpow ex) in *.
  pose proof (inbetween_bounds _ _ _ Hin) as [Hx Hx'].
  assert (Hx0 : 0 <= x) by (apply Rle_trans with (IZR mx); [apply (IZR_le 0 mx Hmx)|exact Hx]).
  pose proof (bpow_gt_0 ex) as Hbex.
  assert (Ha0 : 0 <= a) by (unfold a; nra).
  assert (He'lo : (-1074 <= e')%Z) by (unfold e'; rewrite fexp_eq; lia).
  (* the magnitude of a *)
  assert (Hmag : (0 < mx)%Z -> bpow (d + ex - 1) <= a).
  { intros Hpos. pose proof (Zdigits2_bounds mx Hpos) as [B _]. fold d in B.
    pose proof (Zdigits2_pos mx Hpos) as P. fold d in P.
    replace (d + ex - 1)%Z with ((d - 1) + ex)%Z by lia. rewrite bpow_plus.
    unfold a. apply Rmult_le_compat_r; [lra|].
    rewrite <- IZR_pow2_bpow by lia. eapply Rle_trans; [apply IZR_le, B|exact Hx]. }
  assert (He'0 : mx = 0%Z -> e' = (-1074)%Z).
  { intros E0. unfold e', d in *. rewrite E0 in *. simpl Zdigits2 in *.
    rewrite fexp_eq in *. lia. }
  assert (He'hi : (e' <= 970)%Z).
  { destruct (Z.eq_dec mx 0) as [E0|N0]; [rewrite (He'0 E0); lia|].
    specialize (Hmag ltac:(lia)).
    assert (bpow (d + ex - 1) < bpow 1023) by lra.
    destruct (Z_lt_le_dec (d + ex - 1) 1023) as [L|L].
    - unfold e'. rewrite fexp_eq. fold d. lia.
    - apply bpow_le in L. lra. }
  destruct (round_result_rounded sx m' e' Hm' ltac:(lia) Hc) as (F & V & S & Val).
  split; [exact V|]. split; [exact F|]. split; [exact S|].
  exists (IZR m' * bpow e'). split; [exact Val|].
  pose proof (bpow_gt_0 e') as Hbe'.
  split; [pose proof (IZR_le 0 m' ltac:(lia)); nra|].
  assert (Hy : x * bpow (ex - e') = a * bpow (- e')).
  { unfold a. unfold Z.sub. rewrite bpow_plus. ring. }
  rewrite Hy in Habs.
  assert (Hdiff : IZR m' * bpow e' - a = (IZR m' - a * bpow (- e')) * bpow e').
  { rewrite Rmult_minus_distr_r, Rmult_assoc, bpow_inv_l. ring. }
  split.
  - rewrite Hdiff, Rabs_mult, (Rabs_pos_eq (bpow e')) by lra.
    assert (Hb : bpow e' * / 2 <= a * bpow (-53) + bpow (-1075)).
    { destruct (Z.eq_dec e' (-1074)) as [E|NE].
      - rewrite E. replace (-1074)%Z with (1 + -1075)%Z by lia.
        rewrite bpow_plus, bpow_1. pose proof (bpow_gt_0 (-1075)).
        pose proof (bpow_gt_0 (-53)). nra.
      - assert (Hpos : (0 < mx)%Z).
        { destruct (Z.eq_dec mx 0) as [E0|]; [specialize (He'0 E0); lia|lia]. }
        specialize (Hmag Hpos).
        assert (E : e' = (d + ex - 53)%Z) by (unfold e' in *; rewrite fexp_eq in *; fold d in NE |- *; lia).
        rewrite E. replace (d + ex - 53)%Z with (1 + ((d + ex - 1) + -53))%Z by lia.
        rewrite !bpow_plus, bpow_1. pose proof (bpow_gt_0 (-1075)).
        pose proof (bpow_gt_0 (-53)). pose proof (bpow_gt_0 (d + ex - 1)). nra. }
    assert (0 <= Rabs (IZR m' - a * bpow (- e'))) by apply Rabs_pos. nra.
  - intros (k & e0 & Hk & Hkb & He0).
    (* a * 2^-e' is an integer *)
    assert (Hle : (e' <= e0)%Z).
    { destruct (Z.eq_dec e' (-1074)) as [E|NE]; [lia|].
      assert (Hpos : (0 < mx)%Z).
      { destruct (Z.eq_dec mx 0) as [E0|]; [specialize (He'0 E0); lia|lia]. }
      specialize (Hmag Hpos).
      assert (E : e' = (d + ex - 53)%Z) by (unfold e' in *; rewrite fexp_eq in *; fold d in NE |- *; lia).
      destruct (Z_le_gt_dec e' e0) as [|G]; [assumption|exfalso].
      assert (Hk2 : a < bpow (53 + e0)).
      { rewrite Hk, bpow_plus. apply Rmult_lt_compat_r; [apply bpow_gt_0|].
        rewrite <- IZR_pow2_bpow by lia. apply IZR_lt. lia. }
      assert (L : (53 + e0 <= d + ex - 1)%Z) by lia.
      apply bpow_le in L. lra. }
    assert (Hint : a * bpow (- e') = IZR (k * 2 ^ (e0 - e'))).
    { rewrite Hk, mult_IZR, IZR_pow2_bpow by lia.
      unfold Z.sub. rewrite bpow_plus. ring. }
    rewrite Hint in Habs.
    assert (A : -1 < IZR (m' - k * 2 ^ (e0 - e')) < 1).
    { rewrite minus_IZR.
      destruct (Rabs_def2 _ _ (Rle_lt_trans _ _ 1 Habs ltac:(lra))). split; lra. }
    apply one_IZR_lt1 in A.
    assert (Em : IZR m' = a * bpow (- e')) by (rewrite Hint; f_equal; lia).
    rewrite Em, Rmult_assoc, bpow_inv_l. ring.
Qed.

Lemma iter_xO_value m d : Zpos (Pos.iter xO m d) = (Zpos m * 2 ^ Zpos d)%Z.
Proof.
  induction d as [|d IH] using Pos.peano_ind.
  - simpl. lia.
  - rewrite Pos.iter_succ, Pos2Z.inj_xO, IH, Pos2Z.inj_succ, Z.pow_succ_r by lia. lia.
Qed.

Lemma iter_xO_digits m d :
  Zpos (digits2_pos (Pos.iter xO m d)) = (Zpos (digits2_pos m) + Zpos d)%Z.
Proof.
  induction d as [|d IH] using Pos.peano_ind.
  - simpl. lia.
  - rewrite Pos.iter_succ. simpl digits2_pos. rewrite Pos2Z.inj_succ, IH. lia.
Qed.

Lemma shl_align_correct mx ex ex' :
  IZR (Zpos (fst (shl_align mx ex ex'))) * bpow (snd (shl_align mx ex ex'))
  = IZR (Zpos mx) * bpow ex
  /\ (Zpos (digits2_pos (fst (shl_align mx ex ex'))) + snd (shl_align mx ex ex')
      = Zpos (digits2_pos mx) + ex)%Z
  /\ snd (shl_align mx ex ex') = Z.min ex ex'.
Proof.
  unfold shl_align. destruct (ex' - ex)%Z as [|d|d] eqn:E; cbn [fst snd].
  - split; [reflexivity|]. split; lia.
  - split; [reflexivity|]. split; lia.
  - rewrite iter_xO_value, iter_xO_digits, mult_IZR, IZR_pow2_bpow by lia.
    split; [|split; lia].
    rewrite Rmult_assoc, <- bpow_plus. do 2 f_equal. lia.
Qed.

Lemma shl_align_Z mx ex ex' :
  (ex' <= ex)%Z ->
  Zpos (fst (shl_align mx ex ex')) = (Zpos mx * 2 ^ (ex - ex'))%Z.
Proof.
  intros H. unfold shl_align. destruct (ex' - ex)%Z as [|d|d] eqn:E; cbn [fst]; try lia.
  - replace (ex - ex')%Z with 0%Z by lia. lia.
  - rewrite iter_xO_value. do 2 f_equal. lia.
Qed.

Theorem binary_round_rounded sx mx ex :
  IZR (Zpos mx) * bpow ex < bpow 1023 ->
  rounded sx (IZR (Zpos mx) * bpow ex) (binary_round prec emax sx mx ex).
Proof.
  intros Hov. unfold binary_round.
  pose proof (shl_align_correct mx ex (fexp prec emax (Zpos (digits2_pos mx) + ex)))
    as (Hv & Hd & He).
  destruct (shl_align mx ex (fexp prec emax (Zpos (digits2_pos mx) + ex))) as [mz ez].
  cbn [fst snd] in *. rewrite <- Hv.
  apply binary_round_aux_rounded.
  - lia.
  - reflexivity.
  - change (Zdigits2 (Zpos mz)) with (Zpos (digits2_pos mz)). rewrite Hd. lia.
  - now rewrite Hv.
Qed.

Lemma representable_opp v : representable v -> representable (- v).
Proof.
  intros (k & e & -> & Hk & He). exists (- k)%Z, e.
  rewrite opp_IZR. split; [ring|]. split; [lia|assumption].
Qed.

Lemma rounded_Rrounded sx a z :
  0 <= a -> rounded sx a z -> Rrounded (signed sx a) z.
Proof.
  intros Ha (V & F & S & A & HA & A0 & Herr & Hex).
  split; [exact V|]. split; [exact F|]. rewrite HA. unfold signed.
  destruct sx.
  - split; [|split; [|split]].
    + replace (- A - - a) with (- (A - a)) by ring.
      rewrite !Rabs_Ropp, (Rabs_pos_eq a) by lra. exact Herr.
    + intros Hr. apply representable_opp in Hr. rewrite Ropp_involutive in Hr.
      now rewrite (Hex Hr).
    + intros H0. assert (a = 0) by lra. subst a.
      assert (E : A = 0).
      { apply Hex. exists 0%Z, 0%Z. split; [simpl; ring|]. split; simpl; lia. }
      lra.
    + intros _. lra.
  - split; [|split; [|split]].
    + rewrite (Rabs_pos_eq a) by lra. exact Herr.
    + exact Hex.
    + intros _. exact A0.
    + intros H0. assert (a = 0) by lra. subst a.
      assert (E : A = 0).
      { apply Hex. exists 0%Z, 0%Z. split; [simpl; ring|]. split; simpl; lia. }
      lra.
Qed.

Theorem binary_normalize_Rrounded m e szero :
  Rabs (IZR m * bpow e) < bpow 1023 ->
  Rrounded (IZR m * bpow e) (binary_normalize prec emax m e szero).
Proof.
  intros Hov. pose proof (bpow_gt_0 e) as Hb. destruct m as [|p|p]; simpl binary_normalize.
  - rewrite Rmult_0_l. unfold Rrounded; simpl. rewrite Rminus_0_r, Rabs_R0.
    pose proof (bpow_gt_0 (-1075)). repeat split; try lra. 
  - assert (H0 : 0 <= IZR (Zpos p) * bpow e).
    { pose proof (IZR_lt 0 (Zpos p) ltac:(lia)). nra. }
    rewrite Rabs_pos_eq in Hov by exact H0.
    apply (rounded_Rrounded false); [exact H0|]. now apply binary_round_rounded.
  - assert (H0 : 0 <= IZR (Zpos p) * bpow e).
    { pose proof (IZR_lt 0 (Zpos p) ltac:(lia)). nra. }
    assert (E : IZR (Zneg p) * bpow e = signed true (IZR (Zpos p) * bpow e)).
    { unfold signed. change (Zneg p) with (- Zpos p)%Z. rewrite opp_IZR. ring. }
    rewrite E in *. unfold signed in Hov. rewrite Rabs_Ropp, Rabs_pos_eq in Hov by exact H0.
    apply rounded_Rrounded; [exact H0|]. now apply binary_round_rounded.
Qed.

Lemma valid_finite_inv s m e :
  valid_binary (S754_finite s m e) = true ->
  (Zpos m < 2 ^ 53)%Z /\ (-1074 <= e <= 971)%Z
  /\ (e = (-1074)%Z \/ (2 ^ 52 <= Zpos m)%Z)
  /\ (e = (-1074)%Z \/ Zdigits2 (Zpos m) = 53%Z).
Proof.
  unfold valid_binary, bounded, canonical_mantissa. intros H.
  apply andb_true_iff in H as [H1 H2]. apply Z.eqb_eq in H1. apply Z.leb_le in H2.
  rewrite fexp_eq in H1. change (emax - prec)%Z with 971%Z in H2.
  change (Zpos (digits2_pos m)) with (Zdigits2 (Zpos m)) in H1.
  pose proof (Zdigits2_bounds (Zpos m) ltac:(lia)) as [B1 B2].
  pose proof (Zdigits2_pos (Zpos m) ltac:(lia)) as P.
  set (d := Zdigits2 (Zpos m)) in *.
  assert (Hd : (d <= 53)%Z) by lia.
  split.
  { assert (2 ^ d <= 2 ^ 53)%Z by (apply Z.pow_le_mono_r; lia). lia. }
  split; [lia|].
  destruct (Z.eq_dec e (-1074)) as [E|NE]; [split; now left|].
  assert (d = 53%Z) by lia. split; right; [|assumption].
  subst d. replace 52%Z with (Zdigits2 (Zpos m) - 1)%Z by lia. exact B1.
Qed.

Lemma Rrounded_self z :
  valid_binary z = true -> SF_finite z = true -> Rrounded (SF2R z) z.
Proof.
  intros V F. split; [exact V|]. split; [exact F|].
  replace (SF2R z - SF2R z) with 0 by ring. rewrite Rabs_R0.
  pose proof (bpow_gt_0 (-1075)). pose proof (bpow_gt_0 (-53)).
  pose proof (Rabs_pos (SF2R z)). repeat split; try lra; nra.
Qed.

Lemma Rrounded_zero s v : v = 0 -> Rrounded v (S754_zero s).
Proof. intros ->. apply (Rrounded_self (S754_zero s)); reflexivity. Qed.

Lemma SF2R_finite s m e :
  SF2R (S754_finite s m e) = signed s (IZR (Zpos m) * bpow e).
Proof. reflexivity. Qed.

Lemma signed_mult s1 s2 a b : signed s1 a * signed s2 b = signed (xorb s1 s2) (a * b).
Proof. destruct s1, s2; unfold signed; simpl; ring. Qed.

Lemma Rabs_signed s a : 0 <= a -> Rabs (signed s a) = a.
Proof.
  intros H. destruct s; unfold signed; [rewrite Rabs_Ropp|]; now apply Rabs_pos_eq.
Qed.

Lemma pos_mag_nonneg m e : 0 <= IZR (Zpos m) * bpow e.
Proof.
  pose proof (bpow_gt_0 e). pose proof (IZR_lt 0 (Zpos m) ltac:(lia)). nra.
Qed.

Lemma Zdigits2_mul_ge a b :
  (0 < a)%Z -> (0 < b)%Z -> (Zdigits2 a + Zdigits2 b - 1 <= Zdigits2 (a * b))%Z.
Proof.
  intros Ha Hb.
  pose proof (Zdigits2_bounds a Ha) as [A _]. pose proof (Zdigits2_bounds b Hb) as [B _].
  pose proof (Zdigits2_pos a Ha). pose proof (Zdigits2_pos b Hb).
  assert (H2 : (2 ^ (Zdigits2 a - 1 + (Zdigits2 b - 1)) <= a * b)%Z).
  { rewrite Z.pow_add_r by lia.
    pose proof (Z.pow_pos_nonneg 2 (Zdigits2 a - 1) ltac:(lia) ltac:(lia)).
    pose proof (Z.pow_pos_nonneg 2 (Zdigits2 b - 1) ltac:(lia) ltac:(lia)). nia. }
  apply Zdigits2_ge in H2; lia.
Qed.

Theorem SFmul_Rrounded x y :
  valid_binary x = true -> valid_binary y = true ->
  SF_finite x = true -> SF_finite y = true ->
  Rabs (SF2R x * SF2R y) < bpow 1023 ->
  Rrounded (SF2R x * SF2R y) (SFmul prec emax x y).
Proof.
  intros Vx Vy Fx Fy Hov.
  destruct x as [sx|sx| |sx mx ex], y as [sy|sy| |sy my ey]; try discriminate;
    try (apply Rrounded_zero; simpl; ring).
  rewrite !SF2R_finite, signed_mult in *.
  assert (E : IZR (Zpos mx) * bpow ex * (IZR (Zpos my) * bpow ey)
              = IZR (Zpos (mx * my)) * bpow (ex + ey)).
  { rewrite Pos2Z.inj_mul, mult_IZR, bpow_plus. ring. }
  rewrite E in *. rewrite Rabs_signed in Hov by apply pos_mag_nonneg.
  apply rounded_Rrounded; [apply pos_mag_nonneg|].
  unfold SFmul. 
  replace (IZR (Zpos (mx * my)) * bpow (ex + ey))
    with (IZR (Zpos (mx * my)) * bpow (ex + ey)) by reflexivity.
  apply binary_round_aux_rounded; [lia|reflexivity| |exact Hov].
  apply valid_finite_inv in Vx as (_ & Hex & _ & Dx).
  apply valid_finite_inv in Vy as (_ & Hey & _ & Dy).
  pose proof (Zdigits2_mul_ge (Zpos mx) (Zpos my) ltac:(lia) ltac:(lia)) as M.
  pose proof (Zdigits2_pos (Zpos mx) ltac:(lia)). pose proof (Zdigits2_pos (Zpos my) ltac:(lia)).
  rewrite Pos2Z.inj_mul. rewrite fexp_eq. lia.
Qed.

Lemma cond_Zopp_IZR s m : IZR (cond_Zopp s m) = signed s (IZR m).
Proof. destruct s; simpl; [apply opp_IZR|reflexivity]. Qed.

Lemma signed_mult_l s a b : signed s a * b = signed s (a * b).
Proof. destruct s; unfold signed; ring. Qed.

Lemma aligned_value s m e ez :
  (ez <= e)%Z ->
  IZR (cond_Zopp s (Zpos (fst (shl_align m e ez)))) * bpow ez
  = SF2R (S754_finite s m e).
Proof.
  intros H. rewrite cond_Zopp_IZR, shl_align_Z, mult_IZR, IZR_pow2_bpow by lia.
  rewrite SF2R_finite, signed_mult_l. f_equal.
  rewrite Rmult_assoc, <- bpow_plus. do 2 f_equal. lia.
Qed.

Theorem SFadd_Rrounded x y :
  valid_binary x = true -> valid_binary y = true ->
  SF_finite x = true -> SF_finite y = true ->
  Rabs (SF2R x + SF2R y) < bpow 1023 ->
  Rrounded (SF2R x + SF2R y) (SFadd prec emax x y).
Proof.
  intros Vx Vy Fx Fy Hov.
  destruct x as [sx|sx| |sx mx ex], y as [sy|sy| |sy my ey]; try discriminate.
  - simpl SF2R. destruct sx, sy; apply Rrounded_zero; ring.
  - simpl SFadd. replace (SF2R (S754_zero sx) + SF2R (S754_finite sy my ey))
      with (SF2R (S754_finite sy my ey)) by (simpl; ring).
    now apply Rrounded_self.
  - simpl SFadd. replace (SF2R (S754_finite sx mx ex) + SF2R (S754_zero sy))
      with (SF2R (S754_finite sx mx ex)) by (simpl; ring).
    now apply Rrounded_self.
  - unfold SFadd. set (ez := Z.min ex ey).
    rewrite <- (aligned_value sx mx ex ez), <- (aligned_value sy my ey ez) in * by (unfold ez; lia).
    rewrite <- Rmult_plus_distr_r, <- plus_IZR in *.
    now apply binary_normalize_Rrounded.
Qed.

Theorem SFsub_Rrounded x y :
  valid_binary x = true -> valid_binary y = true ->
  SF_finite x = true -> SF_finite y = true ->
  Rabs (SF2R x - SF2R y) < bpow 1023 ->
  Rrounded (SF2R x - SF2R y) (SFsub prec emax x y).
Proof.
  intros Vx Vy Fx Fy Hov.
  destruct x as [sx|sx| |sx mx ex], y as [sy|sy| |sy my ey]; try discriminate.
  - simpl SF2R. destruct sx, sy; apply Rrounded_zero; ring.
  - simpl SFsub. replace (SF2R (S754_zero sx) - SF2R (S754_finite sy my ey))
      with (SF2R (S754_finite (negb sy) my ey)) by (destruct sy; simpl; ring).
    apply Rrounded_self; [exact Vy|reflexivity].
  - simpl SFsub. replace (SF2R (S754_finite sx mx ex) - SF2R (S754_zero sy))
      with (SF2R (S754_finite sx mx ex)) by (simpl; ring).
    now apply Rrounded_self.
  - unfold SFsub. set (ez := Z.min ex ey).
    rewrite <- (aligned_value sx mx ex ez), <- (aligned_value sy my ey ez) in * by (unfold ez; lia).
    rewrite <- Rmult_minus_distr_r, <- minus_IZR in *.
    now apply binary_normalize_Rrounded.
Qed.

Lemma new_location_inbetween nb q r :
  (0 < nb)%Z -> (0 <= r < nb)%Z ->
  inbetween q (new_location nb r) (IZR q + IZR r / IZR nb).
Proof.
  intros Hnb Hr.
  assert (Hnb' : 0 < IZR nb) by (apply (IZR_lt 0); lia).
  assert (Hr0 : 0 <= IZR r) by (apply (IZR_le 0); lia).
  assert (Hr1 : IZR r < IZR nb) by (apply IZR_lt; lia).
  assert (Hfrac : 0 <= IZR r / IZR nb < 1).
  { split; [apply Rmult_le_pos; [lra|apply Rlt_le, Rinv_0_lt_compat; lra]|].
    apply Rmult_lt_reg_r with (IZR nb); [lra|]. unfold Rdiv.
    rewrite Rmult_assoc, Rinv_l by lra. lra. }
  assert (Hhalf : forall c, (2 * r ?= nb)%Z = c ->
            match c with
            | Lt => IZR r / IZR nb < / 2
            | Eq => IZR r / IZR nb = / 2
            | Gt => / 2 < IZR r / IZR nb
            end).
  { intros c Hc. destruct c.
    - apply Z.compare_eq in Hc. rewrite <- Hc, mult_IZR. field. 
      intros E. apply (eq_IZR r 0) in E. lia.
    - change (2 * r < nb)%Z in Hc. apply IZR_lt in Hc. rewrite mult_IZR in Hc.
      apply Rmult_lt_reg_r with (IZR nb); [lra|]. unfold Rdiv.
      rewrite Rmult_assoc, Rinv_l by lra. lra.
    - change (2 * r > nb)%Z in Hc. apply Z.gt_lt, IZR_lt in Hc. rewrite mult_IZR in Hc.
      apply Rmult_lt_reg_r with (IZR nb); [lra|]. unfold Rdiv.
      rewrite Rmult_assoc, Rinv_l by lra. lra. }
  unfold new_location. destruct (Z.even nb) eqn:Ev.
  - unfold new_location_even. destruct (Z.eqb_spec r 0) as [->|N].
    + unfold inbetween, Rdiv. ring.
    + assert (0 < IZR r) by (apply (IZR_lt 0); lia).
      assert (0 < IZR r / IZR nb) by (apply Rmult_lt_0_compat; [lra|apply Rinv_0_lt_compat; lra]).
      specialize (Hhalf _ eq_refl). unfold inbetween.
      destruct (2 * r ?= nb)%Z; repeat split; lra.
  - unfold new_location_odd. destruct (Z.eqb_spec r 0) as [->|N].
    + unfold inbetween, Rdiv. ring.
    + assert (0 < IZR r) by (apply (IZR_lt 0); lia).
      assert (0 < IZR r / IZR nb) by (apply Rmult_lt_0_compat; [lra|apply Rinv_0_lt_compat; lra]).
      assert (Hodd : (2 * r <> nb)%Z).
      { intros E. rewrite <- E, Z.even_mul in Ev. discriminate. }
      unfold inbetween.
      destruct (2 * r + 1 ?= nb)%Z eqn:C.
      * apply Z.compare_eq in C. specialize (Hhalf Lt ltac:(change (2 * r < nb)%Z; lia)).
        repeat split; lra.
      * change (2 * r + 1 < nb)%Z in C. specialize (Hhalf Lt ltac:(change (2 * r < nb)%Z; lia)).
        repeat split; lra.
      * change (2 * r + 1 > nb)%Z in C. specialize (Hhalf Gt ltac:(apply Z.lt_gt; lia)).
        repeat split; lra.
Qed.

Lemma SFdiv_core_correct mx ex my ey :
  let '(q, e', l) := SFdiv_core_binary prec emax (Zpos mx) ex (Zpos my) ey in
  exists x : R,
    (0 <= q)%Z /\ inbetween q l x
    /\ (e' <= fexp prec emax (Zdigits2 q + e'))%Z
    /\ x * bpow e' = IZR (Zpos mx) * bpow ex / (IZR (Zpos my) * bpow ey).
Proof.
  unfold SFdiv_core_binary.
  set (d1 := Zdigits2 (Zpos mx)). set (d2 := Zdigits2 (Zpos my)).
  set (e' := Z.min (fexp prec emax (d1 + ex - (d2 + ey))) (ex - ey)).
  set (s := (ex - ey - e')%Z). assert (Hs : (0 <= s)%Z) by (unfold s, e'; lia).
  set (m' := match s with Zpos _ => Z.shiftl (Zpos mx) s | Z0 => Zpos mx | Zneg _ => 0%Z end).
  assert (Hm' : m' = (Zpos mx * 2 ^ s)%Z).
  { unfold m'. destruct s as [|p|p]; try lia.
    now rewrite Z.shiftl_mul_pow2 by lia. }
  clearbody m'.
  pose proof (Z_div_mod m' (Zpos my) ltac:(lia)) as DM.
  destruct (Z.div_eucl m' (Zpos my)) as [q r]. destruct DM as [Hq Hr].
  pose proof (Z.pow_pos_nonneg 2 s ltac:(lia) Hs) as Hp.
  assert (Hq0 : (0 <= q)%Z) by nia.
  assert (Hmy : 0 < IZR (Zpos my)) by (apply (IZR_lt 0); lia).
  exists (IZR q + IZR r / IZR (Zpos my)).
  split; [exact Hq0|]. split; [apply new_location_inbetween; lia|]. split.
  - (* enough digits in the quotient *)
    rewrite fexp_eq.
    destruct (Z_le_gt_dec e' (-1074)) as [L|G]; [lia|].
    assert (He' : (e' <= d1 + ex - (d2 + ey) - 53)%Z).
    { unfold e' in *. rewrite fexp_eq in *. lia. }
    pose proof (Zdigits2_bounds (Zpos mx) ltac:(lia)) as [B1 _]. fold d1 in B1.
    pose proof (Zdigits2_bounds (Zpos my) ltac:(lia)) as [_ B2]. fold d2 in B2.
    pose proof (Zdigits2_pos (Zpos mx) ltac:(lia)) as P1. fold d1 in P1.
    pose proof (Zdigits2_pos (Zpos my) ltac:(lia)) as P2. fold d2 in P2.
    assert (Hk : (0 <= d1 - 1 + s - d2)%Z) by (unfold s; lia).
    assert (Hqb : (2 ^ (d1 - 1 + s - d2) <= q)%Z).
    { (* 2^(d1-1+s-d2) * my <= 2^(d1-1+s) <= mx*2^s = my*q + r < my*(q+1) *)
      assert (A : (2 ^ (d1 - 1 + s - d2) * 2 ^ d2 = 2 ^ (d1 - 1) * 2 ^ s)%Z).
      { rewrite <- !Z.pow_add_r by lia. f_equal. lia. }
      pose proof (Z.pow_pos_nonneg 2 (d1 - 1 + s - d2) ltac:(lia) Hk).
      assert (B : (2 ^ (d1 - 1 + s - d2) * Zpos my < Zpos my * (q + 1))%Z) by nia.
      nia. }
    apply Zdigits2_ge in Hqb; [|lia]. unfold s in Hqb. lia.
  - assert (E : IZR q + IZR r / IZR (Zpos my) = IZR m' / IZR (Zpos my)).
    { rewrite Hq, plus_IZR, mult_IZR. field. lra. }
    rewrite E, Hm', mult_IZR, IZR_pow2_bpow by lia.
    pose proof (bpow_gt_0 ey). pose proof (bpow_gt_0 ex).
    assert (Hex : bpow ex = bpow s * bpow e' * bpow ey).
    { rewrite <- !bpow_plus. f_equal. unfold s. lia. }
    rewrite Hex. field. split; lra.
Qed.

Theorem SFdiv_Rrounded x y :
  valid_binary x = true -> valid_binary y = true ->
  SF_finite x = true -> SF_finite y = true ->
  SF2R y <> 0 ->
  Rabs (SF2R x / SF2R y) < bpow 1023 ->
  Rrounded (SF2R x / SF2R y) (SFdiv prec emax x y).
Proof.
  intros Vx Vy Fx Fy Hy Hov.
  destruct x as [sx|sx| |sx mx ex], y as [sy|sy| |sy my ey]; try discriminate;
    try (exfalso; apply Hy; reflexivity).
  - apply Rrounded_zero. simpl. unfold Rdiv. ring.
  - pose proof (SFdiv_core_correct mx ex my ey) as H.
    unfold SFdiv.
    destruct (SFdiv_core_binary prec emax (Zpos mx) ex (Zpos my) ey) as [[q e'] l].
    destruct H as (xr & Hq & Hin & Hpre & Hval).
    pose proof (pos_mag_nonneg mx ex). pose proof (pos_mag_nonneg my ey).
    assert (Hyy : IZR (Zpos my) * bpow ey <> 0).
    { pose proof (bpow_gt_0 ey). pose proof (IZR_lt 0 (Zpos my) ltac:(lia)). nra. }
    assert (E : SF2R (S754_finite sx mx ex) / SF2R (S754_finite sy my ey)
                = signed (xorb sx sy) (xr * bpow e')).
    { rewrite Hval, !SF2R_finite. destruct sx, sy; unfold signed; simpl; field;
        repeat split; solve [apply Rgt_not_eq, bpow_gt_0 | apply not_0_IZR; lia | exact Hyy]. }
    rewrite E in *.
    assert (H0' : 0 <= xr * bpow e').
    { rewrite Hval. apply Rmult_le_pos; [assumption|]. apply Rlt_le, Rinv_0_lt_compat. lra. }
    rewrite Rabs_signed in Hov by exact H0'.
    apply rounded_Rrounded; [exact H0'|].
    now apply binary_round_aux_rounded.
Qed.

(** Order *)
Lemma canonical_lt m1 e1 m2 e2 :
  valid_binary (S754_finite false m1 e1) = true ->
  valid_binary (S754_finite false m2 e2) = true ->
  (e1 < e2)%Z ->
  IZR (Zpos m1) * bpow e1 < IZR (Zpos m2) * bpow e2.
Proof.
  intros V1 V2 H.
  apply valid_finite_inv in V1 as (B1 & E1 & _ & _).
  apply valid_finite_inv in V2 as (B2 & E2 & C2 & _).
  assert (M2 : (2 ^ 52 <= Zpos m2)%Z) by (destruct C2; [lia|assumption]).
  pose proof (bpow_gt_0 e1). pose proof (bpow_gt_0 e2).
  apply IZR_lt in B1. apply IZR_le in M2.
  rewrite IZR_pow2_bpow in B1, M2 by lia.
  assert (L : bpow 53 * bpow e1 <= bpow 52 * bpow e2).
  { rewrite <- !bpow_plus. apply bpow_le. lia. }
  nra.
Qed.

Lemma Rcmp_opp c a b : Rcmp c a b -> Rcmp (CompOpp c) (- a) (- b).
Proof. destruct c; simpl; lra. Qed.

Lemma compare_magnitudes m1 e1 m2 e2 :
  valid_binary (S754_finite false m1 e1) = true ->
  valid_binary (S754_finite false m2 e2) = true ->
  Rcmp (match (e1 ?= e2)%Z with
        | Lt => Lt
        | Gt => Gt
        | Eq => Pos.compare_cont Eq m1 m2
        end)
       (IZR (Zpos m1) * bpow e1) (IZR (Zpos m2) * bpow e2).
Proof.
  intros V1 V2. destruct (Z.compare_spec e1 e2) as [E|L|G].
  - subst e2. change (Pos.compare_cont Eq m1 m2) with (Pos.compare m1 m2).
    pose proof (bpow_gt_0 e1).
    destruct (Pos.compare_spec m1 m2) as [E|L|G]; simpl.
    + now subst.
    + apply Rmult_lt_compat_r; [assumption|]. apply IZR_lt. lia.
    + apply Rmult_lt_compat_r; [assumption|]. apply IZR_lt. lia.
  - simpl. now apply canonical_lt.
  - simpl. apply canonical_lt; [assumption|assumption|lia].
Qed.

Theorem SFcompare_spec x y :
  valid_binary x = true -> valid_binary y = true ->
  SF_finite x = true -> SF_finite y = true ->
  exists c, SFcompare x y = Some c /\ Rcmp c (SF2R x) (SF2R y).
Proof.
  intros Vx Vy Fx Fy.
  destruct x as [sx|sx| |sx mx ex], y as [sy|sy| |sy my ey]; try discriminate.
  - exists Eq. split; reflexivity.
  - pose proof (pos_mag_nonneg my ey) as P.
    assert (IZR (Zpos my) * bpow ey <> 0).
    { pose proof (bpow_gt_0 ey). pose proof (IZR_lt 0 (Zpos my) ltac:(lia)). nra. }
    destruct sy; [exists Gt|exists Lt]; (split; [reflexivity|]); simpl; lra.
  - pose proof (pos_mag_nonneg mx ex) as P.
    assert (IZR (Zpos mx) * bpow ex <> 0).
    { pose proof (bpow_gt_0 ex). pose proof (IZR_lt 0 (Zpos mx) ltac:(lia)). nra. }
    destruct sx; [exists Lt|exists Gt]; (split; [reflexivity|]); simpl; lra.
  - pose proof (pos_mag_nonneg mx ex) as Px. pose proof (pos_mag_nonneg my ey) as Py.
    assert (IZR (Zpos mx) * bpow ex <> 0).
    { pose proof (bpow_gt_0 ex). pose proof (IZR_lt 0 (Zpos mx) ltac:(lia)). nra. }
    assert (IZR (Zpos my) * bpow ey <> 0).
    { pose proof (bpow_gt_0 ey). pose proof (IZR_lt 0 (Zpos my) ltac:(lia)). nra. }
    destruct sx, sy.
    + pose proof (compare_magnitudes mx ex my ey Vx Vy) as C.
      eexists. split; [reflexivity|].
      apply Rcmp_opp in C. simpl SF2R.
      destruct (ex ?= ey)%Z; simpl in *; try exact C.
    + exists Lt. split; [reflexivity|]. simpl. lra.
    + exists Gt. split; [reflexivity|]. simpl. lra.
    + pose proof (compare_magnitudes mx ex my ey Vx Vy) as C.
      eexists. split; [reflexivity|]. exact C.
Qed.

Lemma ltb_R x y : finite x -> finite y ->
  ((x <? y)%float = true <-> B2R x < B2R y).
Proof.
  intros Fx Fy. rewrite FloatAxioms.ltb_spec. unfold SFltb.
  destruct (SFcompare_spec _ _ (Prim2SF_valid x) (Prim2SF_valid y) Fx Fy) as (c & -> & H).
  unfold B2R. destruct c; simpl in H; split; intros; try discriminate; try reflexivity; lra.
Qed.

Lemma leb_R x y : finite x -> finite y ->
  ((x <=? y)%float = true <-> B2R x <= B2R y).
Proof.
  intros Fx Fy. rewrite FloatAxioms.leb_spec. unfold SFleb.
  destruct (SFcompare_spec _ _ (Prim2SF_valid x) (Prim2SF_valid y) Fx Fy) as (c & -> & H).
  unfold B2R. destruct c; simpl in H; split; intros; try discriminate; try reflexivity; lra.
Qed.

Lemma ltb_R_false x y : finite x -> finite y ->
  ((x <? y)%float = false <-> B2R y <= B2R x).
Proof.
  intros Fx Fy. pose proof (ltb_R x y Fx Fy) as H.
  destruct (x <? y)%float; split; intros; try reflexivity; try discriminate.
  - destruct H as [H _]. specialize (H eq_refl). lra.
  - destruct (Rlt_le_dec (B2R x) (B2R y)) as [L|L]; [|lra].
    apply H in L. discriminate.
Qed.

Lemma abs_R x : B2R (abs x) = Rabs (B2R x) /\ (finite x -> finite (abs x)).
Proof.
  unfold B2R, finite. rewrite abs_spec.
  destruct (Prim2SF x) as [s|s| |s m e]; simpl; try (rewrite Rabs_R0; auto).
  pose proof (pos_mag_nonneg m e).
  destruct s; [rewrite Rabs_Ropp|]; rewrite Rabs_pos_eq by assumption; auto.
Qed.

Lemma opp_R x : B2R (- x) = - B2R x /\ (finite x -> finite (- x)).
Proof.
  unfold B2R, finite. rewrite opp_spec.
  destruct (Prim2SF x) as [s|s| |s m e]; simpl; try (split; [lra|auto]).
  destruct s; simpl; split; auto; lra.
Qed.

Section Ops.

Variables x y : float.

Hypothesis Fx : finite x.

Hypothesis Fy : finite y.

Lemma mul_R : Rabs (B2R x * B2R y) < bpow 1023 ->
  Rrounded (B2R x * B2R y) (Prim2SF (x * y)).
Proof.
  intros H. rewrite mul_spec.
  apply SFmul_Rrounded; auto using Prim2SF_valid.
Qed.

Lemma add_R : Rabs (B2R x + B2R y) < bpow 1023 ->
  Rrounded (B2R x + B2R y) (Prim2SF (x + y)).
Proof.
  intros H. rewrite add_spec.
  apply SFadd_Rrounded; auto using Prim2SF_valid.
Qed.

Lemma sub_R : Rabs (B2R x - B2R y) < bpow 1023 ->
  Rrounded (B2R x - B2R y) (Prim2SF (x - y)).
Proof.
  intros H. rewrite sub_spec.
  apply SFsub_Rrounded; auto using Prim2SF_valid.
Qed.

Lemma div_R : B2R y <> 0 -> Rabs (B2R x / B2R y) < bpow 1023 ->
  Rrounded (B2R x / B2R y) (Prim2SF (x / y)).
Proof.
  intros H0 H. rewrite div_spec.
  apply SFdiv_Rrounded; auto using Prim2SF_valid.
Qed.

End Ops.

Lemma Rrounded_finite v z : Rrounded v z -> SF_finite z = true.
Proof. now intros (_ & F & _). Qed.

Lemma Rrounded_err v z k :
  Rrounded v z -> Rabs v <= bpow k -> (-1022 <= k)%Z ->
  Rabs (SF2R z - v) <= bpow (k - 52).
Proof.
  intros (_ & _ & E & _) Hv Hk.
  assert (A : bpow k * bpow (-53) + bpow (-1075) <= bpow (k - 52)).
  { replace (k - 52)%Z with (1 + (k + -53))%Z by lia.
    rewrite !bpow_plus, bpow_1.
    assert (bpow (-1075) <= bpow k * bpow (-53)).
    { rewrite <- bpow_plus. apply bpow_le. lia. }
    lra. }
  pose proof (bpow_gt_0 (-53)). pose proof (Rabs_pos v). nra.
Qed.

Lemma representable_int n : (Z.abs n < 2 ^ 53)%Z -> representable (IZR n).
Proof.
  intros H. exists n, 0%Z. rewrite bpow_0. split; [ring|]. split; [assumption|lia].
Qed.

Lemma bpow_1023_large : IZR (2 ^ 64) < bpow 1023.
Proof. rewrite IZR_pow2_bpow by lia. apply bpow_lt. lia. Qed.

Lemma of_int_R n :
  Rabs (IZR n) < bpow 1023 -> Rrounded (IZR n) (Prim2SF (F64.of_int n)).
Proof.
  intros H. unfold F64.of_int.
  assert (R : Rrounded (IZR n) (binary_normalize prec emax n 0 false)).
  { rewrite <- (Rmult_1_r (IZR n)), <- bpow_0.
    apply binary_normalize_Rrounded. now rewrite bpow_0, Rmult_1_r. }
  rewrite Prim2SF_SF2Prim; [exact R|apply R].
Qed.

Lemma of_int_exact n :
  (Z.abs n < 2 ^ 53)%Z -> B2R (F64.of_int n) = IZR n /\ finite (F64.of_int n).
Proof.
  intros H.
  assert (Hov : Rabs (IZR n) < bpow 1023).
  { rewrite <- abs_IZR. eapply Rlt_trans; [|apply bpow_1023_large].
    apply IZR_lt. lia. }
  destruct (of_int_R n Hov) as (_ & F & _ & E & _).
  split; [apply E, representable_int, H|exact F].
Qed.

(** Truncation *)
Lemma trunc_R x :
  finite x ->
  (0 <= B2R x -> IZR (F64.trunc x) <= B2R x < IZR (F64.trunc x) + 1)
  /\ (B2R x <= 0 -> IZR (F64.trunc x) - 1 < B2R x <= IZR (F64.trunc x)).
Proof.
  unfold finite, B2R, F64.trunc. intros F.
  destruct (Prim2SF x) as [s|s| |s m e]; try discriminate.
  - simpl. split; intros; split; lra.
  - assert (H : exists t : Z, (0 <= t)%Z /\
             (if (0 <=? e)%Z then Z.shiftl (Zpos m) e else Z.shiftr (Zpos m) (- e)) = t
             /\ IZR t <= IZR (Zpos m) * bpow e < IZR t + 1
             /\ 0 < IZR (Zpos m) * bpow e).
    { pose proof (bpow_gt_0 e) as Hb.
      assert (Hm : 0 < IZR (Zpos m)) by (apply (IZR_lt 0); lia).
      destruct (Z.leb_spec 0 e) as [L|L].
      - exists (Zpos m * 2 ^ e)%Z. rewrite Z.shiftl_mul_pow2 by lia.
        pose proof (Z.pow_pos_nonneg 2 e ltac:(lia) L).
        split; [nia|]. split; [reflexivity|].
        rewrite mult_IZR, IZR_pow2_bpow by lia. split; [lra|nra].
      - set (k := (- e)%Z). assert (Hk : (0 < k)%Z) by (unfold k; lia).
        exists (Zpos m / 2 ^ k)%Z. rewrite Z.shiftr_div_pow2 by lia.
        pose proof (Z.pow_pos_nonneg 2 k ltac:(lia) ltac:(lia)) as P.
        pose proof (Z_div_mod_eq_full (Zpos m) (2 ^ k)) as DM.
        pose proof (Z.mod_pos_bound (Zpos m) (2 ^ k) P) as MB.
        assert (Q0 : (0 <= Zpos m / 2 ^ k)%Z) by (apply Z.div_pos; lia).
        split; [exact Q0|]. split; [reflexivity|].
        assert (Eb : bpow e = / IZR (2 ^ k)).
        { replace e with (- k)%Z by (unfold k; lia). rewrite bpow_opp, <- IZR_pow2_bpow by lia.
          reflexivity. }
        rewrite Eb.
        assert (Pr : 0 < IZR (2 ^ k)) by (apply (IZR_lt 0); lia).
        assert (Em : IZR (Zpos m) = IZR (2 ^ k) * IZR (Zpos m / 2 ^ k) + IZR (Zpos m mod 2 ^ k)).
        { rewrite <- mult_IZR, <- plus_IZR. f_equal. exact DM. }
        assert (R0 : 0 <= IZR (Zpos m mod 2 ^ k)) by (apply (IZR_le 0); lia).
        assert (R1 : IZR (Zpos m mod 2 ^ k) < IZR (2 ^ k)) by (apply IZR_lt; lia).
        assert (Hi : 0 < / IZR (2 ^ k)) by now apply Rinv_0_lt_compat.
        split; [|nra].
        split.
        + apply Rmult_le_reg_r with (IZR (2 ^ k)); [exact Pr|].
          rewrite Rmult_assoc, Rinv_l by lra. nra.
        + apply Rmult_lt_reg_r with (IZR (2 ^ k)); [exact Pr|].
          rewrite Rmult_assoc, Rinv_l by lra. nra. }
    destruct H as (t & Ht0 & -> & Hb & Hpos).
    destruct s; simpl SF2R.
    + rewrite opp_IZR. split; intros; split; lra.
    + split; intros; split; lra.
Qed.

Lemma to_int_trunc x :
  finite x -> Rabs (B2R x) < IZR (2 ^ 63) -> F64.to_int x = F64.trunc x.
Proof.
  intros F H. pose proof (trunc_R x F) as [Hp Hn].
  unfold F64.to_int. unfold finite in F.
  destruct (Prim2SF x) as [s|s| |s m e] eqn:E; try discriminate.
  - unfold F64.trunc. now rewrite E.
  - assert (B : (F64.min_int64 <= F64.trunc x <= F64.max_int64)%Z).
    { unfold F64.min_int64, F64.max_int64.
      destruct (Rle_dec 0 (B2R x)) as [P|P].
      - specialize (Hp P). rewrite Rabs_pos_eq in H by assumption.
        assert (A : IZR (F64.trunc x) < IZR (2 ^ 63)) by lra.
        assert (A' : IZR (-1) < IZR (F64.trunc x)) by (simpl; lra).
        apply lt_IZR in A, A'. lia.
      - assert (P' : B2R x <= 0) by lra. specialize (Hn P').
        rewrite Rabs_left1 in H by assumption.
        assert (A : IZR (- 2 ^ 63) < IZR (F64.trunc x)) by (rewrite opp_IZR; lra).
        assert (A' : IZR (F64.trunc x) < IZR 1) by (simpl; lra).
        apply lt_IZR in A, A'. lia. }
    destruct B as [B1 B2]. apply Z.leb_le in B1, B2. now rewrite B1, B2.
Qed.

(** math.Round *)
Lemma Round_R x :
  finite x ->
  finite (math.Round x)
  /\ (exists n : Z, B2R (math.Round x) = IZR n)
  /\ Rabs (B2R (math.Round x) - B2R x) <= / 2
  /\ (0 <= B2R x -> 0 <= B2R (math.Round x))
  /\ (B2R x <= 0 -> B2R (math.Round x) <= 0).
Proof.
  intros F. unfold finite, B2R in *. unfold math.Round.
  pose proof (Prim2SF_valid x) as V.
  destruct (Prim2SF x) as [s|s| |s m e] eqn:E; try discriminate.
  - rewrite E. simpl. split; [reflexivity|]. split; [now exists 0%Z|].
    rewrite Rminus_0_r, Rabs_R0. lra.
  - destruct (Z.leb_spec 0 e) as [L|L].
    + rewrite E. split; [reflexivity|]. split.
      * exists (cond_Zopp s (Zpos m * 2 ^ e)). rewrite cond_Zopp_IZR, mult_IZR, IZR_pow2_bpow by lia.
        reflexivity.
      * replace (SF2R (S754_finite s m e) - SF2R (S754_finite s m e)) with 0 by ring.
        rewrite Rabs_R0. split; [lra|]. split; auto.
    + set (n := Z.shiftr (Zpos m + Z.shiftl 1 (- e - 1)) (- e)).
      set (k := (- e)%Z). assert (Hk : (0 < k)%Z) by (unfold k; lia).
      apply valid_finite_inv in V as (Bm & Be & _ & _).
      pose proof (Z.pow_pos_nonneg 2 k ltac:(lia) ltac:(lia)) as P.
      pose proof (Z.pow_pos_nonneg 2 (k - 1) ltac:(lia) ltac:(lia)) as P1.
      assert (P2 : (2 ^ k = 2 * 2 ^ (k - 1))%Z).
      { replace k with (Z.succ (k - 1)) at 1 by lia. rewrite Z.pow_succ_r by lia. lia. }
      assert (Hn : n = ((Zpos m + 2 ^ (k - 1)) / 2 ^ k)%Z).
      { unfold n. rewrite Z.shiftr_div_pow2, Z.shiftl_mul_pow2 by lia.
        fold k. replace (- e - 1)%Z with (k - 1)%Z by (unfold k; lia). f_equal. lia. }
      pose proof (Z_div_mod_eq_full (Zpos m + 2 ^ (k - 1)) (2 ^ k)) as DM.
      pose proof (Z.mod_pos_bound (Zpos m + 2 ^ (k - 1)) (2 ^ k) P) as MB.
      rewrite <- Hn in DM. set (r := ((Zpos m + 2 ^ (k - 1)) mod 2 ^ k)%Z) in *.
      assert (Hn0 : (0 <= n)%Z) by (rewrite Hn; apply Z.div_pos; lia).
      assert (Hnb : (n < 2 ^ 53)%Z).
      { assert (2 ^ 1 <= 2 ^ k)%Z by (apply Z.pow_le_mono_r; lia).
        assert (2 ^ k * n <= Zpos m + 2 ^ (k - 1))%Z by lia. nia. }
      assert (Rr : Rrounded (IZR (if s then (- n)%Z else n))
                     (binary_normalize prec emax (if s then (- n)%Z else n) 0 s)).
      { rewrite <- (Rmult_1_r (IZR _)), <- bpow_0.
        apply binary_normalize_Rrounded. rewrite bpow_0, Rmult_1_r, <- abs_IZR.
        eapply Rlt_trans; [|apply bpow_1023_large]. apply IZR_lt. destruct s; lia. }
      rewrite Prim2SF_SF2Prim by apply Rr.
      destruct Rr as (_ & Fr & _ & Er & _).
      rewrite Er by (apply representable_int; destruct s; lia).
      split; [exact Fr|]. split; [eexists; reflexivity|].
      (* |n - m/2^k| <= 1/2 *)
      assert (Eb : bpow e = / IZR (2 ^ k)).
      { replace e with (- k)%Z by (unfold k; lia). rewrite bpow_opp, <- IZR_pow2_bpow by lia.
        reflexivity. }
      assert (Pr : 0 < IZR (2 ^ k)) by (apply (IZR_lt 0); lia).
      assert (Hi : 0 < / IZR (2 ^ k)) by now apply Rinv_0_lt_compat.
      assert (Em : IZR (Zpos m) + IZR (2 ^ (k - 1)) = IZR (2 ^ k) * IZR n + IZR r).
      { rewrite <- mult_IZR, <- !plus_IZR. f_equal. exact DM. }
      assert (E2 : IZR (2 ^ k) = 2 * IZR (2 ^ (k - 1))) by (rewrite P2, mult_IZR; reflexivity).
      assert (R0 : 0 <= IZR r) by (apply (IZR_le 0); lia).
      assert (R1 : IZR r < IZR (2 ^ k)) by (apply IZR_lt; lia).
      assert (Hm : 0 < IZR (Zpos m)) by (apply (IZR_lt 0); lia).
      assert (N0 : 0 <= IZR n) by (apply (IZR_le 0); lia).
      set (v := IZR (Zpos m) * bpow e).
      assert (Hv : v * IZR (2 ^ k) = IZR (Zpos m)).
      { unfold v. rewrite Eb, Rmult_assoc, Rinv_l by lra. ring. }
      assert (Hd : - / 2 <= IZR n - v <= / 2).
      { split.
        - apply Rmult_le_reg_r with (IZR (2 ^ k)); [exact Pr|]. nra.
        - apply Rmult_le_reg_r with (IZR (2 ^ k)); [exact Pr|]. nra. }
      assert (Hv0 : 0 < v) by (unfold v; rewrite Eb; nra).
      destruct s; simpl SF2R; fold v.
      * rewrite opp_IZR. split; [|split; intros; lra].
        apply Rabs_le. lra.
      * split; [|split; intros; lra]. apply Rabs_le. lra.
Qed.

Lemma Rabs_le_inv a b : Rabs a <= b -> - b <= a <= b.
Proof. unfold Rabs. destruct (Rcase_abs a); lra. Qed.

Lemma bpow_pos_lit p : bpow (Zpos p) = IZR (Z.pow_pos 2 p).
Proof. rewrite bpow_IZR by lia. reflexivity. Qed.

Lemma bpow_neg_lit p : bpow (Zneg p) = / IZR (Z.pow_pos 2 p).
Proof. change (Zneg p) with (- Zpos p)%Z. now rewrite bpow_opp, bpow_pos_lit. Qed.

(** Replaces every [bpow] of a closed exponent by its numeric value. *)
Ltac bpow_norm_in e :=
  lazymatch e with
  | Zpos _ => fail
  | Zneg _ => fail
  | Z0 => fail
  | _ =>
      let v := eval vm_compute in e in
      lazymatch v with
      | Zpos _ => idtac
      | Zneg _ => idtac
      | Z0 => idtac
      end
  end.

Ltac bpow_lit :=
  repeat match goal with
    | |- context [bpow ?e] =>
        bpow_norm_in e; let v := eval vm_compute in e in change (bpow e) with (bpow v)
    | H : context [bpow ?e] |- _ =>
        bpow_norm_in e; let v := eval vm_compute in e in change (bpow e) with (bpow v) in H
    end;
  repeat match goal with
    | |- context [bpow (Zpos ?p)] =>
        let v := eval vm_compute in (Z.pow_pos 2 p) in
        rewrite (bpow_pos_lit p); change (Z.pow_pos 2 p) with v
    | |- context [bpow (Zneg ?p)] =>
        let v := eval vm_compute in (Z.pow_pos 2 p) in
        rewrite (bpow_neg_lit p); change (Z.pow_pos 2 p) with v
    | |- context [bpow 0] => rewrite bpow_0
    | H : context [bpow (Zpos ?p)] |- _ =>
        let v := eval vm_compute in (Z.pow_pos 2 p) in
        rewrite (bpow_pos_lit p) in H; change (Z.pow_pos 2 p) with v in H
    | H : context [bpow (Zneg ?p)] |- _ =>
        let v := eval vm_compute in (Z.pow_pos 2 p) in
        rewrite (bpow_neg_lit p) in H; change (Z.pow_pos 2 p) with v in H
    | H : context [bpow 0] |- _ => rewrite bpow_0 in H
    end.

Lemma bpow_le_1023 k : (k <= 1022)%Z -> forall v, Rabs v <= bpow k -> Rabs v < bpow 1023.
Proof. intros H v Hv. eapply Rle_lt_trans; [exact Hv|]. apply bpow_lt. lia. Qed.

Section Steps.

Variables x y : float.

Hypothesis Fx : finite x.

Hypothesis Fy : finite y.

Variable k : Z.

Hypothesis Hk : (-1022 <= k <= 1022)%Z.

Lemma step_of v z :
  Rrounded v (Prim2SF z) -> Rabs v <= bpow k ->
  finite z /\ Rabs (B2R z - v) <= bpow (k - 52)
  /\ (0 <= v -> 0 <= B2R z) /\ (v <= 0 -> B2R z <= 0).
Proof.
  intros R Hv. split; [apply (Rrounded_finite _ _ R)|].
  split; [apply Rrounded_err; [exact R|exact Hv|lia]|].
  destruct R as (_ & _ & _ & _ & S). exact S.
Qed.

Lemma mul_step : Rabs (B2R x * B2R y) <= bpow k ->
  finite (x * y) /\ Rabs (B2R (x * y) - B2R x * B2R y) <= bpow (k - 52)
  /\ (0 <= B2R x * B2R y -> 0 <= B2R (x * y))
  /\ (B2R x * B2R y <= 0 -> B2R (x * y) <= 0).
Proof.
  intros H. apply step_of; [|exact H].
  apply mul_R; auto. apply (bpow_le_1023 k); [lia|exact H].
Qed.

Lemma add_step : Rabs (B2R x + B2R y) <= bpow k ->
  finite (x + y) /\ Rabs (B2R (x + y) - (B2R x + B2R y)) <= bpow (k - 52)
  /\ (0 <= B2R x + B2R y -> 0 <= B2R (x + y))
  /\ (B2R x + B2R y <= 0 -> B2R (x + y) <= 0).
Proof.
  intros H. apply step_of; [|exact H].
  apply add_R; auto. apply (bpow_le_1023 k); [lia|exact H].
Qed.

Lemma sub_step : Rabs (B2R x - B2R y) <= bpow k ->
  finite (x - y) /\ Rabs (B2R (x - y) - (B2R x - B2R y)) <= bpow (k - 52)
  /\ (0 <= B2R x - B2R y -> 0 <= B2R (x - y))
  /\ (B2R x - B2R y <= 0 -> B2R (x - y) <= 0).
Proof.
  intros H. apply step_of; [|exact H].
  apply sub_R; auto. apply (bpow_le_1023 k); [lia|exact H].
Qed.

Lemma div_step : B2R y <> 0 -> Rabs (B2R x / B2R y) <= bpow k ->
  finite (x / y) /\ Rabs (B2R (x / y) - B2R x / B2R y) <= bpow (k - 52)
  /\ (0 <= B2R x / B2R y -> 0 <= B2R (x / y))
  /\ (B2R x / B2R y <= 0 -> B2R (x / y) <= 0).
Proof.
  intros H0 H. apply step_of; [|exact H].
  apply div_R; auto. apply (bpow_le_1023 k); [lia|exact H].
Qed.

End Steps.

Lemma lit_of_int (f : float) (n : Z) :
  f = F64.of_int n -> (Z.abs n < 2 ^ 53)%Z -> B2R f = IZR n /\ finite f.
Proof. intros ->. apply of_int_exact. Qed.

Lemma B2R_60 : B2R 60 = 60 /\ finite 60.
Proof. apply (lit_of_int 60%float 60); [reflexivity|vm_compute; reflexivity]. Qed.

Lemma B2R_3600 : B2R 3600 = 3600 /\ finite 3600.
Proof. apply (lit_of_int 3600%float 3600); [reflexivity|vm_compute; reflexivity]. Qed.

Lemma B2R_pow10_4 : B2R (math.Pow10 4) = 10000 /\ finite (math.Pow10 4).
Proof. apply of_int_exact. vm_compute; reflexivity. Qed.

Lemma B2R_pow10_7 : B2R (math.Pow10 7) = 10000000 /\ finite (math.Pow10 7).
Proof. apply of_int_exact. vm_compute; reflexivity. Qed.

Lemma B2R_0 : B2R 0 = 0 /\ finite 0.
Proof. split; reflexivity. Qed.

(** roundToPlaces *)
Lemma roundToPlaces_R (v : float) (places : Z) (P : R) (k k2 : Z) :
  finite v ->
  B2R (math.Pow10 places) = P -> finite (math.Pow10 places) -> 1 <= P ->
  (0 <= k <= 1000)%Z -> (-1000 <= k2 <= 1000)%Z ->
  Rabs (B2R v * P) <= bpow k ->
  3 * bpow k <= P * bpow k2 ->
  finite (roundToPlaces v places)
  /\ Rabs (B2R (roundToPlaces v places) - B2R v)
       <= (bpow (k - 52) + / 2) / P + bpow (k2 - 52)
  /\ (0 <= B2R v -> 0 <= B2R (roundToPlaces v places))
  /\ (B2R v <= 0 -> B2R (roundToPlaces v places) <= 0).
Proof.
  intros Fv HP FP P1 Hk Hk2 Hb Hq. unfold roundToPlaces.
  set (f := math.Pow10 places) in *.
  destruct (mul_step v f Fv FP k ltac:(lia)) as (F1 & E1 & S1 & S1'); [now rewrite HP|].
  rewrite HP in *.
  destruct (Round_R (v * f) F1) as (F2 & _ & E2 & S2 & S2').
  set (t := (v * f)%float) in *. set (T := math.Round t) in *.
  assert (Hbk : bpow (k - 52) <= bpow k) by (apply bpow_le; lia).
  assert (B1k : 1 <= bpow k) by (apply bpow_ge_1; lia).
  apply Rabs_le_inv in E1, E2, Hb.
  assert (Pi : 0 < / P) by (apply Rinv_0_lt_compat; lra).
  assert (HT : Rabs (B2R T / P) <= bpow k2).
  { apply Rabs_le.
    assert (A : - (3 * bpow k) <= B2R T <= 3 * bpow k) by lra.
    assert (A' : - (P * bpow k2) <= B2R T <= P * bpow k2) by lra.
    split.
    - apply Rmult_le_reg_r with P; [lra|]. unfold Rdiv.
      rewrite Rmult_assoc, Rinv_l by lra. lra.
    - apply Rmult_le_reg_r with P; [lra|]. unfold Rdiv.
      rewrite Rmult_assoc, Rinv_l by lra. lra. }
  destruct (div_step T f F2 FP k2 ltac:(lia)) as (F3 & E3 & S3 & S3');
    [rewrite HP; lra|now rewrite HP|].
  rewrite HP in *.
  split; [exact F3|]. apply Rabs_le_inv in E3.
  assert (EQ : B2R T / P - B2R v = (B2R T - B2R v * P) / P) by (field; lra).
  split.
  - apply Rabs_le.
    assert (A : - (bpow (k - 52) + / 2) <= B2R T - B2R v * P <= bpow (k - 52) + / 2) by lra.
    assert (A' : - ((bpow (k - 52) + / 2) / P) <= (B2R T - B2R v * P) / P <= (bpow (k - 52) + / 2) / P).
    { unfold Rdiv. split; nra. }
    lra.
  - split; intros H0.
    + apply S3. apply Rmult_le_pos; [|lra]. apply S2, S1. nra.
    + apply S3'. assert (B2R T <= 0) by (apply S2', S1'; nra). unfold Rdiv. nra.
Qed.

(** A float below 1 is at most 1 - 2^-53. *)
Lemma below_one x : finite x -> B2R x < 1 -> B2R x <= 1 - bpow (-53).
Proof.
  unfold finite, B2R. intros F H. pose proof (Prim2SF_valid x) as V.
  pose proof (bpow_gt_0 (-53)) as P53.
  assert (P53' : bpow (-53) <= / 2).
  { rewrite <- bpow_m1. apply bpow_le. lia. }
  destruct (Prim2SF x) as [s|s| |s m e]; try discriminate; cbn [SF2R SF_finite] in *; try lra.
  pose proof (pos_mag_nonneg m e) as P.
  destruct s; [lra|].
  apply valid_finite_inv in V as (Bm & Be & _ & _).
  destruct (Z_le_gt_dec (-53) e) as [L|G].
  - assert (He : (e <= 0)%Z).
    { destruct (Z_le_gt_dec e 0) as [|G]; [assumption|exfalso].
      assert (1 <= IZR (Zpos m)) by (apply (IZR_le 1); lia).
      pose proof (bpow_ge_1 e ltac:(lia)). nra. }
    assert (Hm : (Zpos m < 2 ^ (- e))%Z).
    { apply lt_IZR. rewrite IZR_pow2_bpow by lia.
      apply Rmult_lt_reg_r with (bpow e); [apply bpow_gt_0|].
      rewrite bpow_inv_l. exact H. }
    assert (Hm' : IZR (Zpos m) <= bpow (- e) - 1).
    { rewrite <- IZR_pow2_bpow by lia. rewrite <- minus_IZR. apply IZR_le. lia. }
    assert (A : IZR (Zpos m) * bpow e <= 1 - bpow e).
    { pose proof (bpow_gt_0 e) as Pe. pose proof (bpow_inv_l e) as Ie.
      apply (Rmult_le_compat_r (bpow e)) in Hm'; [|lra].
      rewrite Rmult_minus_distr_r, Ie in Hm'. lra. }
    assert (bpow (-53) <= bpow e) by (apply bpow_le; lia). lra.
  - assert (A : IZR (Zpos m) * bpow e < bpow 53 * bpow (-54)).
    { apply IZR_lt in Bm. rewrite IZR_pow2_bpow in Bm by lia.
      assert (bpow e <= bpow (-54)) by (apply bpow_le; lia).
      pose proof (bpow_gt_0 e). pose proof (bpow_gt_0 53).
      pose proof (IZR_lt 0 (Zpos m) ltac:(lia)). nra. }
    rewrite <- bpow_plus in A. change (53 + -54)%Z with (-1)%Z in A.
    rewrite bpow_m1 in A. lra.
Qed.

(** Subtracting its integer part from a non-negative float is exact. *)
Lemma fraction_representable x D :
  finite x -> (0 <= D)%Z -> IZR D <= B2R x < IZR D + 1 ->
  representable (B2R x - IZR D).
Proof.
  unfold finite, B2R. intros F HD H. pose proof (Prim2SF_valid x) as V.
  destruct (Prim2SF x) as [s|s| |s m e]; try discriminate; cbn [SF2R SF_finite] in *.
  - assert (D = 0%Z).
    { assert (A : -1 < IZR D < 1) by lra. now apply one_IZR_lt1 in A. }
    subst D. exists 0%Z, 0%Z. rewrite bpow_0. split; [ring|]. split; simpl; lia.
  - pose proof (pos_mag_nonneg m e) as P.
    assert (H0D : 0 <= IZR D) by (apply (IZR_le 0); lia).
    destruct s; [exfalso; 
      assert (0 < IZR (Zpos m) * bpow e) 
        by (pose proof (bpow_gt_0 e); pose proof (IZR_lt 0 (Zpos m) ltac:(lia)); nra); lra|].
    apply valid_finite_inv in V as (Bm & Be & _ & _).
    destruct (Z_le_gt_dec 0 e) as [L|G].
    + (* an integer: the fraction is zero *)
      assert (E : IZR (Zpos m) * bpow e = IZR (Zpos m * 2 ^ e)).
      { now rewrite mult_IZR, IZR_pow2_bpow. }
      rewrite E in *.
      assert (A : -1 < IZR (Zpos m * 2 ^ e - D) < 1) by (rewrite minus_IZR; lra).
      apply one_IZR_lt1 in A. exists 0%Z, 0%Z. rewrite bpow_0.
      split; [|split; simpl; lia].
      rewrite <- minus_IZR, A. ring.
    + exists (Zpos m - D * 2 ^ (- e))%Z, e.
      split; [|split; [|lia]].
      * rewrite minus_IZR, mult_IZR, IZR_pow2_bpow by lia.
        rewrite Rmult_minus_distr_r, Rmult_assoc, bpow_inv_l. ring.
      * assert (A : (D * 2 ^ (- e) <= Zpos m)%Z).
        { apply le_IZR. rewrite mult_IZR, IZR_pow2_bpow by lia.
          apply Rmult_le_reg_r with (bpow e); [apply bpow_gt_0|].
          rewrite Rmult_assoc, bpow_inv_l. lra. }
        pose proof (Z.pow_pos_nonneg 2 (- e) ltac:(lia) ltac:(lia)).
        assert (0 <= D * 2 ^ (- e))%Z by nia. lia.
Qed.

Lemma sub_floor_exact x D :
  finite x -> (0 <= D)%Z -> (Z.abs D < 2 ^ 53)%Z ->
  IZR D <= B2R x < IZR D + 1 ->
  finite (x - F64.of_int D) /\ B2R (x - F64.of_int D) = B2R x - IZR D.
Proof.
  intros F HD HD' H. destruct (of_int_exact D HD') as [ED FD].
  assert (R : Rrounded (B2R x - B2R (F64.of_int D)) (Prim2SF (x - F64.of_int D))).
  { apply sub_R; auto. rewrite ED. apply Rle_lt_trans with 1.
    - apply Rabs_le. split; lra.
    - rewrite <- bpow_0. apply bpow_lt. lia. }
  rewrite ED in R. split; [apply (Rrounded_finite _ _ R)|].
  destruct R as (_ & _ & _ & E & _). apply E. now apply fraction_representable.
Qed.

(** Sixty times a float below 1 is a float below 60. *)
Lemma times_60_below x :
  finite x -> 0 <= B2R x < 1 -> B2R (x * 60) < 60.
Proof.
  intros F [H0 H1]. destruct B2R_60 as [E60 F60].
  pose proof (below_one x F H1) as B.
  assert (R : Rrounded (B2R x * B2R 60) (Prim2SF (x * 60))).
  { apply mul_R; auto. rewrite E60. apply Rle_lt_trans with 60.
    - apply Rabs_le. split; lra.
    - apply Rlt_trans with (bpow 6); [bpow_lit; lra|apply bpow_lt; lia]. }
  rewrite E60 in R. destruct R as (_ & _ & E & _).
  rewrite (Rabs_pos_eq (B2R x * 60)) in E by lra.
  apply Rabs_le_inv in E. fold (B2R (x * 60)) in E.
  assert (T : bpow (-1075) < bpow (-53) * bpow (-53)).
  { rewrite <- bpow_plus. apply bpow_lt. lia. }
  pose proof (bpow_gt_0 (-53)) as U. set (u := bpow (-53)) in *. clearbody u.
  assert (A : B2R x * (1 + u) <= (1 - u) * (1 + u)) by nra.
  nra.
Qed.

Lemma to_int_floor x :
  finite x -> 0 <= B2R x < IZR (2 ^ 63) ->
  (0 <= F64.to_int x)%Z /\ IZR (F64.to_int x) <= B2R x < IZR (F64.to_int x) + 1.
Proof.
  intros F [H0 H1]. rewrite to_int_trunc; [|exact F|rewrite Rabs_pos_eq; lra].
  destruct (trunc_R x F) as [Hp _]. specialize (Hp H0). split; [|exact Hp].
  apply le_IZR. apply Rnot_lt_le. intros N.
  assert (A : IZR (F64.trunc x) <= IZR (-1)).
  { apply IZR_le. apply lt_IZR in N. lia. }
  simpl in A. lra.
Qed.

Lemma magnitude_round_trip (x : float) :
  finite x -> 0 <= B2R x <= 180 ->
  finite (dms_sum (dms_of x))
  /\ Rabs (B2R (dms_sum (dms_of x)) - B2R x) <= 84 / 100000000
  /\ (0 <= Degrees (dms_of x) <= 180)%Z
  /\ (0 <= Minutes (dms_of x) <= 59)%Z
  /\ finite (Seconds (dms_of x)) /\ 0 <= B2R (Seconds (dms_of x)).
Proof.
  intros Fx [Hx0 Hx1]. unfold dms_sum, dms_of. cbn [Degrees Minutes Seconds].
  (* degrees *)
  destruct (to_int_floor x Fx) as (HD0 & HD); [split; [lra|]|].
  { apply Rle_lt_trans with 180; [lra|]. apply IZR_lt. reflexivity. }
  set (D := F64.to_int x) in *. clearbody D.
  assert (HD1 : (D <= 180)%Z) by (apply le_IZR; lra).
  destruct (of_int_exact D) as [ED FD]; [lia|].
  (* the fraction of a degree: the subtraction is exact *)
  destruct (sub_floor_exact x D Fx HD0 ltac:(lia) HD) as [F1 E1].
  set (f1 := (x - F64.of_int D)%float) in *. clearbody f1.
  (* minutes *)
  destruct B2R_60 as [E60 F60].
  pose proof (times_60_below f1 F1 ltac:(lra)) as P60.
  destruct (mul_step f1 60 F1 F60 6 ltac:(lia)) as (F2 & E2 & S2 & _).
  { rewrite E60. apply Rabs_le; bpow_lit; split; lra. }
  rewrite E60 in *. specialize (S2 ltac:(lra)).
  set (p := (f1 * 60)%float) in *. clearbody p.
  apply Rabs_le_inv in E2. bpow_lit.
  destruct (to_int_floor p F2) as (HM0 & HM).
  { split; [lra|]. apply Rle_lt_trans with 100; [lra|]. apply IZR_lt. reflexivity. }
  set (Mn := F64.to_int p) in *. clearbody Mn.
  assert (HM1 : (Mn <= 59)%Z).
  { apply Z.lt_succ_r, lt_IZR. change (Z.succ 59) with 60%Z. lra. }
  destruct (of_int_exact Mn) as [EM FM]; [lia|].
  destruct (sub_step p (F64.of_int Mn) F2 FM 0 ltac:(lia)) as (F3 & E3 & S3 & _).
  { rewrite EM. apply Rabs_le; bpow_lit; split; lra. }
  rewrite EM in *. specialize (S3 ltac:(lra)).
  set (q := (p - F64.of_int Mn)%float) in *. clearbody q.
  apply Rabs_le_inv in E3. bpow_lit.
  (* seconds *)
  destruct B2R_pow10_4 as [E4 F4].
  destruct (roundToPlaces_R q 4 10000 14 3 F3 E4 F4) as (F5 & E5 & S5 & _);
    [lra|lia|lia| | |].
  { apply Rabs_le; bpow_lit; split; lra. }
  { bpow_lit. lra. }
  specialize (S5 S3).
  set (w := roundToPlaces q 4) in *. clearbody w.
  apply Rabs_le_inv in E5. bpow_lit.
  destruct (mul_step w 60 F5 F60 7 ltac:(lia)) as (F6 & E6 & S6 & _).
  { rewrite E60. apply Rabs_le; bpow_lit; split; lra. }
  rewrite E60 in *. specialize (S6 ltac:(lra)).
  set (sec := (w * 60)%float) in *. clearbody sec.
  apply Rabs_le_inv in E6. bpow_lit.
  (* the sum *)
  destruct (div_step (F64.of_int Mn) 60 FM F60 1 ltac:(lia)) as (F7 & E7 & _).
  { rewrite E60. lra. }
  { rewrite EM, E60. apply Rabs_le; bpow_lit; split; lra. }
  rewrite EM, E60 in *.
  set (a2 := (F64.of_int Mn / 60)%float) in *. clearbody a2.
  apply Rabs_le_inv in E7. bpow_lit.
  destruct (add_step (F64.of_int D) a2 FD F7 8 ltac:(lia)) as (F8 & E8 & _).
  { rewrite ED. apply Rabs_le; bpow_lit; split; lra. }
  rewrite ED in *.
  set (a3 := (F64.of_int D + a2)%float) in *. clearbody a3.
  apply Rabs_le_inv in E8. bpow_lit.
  destruct B2R_3600 as [E36 F36].
  destruct (div_step sec 3600 F6 F36 0 ltac:(lia)) as (F9 & E9 & _).
  { rewrite E36. lra. }
  { rewrite E36. apply Rabs_le; bpow_lit; split; lra. }
  rewrite E36 in *.
  set (a4 := (sec / 3600)%float) in *. clearbody a4.
  apply Rabs_le_inv in E9. bpow_lit.
  destruct (add_step a3 a4 F8 F9 8 ltac:(lia)) as (F10 & E10 & _).
  { apply Rabs_le; bpow_lit; split; lra. }
  apply Rabs_le_inv in E10. bpow_lit.
  split; [exact F10|]. split; [apply Rabs_le; split; lra|].
  split; [lia|]. split; [lia|]. split; [exact F6|exact S6].
Qed.

Lemma DecimalToDMS_eq decimal isLatitude :
  DecimalToDMS decimal isLatitude
  = (dms_of (if (decimal <? 0)%float then math.Abs decimal else decimal),
     direction_of decimal isLatitude).
Proof. reflexivity. Qed.

Lemma DmsToDecimal_negated dms direction :
  direction = "S"%string \/ direction = "W"%string ->
  fst (DmsToDecimal dms direction) = roundToPlaces (- dms_sum dms) 7.
Proof. intros [-> | ->]; reflexivity. Qed.

Lemma DmsToDecimal_kept dms direction :
  direction = "N"%string \/ direction = "E"%string ->
  fst (DmsToDecimal dms direction) = roundToPlaces (dms_sum dms) 7.
Proof. intros [-> | ->]; reflexivity. Qed.

Lemma final_rounding (v : float) :
  finite v -> Rabs (B2R v) <= 181 ->
  Rabs (B2R (roundToPlaces v 7) - B2R v) <= 51 / 1000000000.
Proof.
  intros F H. apply Rabs_le_inv in H. destruct B2R_pow10_7 as [E7 F7].
  destruct (roundToPlaces_R v 7 10000000 31 10 F E7 F7) as (_ & E & _);
    [lra|lia|lia| | |].
  { apply Rabs_le; bpow_lit; split; lra. }
  { bpow_lit. lra. }
  apply Rabs_le_inv in E. bpow_lit. apply Rabs_le. split; lra.
Qed.

(** C4.  For every finite decimal [d] with |d| <= 180 and either axis,
    [DmsToDecimal] applied to the result of [DecimalToDMS d isLatitude]
    is within 1e-6 of [d] (as real numbers). *)
Theorem DMS_round_trip (d : float) (isLatitude : bool) :
  finite d -> Rabs (B2R d) <= 180 ->
  Rabs (B2R (fst (DmsToDecimal (fst (DecimalToDMS d isLatitude))
                               (snd (DecimalToDMS d isLatitude))))
        - B2R d) <= 1 / 1000000.
Proof.
  intros F H. rewrite DecimalToDMS_eq. cbn [fst snd].
  apply Rabs_le_inv in H. destruct B2R_0 as [E0 F0].
  destruct (d <? 0)%float eqn:N.
  - apply (ltb_R d 0 F F0) in N. rewrite E0 in N.
    destruct (abs_R d) as [EA FA]. specialize (FA F).
    rewrite (Rabs_left (B2R d)) in EA by assumption.
    destruct (magnitude_round_trip (math.Abs d) FA) as (Fs & Es & _).
    { unfold math.Abs. rewrite EA. lra. }
    unfold math.Abs in *. rewrite EA in Es. apply Rabs_le_inv in Es.
    rewrite DmsToDecimal_negated
      by (unfold direction_of; destruct isLatitude;
          rewrite (proj2 (ltb_R d 0 F F0)) by (rewrite E0; lra); auto).
    destruct (opp_R (dms_sum (dms_of (abs d)))) as [EO FO]. specialize (FO Fs).
    pose proof (final_rounding _ FO) as Ef. rewrite EO in Ef.
    specialize (Ef ltac:(apply Rabs_le; split; lra)).
    apply Rabs_le_inv in Ef. apply Rabs_le. split; lra.
  - apply (ltb_R_false d 0 F F0) in N. rewrite E0 in N.
    destruct (magnitude_round_trip d F) as (Fs & Es & _); [lra|].
    apply Rabs_le_inv in Es.
    rewrite DmsToDecimal_kept
      by (unfold direction_of; destruct isLatitude;
          rewrite (proj2 (ltb_R_false d 0 F F0)) by (rewrite E0; lra); auto).
    pose proof (final_rounding _ Fs) as Ef.
    specialize (Ef ltac:(apply Rabs_le; split; lra)).
    apply Rabs_le_inv in Ef. apply Rabs_le. split; lra.
Qed.

(** The fixture decimal 38.8587333 is finite and inside the range. *)
Lemma fixture_decimal_in_range :
  finite 38.8587333%float /\ Rabs (B2R 38.8587333%float) <= 180.
Proof.
  split; [reflexivity|]. unfold B2R.
  change (Prim2SF 38.8587333%float)
    with (S754_finite false 5468880525311546 (-47)).
  cbn [SF2R]. bpow_lit. apply Rabs_le. split; lra.
Qed.

Lemma DMS_round_trip_witness :
  (finite 38.8587333%float /\ Rabs (B2R 38.8587333%float) <= 180)
  /\ Rabs (B2R (fst (DmsToDecimal (fst (DecimalToDMS 38.8587333%float true))
                                   (snd (DecimalToDMS 38.8587333%float true))))
           - B2R 38.8587333%float) <= 1 / 1000000.
Proof.
  split; [exact fixture_decimal_in_range|].
  exact (DMS_round_trip 38.8587333%float true
           (proj1 fixture_decimal_in_range) (proj2 fixture_decimal_in_range)).
Defined.


(** [nearest_ratio n k]: the quotient, correctly rounded. *)
Lemma nearest_ratio_rounded n k :
  (0 <= n)%Z -> (0 <= k)%Z -> IZR n / IZR (10 ^ k) < bpow 1023 ->
  Rrounded (IZR n / IZR (10 ^ k)) (Prim2SF (strconv.nearest_ratio n k)).
Proof.
  intros Hn Hk Hov. unfold strconv.nearest_ratio.
  destruct n as [|p|p]; [| |lia].
  - replace (IZR 0 / IZR (10 ^ k)) with 0 by (unfold Rdiv; ring).
    apply (Rrounded_zero false). reflexivity.
  - pose proof (Z.pow_pos_nonneg 10 k ltac:(lia) Hk) as P.
    destruct (10 ^ k)%Z as [|t|t] eqn:E; try lia.
    pose proof (SFdiv_core_correct p 0 t 0) as H.
    destruct (SFdiv_core_binary prec emax (Zpos p) 0 (Zpos t) 0) as [[q e'] l].
    destruct H as (xr & Hq & Hin & Hpre & Hval).
    rewrite bpow_0, !Rmult_1_r in Hval.
    assert (R : Rrounded (signed false (xr * bpow e'))
                  (binary_round_aux prec emax false q e' l)).
    { assert (H0 : 0 <= xr * bpow e').
      { rewrite Hval. apply Rmult_le_pos; [apply (IZR_le 0); lia|].
        apply Rlt_le, Rinv_0_lt_compat, (IZR_lt 0). lia. }
      apply rounded_Rrounded; [exact H0|].
      apply binary_round_aux_rounded; auto. now rewrite Hval. }
    unfold signed in R. rewrite Hval in R.
    rewrite Prim2SF_SF2Prim; [exact R|apply R].
Qed.


(** Above an integer [N] below 2^j the next float is at least 2^(j-53) away. *)
Lemma above_int x N j :
  finite x -> (2 ^ (j - 1) <= N < 2 ^ j)%Z -> (1 <= j <= 53)%Z ->
  IZR N < B2R x -> IZR N + bpow (j - 53) <= B2R x.
Proof.
  unfold finite, B2R. intros F HN Hj H. pose proof (Prim2SF_valid x) as V.
  assert (N0 : (0 < N)%Z) by (pose proof (Z.pow_pos_nonneg 2 (j - 1) ltac:(lia) ltac:(lia)); lia).
  assert (N0' : 0 < IZR N) by now apply (IZR_lt 0).
  destruct (Prim2SF x) as [s|s| |s m e]; try discriminate; cbn [SF2R] in *; try lra.
  pose proof (pos_mag_nonneg m e) as P.
  destruct s; [lra|].
  apply valid_finite_inv in V as (Bm & Be & _ & _).
  pose proof (bpow_gt_0 e) as Pe.
  assert (He : (j - 53 <= e)%Z).
  { destruct (Z_le_gt_dec (j - 53) e) as [|G]; [assumption|exfalso].
    assert (A : IZR (Zpos m) * bpow e < bpow 53 * bpow (j - 54)).
    { apply IZR_lt in Bm. rewrite IZR_pow2_bpow in Bm by lia.
      assert (bpow e <= bpow (j - 54)) by (apply bpow_le; lia).
      pose proof (bpow_gt_0 53).
      apply Rlt_le_trans with (bpow 53 * bpow e);
        [apply Rmult_lt_compat_r; assumption|apply Rmult_le_compat_l; lra]. }
    rewrite <- bpow_plus in A. replace (53 + (j - 54))%Z with (j - 1)%Z in A by lia.
    rewrite <- (IZR_pow2_bpow (j - 1)) in A by lia.
    assert (IZR (2 ^ (j - 1)) <= IZR N) by (apply IZR_le; lia). lra. }
  assert (Hb : bpow (j - 53) <= bpow e) by (apply bpow_le; lia).
  destruct (Z_le_gt_dec 0 e) as [L|G].
  - assert (E : IZR (Zpos m) * bpow e = IZR (Zpos m * 2 ^ e)).
    { now rewrite mult_IZR, IZR_pow2_bpow. }
    rewrite E in *. apply lt_IZR in H.
    assert (A : IZR (N + 1) <= IZR (Zpos m * 2 ^ e)) by (apply IZR_le; lia).
    rewrite plus_IZR in A.
    assert (bpow (j - 53) <= 1).
    { rewrite <- bpow_0. apply bpow_le. lia. }
    lra.
  - assert (A : (N * 2 ^ (- e) < Zpos m)%Z).
    { apply lt_IZR. rewrite mult_IZR, (IZR_pow2_bpow (- e)) by lia.
      apply Rmult_lt_reg_r with (bpow e); [exact Pe|].
      rewrite Rmult_assoc, bpow_inv_l. lra. }
    assert (A' : IZR (N * 2 ^ (- e) + 1) <= IZR (Zpos m)) by (apply IZR_le; lia).
    rewrite plus_IZR, mult_IZR, (IZR_pow2_bpow (- e)) in A' by lia.
    apply (Rmult_le_compat_r (bpow e)) in A'; [|lra].
    rewrite Rmult_plus_distr_r, Rmult_assoc, bpow_inv_l in A'. lra.
Qed.

(** A rounded value does not exceed an integer bound on the exact one. *)
Lemma rounded_le_int v z N j :
  Rrounded v (Prim2SF z) -> (2 ^ (j - 1) <= N < 2 ^ j)%Z -> (1 <= j <= 53)%Z ->
  0 <= v <= IZR N -> B2R z <= IZR N.
Proof.
  intros R HN Hj [H0 H1].
  pose proof (Rrounded_finite _ _ R) as F.
  destruct R as (_ & _ & E & _). rewrite (Rabs_pos_eq v) in E by assumption.
  apply Rabs_le_inv in E. fold (B2R z) in E.
  apply Rnot_lt_le. intros G.
  pose proof (above_int z N j F HN Hj G) as A.
  assert (T : bpow (-1075) < bpow (-53)) by (apply bpow_lt; lia).
  assert (U : IZR N * bpow (-53) <= bpow (j - 53) - bpow (-53)).
  { replace (j - 53)%Z with (j + -53)%Z by lia. rewrite bpow_plus.
    assert (A1 : IZR N <= bpow j - 1).
    { rewrite <- (IZR_pow2_bpow j) by lia. rewrite <- minus_IZR. apply IZR_le. lia. }
    pose proof (bpow_gt_0 (-53)). nra. }
  pose proof (bpow_gt_0 (-53)). nra.
Qed.



Lemma ParseFloat_seconds g :
  seconds_text g ->
  exists x, strconv.ParseFloat g = (x, None) /\ finite x /\ 0 <= B2R x <= 100.
Proof.
  intros (pre & D & [L1 L2] & Hg).
  destruct (split_point_digits pre D) as [E1 E2].
  assert (Main : forall frac, all_bytes regexp.digit frac = true ->
            let g' := (pre ++ frac)%string in
            exists n, strconv.digits_from 0 g' = Some n /\ (0 <= n)%Z
              /\ IZR n / IZR (10 ^ Z.of_nat (String.length frac)) <= 100
              /\ exists m, String.length g' = S m).
  { intros frac Df g'.
    destruct (digits_from_value g' 0 (all_bytes_app _ _ _ D Df) ltac:(lia)) as (n & E & B).
    exists n. split; [exact E|]. split; [lia|]. split.
    - unfold g' in B. rewrite string_length_app, Nat2Z.inj_add, Z.pow_add_r in B by lia.
      set (P := (10 ^ Z.of_nat (String.length frac))%Z) in *.
      assert (HP : (0 < P)%Z) by (apply Z.pow_pos_nonneg; lia).
      assert (H10 : (10 ^ Z.of_nat (String.length pre) <= 10 ^ 2)%Z)
        by (apply Z.pow_le_mono_r; lia).
      assert (Hn : (n <= 100 * P)%Z) by (change (10 ^ 2)%Z with 100%Z in H10; nia).
      apply IZR_le in Hn. rewrite mult_IZR in Hn.
      assert (0 < IZR P) by now apply (IZR_lt 0).
      apply Rmult_le_reg_r with (IZR P); [assumption|].
      unfold Rdiv. rewrite Rmult_assoc, Rinv_l by lra. lra.
    - unfold g'. rewrite string_length_app. destruct pre; [simpl in L1; lia|].
      simpl. eauto. }
  assert (Fin : forall n k, (0 <= n)%Z -> (0 <= k)%Z -> IZR n / IZR (10 ^ k) <= 100 ->
            finite (strconv.nearest_ratio n k) /\ 0 <= B2R (strconv.nearest_ratio n k) <= 100).
  { intros n k Hn Hk Hb.
    assert (P : 0 < IZR (10 ^ k)) by (apply (IZR_lt 0), Z.pow_pos_nonneg; lia).
    assert (H0 : 0 <= IZR n / IZR (10 ^ k)).
    { apply Rmult_le_pos; [apply (IZR_le 0); lia|]. apply Rlt_le, Rinv_0_lt_compat, P. }
    assert (R : Rrounded (IZR n / IZR (10 ^ k)) (Prim2SF (strconv.nearest_ratio n k))).
    { apply nearest_ratio_rounded; auto. apply Rle_lt_trans with 100; [exact Hb|].
      apply Rlt_trans with (bpow 7); [bpow_lit; lra|apply bpow_lt; lia]. }
    split; [apply (Rrounded_finite _ _ R)|]. split.
    - destruct R as (_ & _ & _ & _ & S & _). now apply S.
    - apply (rounded_le_int _ _ 100 7 R); [simpl; lia|lia|]. split; assumption. }
  unfold strconv.ParseFloat. destruct Hg as [-> | (frac & Df & Lf & ->)].
  - rewrite E1. destruct (Main "" eq_refl) as (n & E & Hn & Hb & m & Hm).
    cbn zeta in E, Hm. rewrite Hm, E.
    eexists. split; [reflexivity|]. apply Fin; auto. simpl. lia.
  - rewrite E2. destruct (Main frac Df) as (n & E & Hn & Hb & m & Hm).
    cbn zeta in E, Hm. rewrite Hm, E.
    eexists. split; [reflexivity|]. apply Fin; auto. lia.
Qed.

Lemma hemisphere_upper g : hemisphere g -> strings.ToUpper g = g.
Proof. intros [-> | [-> | [-> | ->]]]; reflexivity. Qed.

Lemma digits12_nonempty g : digits12 g -> (g =? "")%string = false.
Proof. intros [_ [L _]]. destruct g; [simpl in L; lia|reflexivity]. Qed.

Lemma seconds_text_nonempty g : seconds_text g -> (g =? "")%string = false.
Proof.
  intros (pre & _ & [L _] & [-> | (frac & _ & _ & ->)]);
    (destruct pre; [simpl in L; lia|reflexivity]).
Qed.

(** What an accepted input yields. *)
Theorem ParseDMS_accepts (input : string) (dms : DMS) (direction : string) :
  ParseDMS input = (dms, direction, None) ->
  (0 <= Degrees dms <= 99)%Z /\ (0 <= Minutes dms <= 99)%Z
  /\ finite (Seconds dms) /\ 0 <= B2R (Seconds dms) <= 100
  /\ hemisphere direction.
Proof.
  unfold ParseDMS.
  destruct (regexp.FindStringSubmatch dms_pattern 4 input) as [matches|] eqn:M;
    [|discriminate].
  apply dms_pattern_groups in M as (g1 & g2 & g3 & g4 & -> & D1 & D2 & S3 & H4).
  cbn [nth].
  destruct (Atoi_digits12 g1 D1) as (n1 & E1 & B1).
  destruct (Atoi_digits12 g2 D2) as (n2 & E2 & B2).
  destruct (ParseFloat_seconds g3 S3) as (x & E3 & F3 & B3).
  rewrite E1, E2, E3, (digits12_nonempty g2 D2), (seconds_text_nonempty g3 S3),
    (hemisphere_upper g4 H4).
  cbn [fst]. intros [= <- <-]. cbn [Degrees Minutes Seconds]. auto.
Qed.


(** The seconds that [DecimalToDMS] writes never exceed 60. *)
Lemma seconds_at_most_60 (x : float) :
  finite x -> 0 <= B2R x <= 180 -> B2R (Seconds (dms_of x)) <= 60.
Proof.
  intros Fx [Hx0 Hx1]. unfold dms_of. cbn [Seconds].
  destruct (to_int_floor x Fx) as (HD0 & HD); [split; [lra|]|].
  { apply Rle_lt_trans with 180; [lra|]. apply IZR_lt. reflexivity. }
  set (D := F64.to_int x) in *. clearbody D.
  assert (HD1 : (D <= 180)%Z) by (apply le_IZR; lra).
  destruct (sub_floor_exact x D Fx HD0 ltac:(lia) HD) as [F1 E1].
  set (f1 := (x - F64.of_int D)%float) in *. clearbody f1.
  destruct B2R_60 as [E60 F60].
  pose proof (times_60_below f1 F1 ltac:(lra)) as P60.
  destruct (mul_step f1 60 F1 F60 6 ltac:(lia)) as (F2 & _ & S2 & _).
  { rewrite E60. apply Rabs_le; bpow_lit; split; lra. }
  rewrite E60 in *. specialize (S2 ltac:(lra)).
  set (p := (f1 * 60)%float) in *. clearbody p.
  destruct (to_int_floor p F2) as (HM0 & HM).
  { split; [lra|]. apply Rle_lt_trans with 100; [lra|]. apply IZR_lt. reflexivity. }
  set (Mn := F64.to_int p) in *. clearbody Mn.
  assert (HM1 : (Mn <= 59)%Z).
  { apply Z.lt_succ_r, lt_IZR. change (Z.succ 59) with 60%Z. lra. }
  destruct (sub_floor_exact p Mn F2 HM0 ltac:(lia) HM) as [F3 E3].
  set (q := (p - F64.of_int Mn)%float) in *. clearbody q.
  destruct B2R_pow10_4 as [E4 F4]. unfold roundToPlaces.
  set (f := math.Pow10 4) in *. clearbody f.
  assert (R1 : Rrounded (B2R q * B2R f) (Prim2SF (q * f))).
  { apply mul_R; auto. rewrite E4. apply Rle_lt_trans with 10000.
    - apply Rabs_le. split; lra.
    - apply Rlt_trans with (bpow 14); [bpow_lit; lra|apply bpow_lt; lia]. }
  pose proof (Rrounded_finite _ _ R1) as F5.
  assert (B1 : 0 <= B2R (q * f) <= 10000).
  { split.
    - destruct R1 as (_ & _ & _ & _ & S & _). apply S. rewrite E4. lra.
    - apply (rounded_le_int _ _ 10000 14 R1); [simpl; lia|lia|]. rewrite E4. split; lra. }
  set (r := (q * f)%float) in *. clearbody r.
  destruct (Round_R r F5) as (F6 & (n & En) & E6 & S6 & _).
  specialize (S6 ltac:(lra)). apply Rabs_le_inv in E6.
  assert (Hn : (0 <= n <= 10000)%Z).
  { split.
    - apply le_IZR. lra.
    - apply Z.lt_succ_r, lt_IZR. change (Z.succ 10000) with 10001%Z. lra. }
  assert (Bn : IZR n <= 10000) by (apply IZR_le; lia).
  set (t := math.Round r) in *. clearbody t.
  assert (R2 : Rrounded (B2R t / B2R f) (Prim2SF (t / f))).
  { apply div_R; auto; rewrite E4; [lra|]. apply Rle_lt_trans with 1.
    - apply Rabs_le. split; lra.
    - rewrite <- bpow_0. apply bpow_lt. lia. }
  pose proof (Rrounded_finite _ _ R2) as F7.
  assert (B2 : 0 <= B2R (t / f) <= 1).
  { rewrite E4 in R2. split.
    - destruct R2 as (_ & _ & _ & _ & S & _). apply S. lra.
    - apply (rounded_le_int _ _ 1 1 R2); [simpl; lia|lia|]. split; lra. }
  set (w := (t / f)%float) in *. clearbody w.
  assert (R3 : Rrounded (B2R w * B2R 60) (Prim2SF (w * 60))).
  { apply mul_R; auto. rewrite E60. apply Rle_lt_trans with 60.
    - apply Rabs_le. split; lra.
    - apply Rlt_trans with (bpow 6); [bpow_lit; lra|apply bpow_lt; lia]. }
  rewrite E60 in R3.
  apply (rounded_le_int _ _ 60 6 R3); [simpl; lia|lia|]. split; lra.
Qed.

Lemma direction_of_cases decimal isLatitude :
  (isLatitude = true /\ (direction_of decimal isLatitude = "N"
                         \/ direction_of decimal isLatitude = "S"))
  \/ (isLatitude = false /\ (direction_of decimal isLatitude = "E"
                             \/ direction_of decimal isLatitude = "W")).
Proof.
  unfold direction_of. destruct isLatitude; [left|right]; (split; [reflexivity|]);
    destruct (decimal <? 0)%float; auto.
Qed.

(** What [DecimalToDMS] returns for a coordinate of at most 180 degrees. *)
Lemma DecimalToDMS_ranges (d : float) (isLatitude : bool) :
  finite d -> Rabs (B2R d) <= 180 ->
  let dms := fst (DecimalToDMS d isLatitude) in
  (0 <= Degrees dms <= 180)%Z /\ (0 <= Minutes dms <= 59)%Z
  /\ finite (Seconds dms) /\ 0 <= B2R (Seconds dms) <= 60.
Proof.
  intros F H. rewrite DecimalToDMS_eq. cbn [fst]. cbv zeta.
  set (x := if (d <? 0)%float then math.Abs d else d).
  assert (X : finite x /\ 0 <= B2R x <= 180).
  { unfold x. destruct (d <? 0)%float eqn:L.
    - destruct (abs_R d) as [Ea Fa]. unfold math.Abs. rewrite Ea.
      split; [exact (Fa F)|]. split; [apply Rabs_pos|exact H].
    - split; [exact F|]. apply Rabs_le_inv in H. split; [|lra].
      apply (ltb_R_false d 0 F) in L; [|apply B2R_0]. destruct B2R_0 as [-> _] in L. lra. }
  destruct X as [Fx Bx].
  destruct (magnitude_round_trip x Fx Bx) as (_ & _ & HD & HM & FS & S0).
  pose proof (seconds_at_most_60 x Fx Bx). repeat split; try tauto; lia.
Qed.

(** C7, as the code behaves: a DMS value that the program produces has
    non-negative degrees and a hemisphere letter carried beside it, but
    its fields are bounded only as far as the code bounds them.  An input
    that [ParseDMS] accepts yields degrees and minutes of at most two
    digits each (0 to 99), finite seconds between 0 and 100, and one of
    the letters N, S, E, W.  [DecimalToDMS] on a finite decimal of
    magnitude at most 180 yields degrees in 0..180, minutes in 0..59,
    finite seconds between 0 and 60 (60 included), and the letter N or S
    for a latitude, E or W for a longitude. *)
Theorem DMS_values_in_range :
  (forall (input : string) (dms : DMS) (direction : string),
      ParseDMS input = (dms, direction, None) ->
      (0 <= Degrees dms <= 99)%Z /\ (0 <= Minutes dms <= 99)%Z
      /\ finite (Seconds dms) /\ 0 <= B2R (Seconds dms) <= 100
      /\ hemisphere direction)
  /\ (forall (d : float) (isLatitude : bool),
      finite d -> Rabs (B2R d) <= 180 ->
      (0 <= Degrees (fst (DecimalToDMS d isLatitude)) <= 180)%Z
      /\ (0 <= Minutes (fst (DecimalToDMS d isLatitude)) <= 59)%Z
      /\ finite (Seconds (fst (DecimalToDMS d isLatitude)))
      /\ 0 <= B2R (Seconds (fst (DecimalToDMS d isLatitude))) <= 60
      /\ ((isLatitude = true /\ (snd (DecimalToDMS d isLatitude) = "N"
                                 \/ snd (DecimalToDMS d isLatitude) = "S"))
          \/ (isLatitude = false /\ (snd (DecimalToDMS d isLatitude) = "E"
                                     \/ snd (DecimalToDMS d isLatitude) = "W")))).
Proof.
  split.
  - exact ParseDMS_accepts.
  - intros d isLatitude F H.
    destruct (DecimalToDMS_ranges d isLatitude F H) as (A & B & C & D).
    repeat (split; [assumption|]).
    rewrite DecimalToDMS_eq. cbn [snd]. apply direction_of_cases.
Qed.

Lemma DMS_values_in_range_witness :
  (ParseDMS fixture_text = (fixture_dms, "N", None)
   /\ (0 <= Degrees fixture_dms <= 99)%Z /\ (0 <= Minutes fixture_dms <= 99)%Z
   /\ 0 <= B2R (Seconds fixture_dms) <= 100)
  /\ (finite 38.8587333%float /\ Rabs (B2R 38.8587333%float) <= 180
      /\ 0 <= B2R (Seconds (fst (DecimalToDMS 38.8587333%float true))) <= 60).
Proof.
  split.
  - split; [exact ParseDMS_fixture|].
    destruct (proj1 DMS_values_in_range fixture_text fixture_dms "N" ParseDMS_fixture)
      as (A & B & _ & C & _).
    auto.
  - split; [exact (proj1 fixture_decimal_in_range)|].
    split; [exact (proj2 fixture_decimal_in_range)|].
    destruct (proj2 DMS_values_in_range 38.8587333%float true
                (proj1 fixture_decimal_in_range) (proj2 fixture_decimal_in_range))
      as (_ & _ & _ & C & _).
    exact C.
Defined.

(** C7 as stated fails: the accepted text with 99 minutes and 99.9
    seconds comes back with both out of range, and [DecimalToDMS] rounds
    the latitude 0.9999999 up to 59 minutes and 60 seconds. *)
Lemma out_of_range_DMS_values :
  (exists seconds, ParseDMS wide_text = (mkDMS 99 99 seconds, "W", None)
                   /\ (60 <? seconds)%float = true)
  /\ DecimalToDMS 0.9999999%float true = (mkDMS 0 59 60%float, "N").
Proof.
  split.
  - eexists. split; vm_compute; reflexivity.
  - vm_compute. reflexivity.
Qed.

(** ** Arithmetic on halves of integers is exact *)

Lemma half_representable n : (Z.abs n < 2 ^ 53)%Z -> representable (IZR n / 2).
Proof.
  intros H. exists n, (-1)%Z. rewrite bpow_m1. split; [reflexivity|]. split; [exact H|lia].
Qed.

Lemma half_small n : (Z.abs n < 2 ^ 53)%Z -> Rabs (IZR n / 2) < bpow 1023.
Proof.
  intros H. apply Rle_lt_trans with (IZR (2 ^ 53)).
  - unfold Rdiv. rewrite Rabs_mult, (Rabs_pos_eq (/ 2)) by lra. rewrite <- abs_IZR.
    apply IZR_lt in H. pose proof (IZR_le 0 (Z.abs n) (Z.abs_nonneg n)). lra.
  - rewrite IZR_pow2_bpow by lia. apply bpow_lt. lia.
Qed.

Lemma add_half x y a b :
  finite x -> finite y -> B2R x = IZR a / 2 -> B2R y = IZR b / 2 ->
  (Z.abs (a + b) < 2 ^ 53)%Z ->
  finite (x + y) /\ B2R (x + y) = IZR (a + b) / 2.
Proof.
  intros Fx Fy Ex Ey H.
  assert (E : B2R x + B2R y = IZR (a + b) / 2) by (rewrite Ex, Ey, plus_IZR; field).
  assert (R : Rrounded (B2R x + B2R y) (Prim2SF (x + y))).
  { apply add_R; auto. rewrite E. now apply half_small. }
  rewrite E in R. split; [apply (Rrounded_finite _ _ R)|].
  destruct R as (_ & _ & _ & X & _). apply X. now apply half_representable.
Qed.

Lemma sub_half x y a b :
  finite x -> finite y -> B2R x = IZR a / 2 -> B2R y = IZR b / 2 ->
  (Z.abs (a - b) < 2 ^ 53)%Z ->
  finite (x - y) /\ B2R (x - y) = IZR (a - b) / 2.
Proof.
  intros Fx Fy Ex Ey H.
  assert (E : B2R x - B2R y = IZR (a - b) / 2) by (rewrite Ex, Ey, minus_IZR; field).
  assert (R : Rrounded (B2R x - B2R y) (Prim2SF (x - y))).
  { apply sub_R; auto. rewrite E. now apply half_small. }
  rewrite E in R. split; [apply (Rrounded_finite _ _ R)|].
  destruct R as (_ & _ & _ & X & _). apply X. now apply half_representable.
Qed.

Lemma twice_half n : IZR n = IZR (2 * n) / 2.
Proof. rewrite mult_IZR. field. Qed.

Lemma add_int x y a b :
  finite x -> finite y -> B2R x = IZR a -> B2R y = IZR b ->
  (Z.abs (a + b) < 2 ^ 52)%Z ->
  finite (x + y) /\ B2R (x + y) = IZR (a + b).
Proof.
  intros Fx Fy Ex Ey H. rewrite twice_half in Ex, Ey.
  destruct (add_half x y _ _ Fx Fy Ex Ey) as [F E]; [lia|].
  split; [exact F|]. rewrite E, (twice_half (a + b)). f_equal. f_equal. lia.
Qed.

Lemma mul_int x y a b :
  finite x -> finite y -> B2R x = IZR a -> B2R y = IZR b ->
  (Z.abs (a * b) < 2 ^ 53)%Z ->
  finite (x * y) /\ B2R (x * y) = IZR (a * b).
Proof.
  intros Fx Fy Ex Ey H.
  assert (E : B2R x * B2R y = IZR (a * b)) by now rewrite Ex, Ey, mult_IZR.
  assert (R : Rrounded (B2R x * B2R y) (Prim2SF (x * y))).
  { apply mul_R; auto. rewrite E, <- abs_IZR.
    eapply Rlt_trans; [|apply bpow_1023_large]. apply IZR_lt. lia. }
  rewrite E in R. split; [apply (Rrounded_finite _ _ R)|].
  destruct R as (_ & _ & _ & X & _). apply X. now apply representable_int.
Qed.

(** The integer of an integer-valued float. *)
Lemma to_int_exact x N :
  finite x -> B2R x = IZR N -> (Z.abs N < 2 ^ 63)%Z -> F64.to_int x = N /\ F64.trunc x = N.
Proof.
  intros F E H.
  assert (T : F64.trunc x = N).
  { destruct (trunc_R x F) as [Hp Hn]. rewrite E in Hp, Hn.
    destruct (Z_le_gt_dec 0 N) as [L|G].
    - destruct Hp as [A B]; [now apply (IZR_le 0)|].
      apply le_IZR in A. rewrite <- (plus_IZR _ 1) in B. apply lt_IZR in B. lia.
    - destruct Hn as [A B]; [apply (IZR_le N 0); lia|].
      apply le_IZR in B. rewrite <- (minus_IZR _ 1) in A. apply lt_IZR in A. lia. }
  split; [|exact T]. rewrite to_int_trunc; [exact T|exact F|].
  rewrite E, <- abs_IZR. now apply IZR_lt.
Qed.

Lemma B2R_1 : B2R 1 = 1 /\ finite 1.
Proof. apply (lit_of_int 1%float 1); [reflexivity|vm_compute; reflexivity]. Qed.

(** [math.Modf] of a positive integer-valued float: the float's value and zero. *)
Lemma Modf_int x N :
  finite x -> B2R x = IZR N -> (1 <= N < 2 ^ 52)%Z ->
  finite (fst (math.Modf x)) /\ B2R (fst (math.Modf x)) = IZR N
  /\ finite (snd (math.Modf x)) /\ B2R (snd (math.Modf x)) = 0.
Proof.
  intros F E H. unfold math.Modf.
  assert (P : 1 <= B2R x) by (rewrite E; apply IZR_le; lia).
  destruct B2R_0 as [E0 F0]. destruct B2R_1 as [E1 F1].
  replace (x <? 0)%float with false
    by (symmetry; apply (ltb_R_false x 0 F F0); lra).
  unfold math.Modf_pos.
  replace (x <? 1)%float with false
    by (symmetry; apply (ltb_R_false x 1 F F1); lra).
  set (int := match Prim2SF x with
              | S754_finite _ _ e => if (0 <=? e)%Z then x else F64.of_int (F64.trunc x)
              | _ => x
              end).
  assert (I : finite int /\ B2R int = IZR N).
  { subst int. destruct (Prim2SF x) as [s|s| |s m e]; auto.
    destruct (0 <=? e)%Z; auto.
    destruct (to_int_exact x N F E) as [_ ->]; [lia|].
    destruct (of_int_exact N) as [A B]; [lia|]. auto. }
  clearbody int. destruct I as [Fi Ei]. cbn [fst snd].
  split; [exact Fi|]. split; [exact Ei|].
  rewrite twice_half in E, Ei.
  destruct (sub_half x int _ _ F Fi E Ei) as [Fs Es]; [lia|].
  split; [exact Fs|]. rewrite Es, Z.sub_diag. lra.
Qed.

(** ** Julian days of calendar dates, exactly *)

Lemma B2R_literal (f : float) (m : positive) (e : Z) :
  Prim2SF f = S754_finite false m e -> B2R f = IZR (Zpos m) * bpow e /\ finite f.
Proof. unfold B2R, finite. intros ->. split; reflexivity. Qed.

Lemma B2R_half : B2R 0.5 = IZR 1 / 2 /\ finite 0.5.
Proof.
  destruct (B2R_literal 0.5 4503599627370496 (-53) eq_refl) as [E F].
  split; [|exact F]. rewrite E. bpow_lit. lra.
Qed.

Lemma B2R_1524_5 : B2R 1524.5 = IZR 3049 / 2 /\ finite 1524.5.
Proof.
  destruct (B2R_literal 1524.5 6704821906178048 (-42) eq_refl) as [E F].
  split; [|exact F]. rewrite E. bpow_lit. lra.
Qed.

Lemma B2R_24 : B2R 24 = IZR 24 /\ finite 24.
Proof. apply (lit_of_int 24%float 24); [reflexivity|vm_compute; reflexivity]. Qed.

(** [CalendarGregorianToJD] of a whole day: the day number of the date
    plus 2440587.5, without any rounding. *)
Lemma CalendarGregorianToJD_exact y m d :
  (-1000000 <= y <= 1000000)%Z -> (1 <= m <= 12)%Z -> (1 <= d <= 31)%Z ->
  finite (julian.CalendarGregorianToJD y m (F64.of_int d))
  /\ B2R (julian.CalendarGregorianToJD y m (F64.of_int d))
     = IZR (2 * time.days_from_civil y m d + 4881175) / 2.
Proof.
  intros Hy Hm Hd.
  replace (2 * time.days_from_civil y m d + 4881175)%Z
    with (2 * meeus_days y m d - 3049)%Z by (rewrite meeus_days_civil; lia).
  unfold julian.CalendarGregorianToJD, meeus_days, julian.FloorDiv.
  set (ym := if ((m =? 1)%Z || (m =? 2)%Z)%bool then ((y - 1)%Z, (m + 12)%Z) else (y, m)).
  assert (B : (-1000001 <= fst ym <= 1000000)%Z /\ (3 <= snd ym <= 14)%Z).
  { subst ym. destruct (Z.eqb_spec m 1), (Z.eqb_spec m 2); cbn [orb fst snd]; lia. }
  destruct ym as [y' m']. cbn [fst snd] in B. destruct B as [By Bm]. cbv zeta.
  rewrite wrap64_small by lia.
  set (J1 := (36525 * (y' + 4716) / 100)%Z).
  set (J2 := (306 * (m' + 1) / 10 + (2 - y' / 100 + y' / 100 / 4))%Z).
  assert (B1 : (Z.abs J1 < 2 ^ 40)%Z) by (subst J1; div_lia).
  assert (B2 : (Z.abs J2 < 2 ^ 40)%Z) by (subst J2; div_lia).
  clearbody J1 J2.
  destruct (of_int_exact J1) as [E1 F1]; [lia|].
  destruct (of_int_exact J2) as [E2 F2]; [lia|].
  destruct (of_int_exact d) as [E3 F3]; [lia|].
  destruct (add_int _ _ _ _ F1 F2 E1 E2) as [F4 E4]; [lia|].
  destruct (add_int _ _ _ _ F4 F3 E4 E3) as [F5 E5]; [lia|].
  rewrite twice_half in E5. destruct B2R_1524_5 as [E6 F6].
  destruct (sub_half _ _ _ _ F5 F6 E5 E6) as [F7 E7]; [lia|].
  split; [exact F7|]. rewrite E7. apply (f_equal (fun k => IZR k / 2)). lia.
Qed.

(** [ToJulianDay]: the days since 1970-01-01 plus 2440587.5. *)
Lemma ToJulianDay_exact t :
  in_common_era t ->
  finite (ToJulianDay t)
  /\ B2R (ToJulianDay t) = IZR (2 * (t / time.ns_per_day) + 4881175) / 2.
Proof.
  intros [H1 H2]. unfold ToJulianDay, time.UTC, time.Year, time.Month, time.Day, time.date_of.
  set (D := (t / time.ns_per_day)%Z).
  assert (HD : (-719162 <= D <= 2932896)%Z).
  { subst D. change (time.Date 1 1 1) with (-719162 * time.ns_per_day)%Z in H1.
    change (time.Date 10000 1 1) with (2932897 * time.ns_per_day)%Z in H2.
    change time.ns_per_day with 86400000000000%Z in *. div_lia. }
  pose proof (civil_round_trip D) as R. pose proof (civil_year_range D HD) as Y.
  destruct (time.civil_from_days D) as [[y m] d]. cbn [fst snd] in *.
  destruct R as (E & Hm & Hd). rewrite <- E.
  apply CalendarGregorianToJD_exact; lia.
Qed.

(** ** From a Julian day at midnight back to the instant *)

(** The calendar date of the Julian day N - 1/2, for a day number N of
    the years 1 to 9999: no int64 operation wraps, and the day of the
    month comes out as a whole number. *)
Lemma jdToCalendarGregorian_midnight jd N :
  finite jd -> B2R jd = IZR (2 * N - 1) / 2 -> (1721426 <= N <= 5373484)%Z ->
  fst (julian.jdToCalendarGregorian jd) = fst (meeus_date N)
  /\ finite (snd (julian.jdToCalendarGregorian jd))
  /\ B2R (snd (julian.jdToCalendarGregorian jd)) = IZR (snd (meeus_date N)).
Proof.
  intros F E HN. destruct B2R_half as [Eh Fh].
  destruct (add_half jd 0.5 _ _ F Fh E Eh) as [Fx Ex]; [lia|].
  replace (2 * N - 1 + 1)%Z with (2 * N)%Z in Ex by lia. rewrite <- twice_half in Ex.
  destruct (Modf_int _ N Fx Ex) as (Fi & Ei & Ff & Ef); [lia|].
  unfold julian.jdToCalendarGregorian.
  destruct (math.Modf (jd + 0.5)) as [zf f]. cbn [fst snd] in Fi, Ei, Ff, Ef.
  destruct (to_int_exact zf N Fi Ei) as [-> _]; [lia|].
  unfold julian.FloorDiv, meeus_date. cbv zeta.
  repeat match goal with
  | |- context [julian.wrap64 ?x] => rewrite (wrap64_small x) by div_lia
  end.
  set (alpha := ((N * 100 - 186721625) / 3652425)%Z).
  set (b := (N + 1 + alpha - alpha / 4 + 1524)%Z).
  set (c := ((b * 100 - 12210) / 36525)%Z).
  set (d := (36525 * c / 100)%Z).
  set (e := ((b - d) * 10000 / 306001)%Z).
  set (day := (b - d - 306001 * e / 10000)%Z).
  assert (Bd : (Z.abs day < 2 ^ 40)%Z) by (subst day e d c b alpha; div_lia).
  clearbody day. cbn [fst snd]. split; [reflexivity|].
  destruct (of_int_exact day) as [E1 F1]; [lia|].
  change 0 with (IZR 0) in Ef.
  destruct (add_int _ _ _ _ F1 Ff E1 Ef) as [F2 E2]; [lia|].
  split; [exact F2|]. rewrite E2. f_equal. lia.
Qed.

Lemma Date_in_year y m d :
  (1 <= m <= 12)%Z -> time.Date y m d = (time.days_from_civil y m d * time.ns_per_day)%Z.
Proof.
  intros H. unfold time.Date. cbv zeta.
  replace ((m - 1) / 12)%Z with 0%Z by div_lia.
  replace ((m - 1) mod 12 + 1)%Z with m by div_lia.
  now rewrite Z.add_0_r.
Qed.

(** [JDToTime] at the midnight that begins the day D after 1970-01-01. *)
Lemma JDToTime_midnight jd D :
  finite jd -> B2R jd = IZR (2 * D + 4881175) / 2 -> (-719162 <= D <= 2932896)%Z ->
  julian.JDToTime jd = (D * time.ns_per_day)%Z.
Proof.
  intros F E HD.
  destruct (jdToCalendarGregorian_midnight jd (D + 2440588) F) as (E1 & F2 & E2);
    [rewrite E; apply (f_equal (fun k => IZR k / 2)); lia|lia|].
  rewrite meeus_date_civil in E1, E2.
  pose proof (civil_round_trip D) as R.
  unfold julian.JDToTime.
  destruct (julian.jdToCalendarGregorian jd) as [[y m] d].
  destruct (time.civil_from_days D) as [[y' m'] d']. cbn [fst snd] in *.
  injection E1 as -> ->. destruct R as (R & Hm & Hd).
  destruct B2R_24 as [E24 F24].
  destruct (mul_int _ _ _ _ F2 F24 E2 E24) as [F3 E3]; [lia|].
  destruct (of_int_exact time.Hour) as [E4 F4]; [vm_compute; reflexivity|].
  destruct (mul_int _ _ _ _ F3 F4 E3 E4) as [F5 E5].
  { change time.Hour with 3600000000000%Z. lia. }
  destruct (to_int_exact _ _ F5 E5) as [-> _].
  { change time.Hour with 3600000000000%Z. lia. }
  rewrite Date_in_year by lia. unfold time.Add.
  rewrite <- R, (days_from_civil_day y' m' d').
  change time.ns_per_day with 86400000000000%Z.
  change time.Hour with 3600000000000%Z. lia.
Qed.

(** The round trip at the code's resolution: the midnight of the day. *)
Lemma FromJulianDay_ToJulianDay t :
  in_common_era t ->
  FromJulianDay (ToJulianDay t) = (t / time.ns_per_day * time.ns_per_day)%Z.
Proof.
  intros H. destruct (ToJulianDay_exact t H) as [F E].
  unfold FromJulianDay. apply JDToTime_midnight; [exact F|exact E|].
  destruct H as [H1 H2].
  change (time.Date 1 1 1) with (-719162 * time.ns_per_day)%Z in H1.
  change (time.Date 10000 1 1) with (2932897 * time.ns_per_day)%Z in H2.
  change time.ns_per_day with 86400000000000%Z in *. div_lia.
Qed.

Lemma midnight_of_eq t :
  midnight_of t = (t / time.ns_per_day * time.ns_per_day)%Z.
Proof.
  unfold midnight_of, time.Year, time.Month, time.Day, time.date_of.
  pose proof (civil_round_trip (t / time.ns_per_day)) as R.
  destruct (time.civil_from_days (t / time.ns_per_day)) as [[y m] d]. cbn [fst snd].
  destruct R as (R & Hm & _). rewrite Date_in_year by lia. now rewrite R.
Qed.

(** C2, as the code behaves: [ToJulianDay] reads only the year, the month
    and the day of its argument, so for every instant t of the years 1 to
    9999 [FromJulianDay (ToJulianDay t)] is midnight UTC of the calendar
    day of t; it equals t exactly when t is itself a midnight. *)
Theorem Julian_round_trip_to_midnight (t : time.Time) :
  in_common_era t ->
  FromJulianDay (ToJulianDay t) = midnight_of t
  /\ (FromJulianDay (ToJulianDay t) = t <-> (t mod time.ns_per_day = 0)%Z).
Proof.
  intros H. rewrite midnight_of_eq, (FromJulianDay_ToJulianDay t H).
  split; [reflexivity|].
  change time.ns_per_day with 86400000000000%Z. split; intros E; div_lia.
Qed.

Lemma Julian_round_trip_to_midnight_witness :
  in_common_era test_sunrise
  /\ FromJulianDay (ToJulianDay test_sunrise) = midnight_of test_sunrise.
Proof.
  assert (H : in_common_era test_sunrise) by (split; vm_compute; congruence).
  split; [exact H|]. exact (proj1 (Julian_round_trip_to_midnight test_sunrise H)).
Defined.

(** C2 as stated fails: the whole-second instant 2025-01-07T13:19:48Z
    comes back as 2025-01-07T00:00:00Z. *)
Lemma Julian_round_trip_drops_time_of_day :
  (test_sunrise mod time.Second = 0)%Z
  /\ FromJulianDay (ToJulianDay test_sunrise) = time.Date 2025 1 7
  /\ FromJulianDay (ToJulianDay test_sunrise) <> test_sunrise.
Proof.
  split; [reflexivity|]. split; [vm_compute; reflexivity|].
  vm_compute. discriminate.
Qed.

(** ** Further properties of the conversions between instants *)

Lemma ConvertTimeFromUTC_fits t offset :
  offset_fits offset -> ConvertTimeFromUTC t offset = (t + offset * time.Hour)%Z.
Proof.
  unfold offset_fits, ConvertTimeFromUTC, time.Add. intros H.
  rewrite wrap64_small; [reflexivity|].
  change time.Hour with 3600000000000%Z. lia.
Qed.

(** X1: Offsets add up, the opposite offset undoes a conversion, and a
    conversion moves neither the minute nor the second of the hour. *)
Theorem ConvertTimeFromUTC_offsets (t : time.Time) (a b : Z) :
  offset_fits a -> offset_fits b -> offset_fits (a + b) ->
  ConvertTimeFromUTC (ConvertTimeFromUTC t a) b = ConvertTimeFromUTC t (a + b)
  /\ ConvertTimeFromUTC (ConvertTimeFromUTC t a) (- a) = t
  /\ ConvertTimeFromUTC t 0 = t
  /\ (ConvertTimeFromUTC t a mod time.Hour = t mod time.Hour)%Z.
Proof.
  intros Ha Hb Hab.
  assert (Hn : offset_fits (- a)) by (unfold offset_fits in *; lia).
  assert (H0 : offset_fits 0) by (unfold offset_fits; lia).
  rewrite !ConvertTimeFromUTC_fits by assumption.
  repeat split; try lia.
  apply (Z.mod_add t a time.Hour). discriminate.
Qed.

Lemma ConvertTimeFromUTC_offsets_witness :
  offset_fits 5 /\ offset_fits (-6) /\ offset_fits (5 + -6)
  /\ ConvertTimeFromUTC (ConvertTimeFromUTC test_sunrise 5) (-6)
     = ConvertTimeFromUTC test_sunrise (5 + -6).
Proof.
  assert (A : offset_fits 5) by (unfold offset_fits; simpl; lia).
  assert (B : offset_fits (-6)) by (unfold offset_fits; simpl; lia).
  assert (C : offset_fits (5 + -6)) by (unfold offset_fits; simpl; lia).
  repeat (split; [assumption|]).
  exact (proj1 (ConvertTimeFromUTC_offsets test_sunrise 5 (-6) A B C)).
Defined.

(** X2: An offset just beyond the int64 range of nanoseconds wraps: the
    result lies before the instant it was to follow. *)
Theorem ConvertTimeFromUTC_wraps (t : time.Time) (offset : Z) :
  (2562048 <= offset <= 5124095)%Z ->
  ConvertTimeFromUTC t offset = (t + offset * time.Hour - 2 ^ 64)%Z
  /\ (ConvertTimeFromUTC t offset < t)%Z.
Proof.
  intros H. unfold ConvertTimeFromUTC, time.Add, julian.wrap64.
  change time.Hour with 3600000000000%Z.
  assert (E : ((offset * 3600000000000 + 2 ^ 63) mod 2 ^ 64
               = offset * 3600000000000 + 2 ^ 63 - 2 ^ 64)%Z).
  { symmetry. apply Z.mod_unique with 1%Z; lia. }
  rewrite E. lia.
Qed.

Lemma ConvertTimeFromUTC_wraps_witness :
  (2562048 <= 2562048 <= 5124095)%Z
  /\ (ConvertTimeFromUTC test_sunrise 2562048 < test_sunrise)%Z.
Proof.
  assert (H : (2562048 <= 2562048 <= 5124095)%Z) by lia.
  split; [exact H|]. exact (proj2 (ConvertTimeFromUTC_wraps test_sunrise 2562048 H)).
Defined.

(** ** Signs: negation commutes with the arithmetic of binary64 *)

Lemma binary_round_aux_opp sx mx ex lx :
  binary_round_aux prec emax (negb sx) mx ex lx
  = SFopp (binary_round_aux prec emax sx mx ex lx).
Proof.
  unfold binary_round_aux.
  destruct (shr_fexp prec emax mx ex lx) as [mrs' e'].
  destruct (shr_fexp prec emax _ e' loc_Exact) as [mrs'' e''].
  destruct (shr_m mrs''); try reflexivity.
  destruct (e'' <=? emax - prec)%Z; reflexivity.
Qed.

Lemma SFmul_opp_l x y : SFmul prec emax (SFopp x) y = SFopp (SFmul prec emax x y).
Proof.
  destruct x as [sx|sx| |sx mx ex], y as [sy|sy| |sy my ey]; simpl;
    try reflexivity; try (now destruct sx, sy).
  rewrite <- binary_round_aux_opp. now destruct sx, sy.
Qed.

Lemma SFdiv_opp_l x y : SFdiv prec emax (SFopp x) y = SFopp (SFdiv prec emax x y).
Proof.
  destruct x as [sx|sx| |sx mx ex], y as [sy|sy| |sy my ey]; simpl;
    try reflexivity; try (now destruct sx, sy).
  destruct (SFdiv_core_binary prec emax (Zpos mx) ex (Zpos my) ey) as [[mz ez] lz].
  rewrite <- binary_round_aux_opp. now destruct sx, sy.
Qed.

Lemma mul_opp_l (x y : float) : (- x * y = - (x * y))%float.
Proof. apply Prim2SF_inj. now rewrite mul_spec, !opp_spec, mul_spec, SFmul_opp_l. Qed.

Lemma div_opp_l (x y : float) : (- x / y = - (x / y))%float.
Proof. apply Prim2SF_inj. now rewrite div_spec, !opp_spec, div_spec, SFdiv_opp_l. Qed.

Lemma opp_opp (x : float) : (- - x = x)%float.
Proof.
  apply Prim2SF_inj. rewrite !opp_spec.
  destruct (Prim2SF x) as [s|s| |s m e]; simpl; now rewrite ?negb_involutive.
Qed.

Lemma binary_normalize_opp m e s :
  binary_normalize prec emax (- m) e (negb s)
  = SFopp (binary_normalize prec emax m e s).
Proof.
  destruct m as [|p|p]; simpl; try reflexivity; unfold binary_round;
    destruct (shl_align p e _) as [mz ez];
    [change true with (negb false) at 1|change false with (negb true) at 1];
    apply binary_round_aux_opp.
Qed.

Lemma valid_binary_opp z : valid_binary (SFopp z) = valid_binary z.
Proof. destruct z; reflexivity. Qed.

(** The integer that [math.Round] forms from a float with a fraction
    fits the format. *)
Lemma Round_integer_valid s m e :
  valid_binary (S754_finite s m e) = true -> (e < 0)%Z ->
  let n := Z.shiftr (Zpos m + Z.shiftl 1 (- e - 1)) (- e) in
  valid_binary (binary_normalize prec emax (if s then (- n)%Z else n) 0 s) = true.
Proof.
  intros V L n.
  set (k := (- e)%Z). assert (Hk : (0 < k)%Z) by (unfold k; lia).
  apply valid_finite_inv in V as (Bm & Be & _ & _).
  pose proof (Z.pow_pos_nonneg 2 k ltac:(lia) ltac:(lia)) as P.
  pose proof (Z.pow_pos_nonneg 2 (k - 1) ltac:(lia) ltac:(lia)) as P1.
  assert (P2 : (2 ^ k = 2 * 2 ^ (k - 1))%Z).
  { replace k with (Z.succ (k - 1)) at 1 by lia. rewrite Z.pow_succ_r by lia. lia. }
  assert (Hn : n = ((Zpos m + 2 ^ (k - 1)) / 2 ^ k)%Z).
  { unfold n. rewrite Z.shiftr_div_pow2, Z.shiftl_mul_pow2 by lia.
    fold k. replace (- e - 1)%Z with (k - 1)%Z by (unfold k; lia). f_equal. lia. }
  pose proof (Z_div_mod_eq_full (Zpos m + 2 ^ (k - 1)) (2 ^ k)) as DM.
  pose proof (Z.mod_pos_bound (Zpos m + 2 ^ (k - 1)) (2 ^ k) P) as MB.
  rewrite <- Hn in DM.
  assert (Hn0 : (0 <= n)%Z) by (rewrite Hn; apply Z.div_pos; lia).
  assert (Hnb : (n < 2 ^ 53)%Z).
  { assert (2 ^ 1 <= 2 ^ k)%Z by (apply Z.pow_le_mono_r; lia).
    assert (2 ^ k * n <= Zpos m + 2 ^ (k - 1))%Z by lia. nia. }
  clearbody n.
  assert (Rr : Rrounded (IZR (if s then (- n)%Z else n) * bpow 0)
                 (binary_normalize prec emax (if s then (- n)%Z else n) 0 s)).
  { apply binary_normalize_Rrounded. rewrite bpow_0, Rmult_1_r, <- abs_IZR.
    eapply Rlt_trans; [|apply bpow_1023_large]. apply IZR_lt. destruct s; lia. }
  apply Rr.
Qed.

(** [math.Round] is odd. *)
Lemma Round_opp (x : float) : math.Round (- x) = (- math.Round x)%float.
Proof.
  unfold math.Round. rewrite opp_spec.
  pose proof (Prim2SF_valid x) as V.
  destruct (Prim2SF x) as [s|s| |s m e] eqn:E; cbn [SFopp]; try reflexivity.
  destruct (Z.leb_spec 0 e) as [L|L]; [reflexivity|].
  pose proof (Round_integer_valid s m e V L) as Vn. cbv zeta in Vn.
  set (n := Z.shiftr (Zpos m + Z.shiftl 1 (- e - 1)) (- e)) in *.
  set (B := binary_normalize prec emax (if s then (- n)%Z else n) 0 s) in *.
  replace (if negb s then (- n)%Z else n) with (- (if s then (- n)%Z else n))%Z
    by (destruct s; simpl; lia).
  rewrite binary_normalize_opp. fold B.
  apply Prim2SF_inj. rewrite opp_spec, !Prim2SF_SF2Prim; auto.
  now rewrite valid_binary_opp.
Qed.

Lemma roundToPlaces_opp (value : float) (places : Z) :
  roundToPlaces (- value) places = (- roundToPlaces value places)%float.
Proof. unfold roundToPlaces. cbv zeta. now rewrite mul_opp_l, Round_opp, div_opp_l. Qed.

(** X4: South and west mirror north and east: the decimal of a DMS value
    in the direction S (or W) is the exact negation of its decimal in
    the direction N (or E), whatever the fields hold. *)
Theorem DmsToDecimal_mirror (dms : DMS) :
  fst (DmsToDecimal dms "S") = (- fst (DmsToDecimal dms "N"))%float
  /\ fst (DmsToDecimal dms "W") = (- fst (DmsToDecimal dms "E"))%float
  /\ DmsToDecimal dms "W" = DmsToDecimal dms "S"
  /\ DmsToDecimal dms "E" = DmsToDecimal dms "N".
Proof.
  repeat split; unfold DmsToDecimal; cbn [String.eqb Ascii.eqb Bool.eqb orb fst];
    apply roundToPlaces_opp.
Qed.

(** X5: A decimal and its negation give the same DMS value, with opposite
    hemisphere letters. *)
Theorem DecimalToDMS_mirror (d : float) (isLatitude : bool) :
  (0 <? d)%float = true ->
  fst (DecimalToDMS (- d) isLatitude) = fst (DecimalToDMS d isLatitude)
  /\ snd (DecimalToDMS d isLatitude) = (if isLatitude then "N" else "E")
  /\ snd (DecimalToDMS (- d) isLatitude) = (if isLatitude then "S" else "W").
Proof.
  intros H.
  assert (P : (d <? 0)%float = false /\ (- d <? 0)%float = true /\ math.Abs (- d) = d).
  { unfold math.Abs. rewrite FloatAxioms.ltb_spec in H.
    rewrite !FloatAxioms.ltb_spec, opp_spec.
    split; [|split; [|apply Prim2SF_inj; rewrite abs_spec, opp_spec]];
      change (Prim2SF 0) with (S754_zero false) in *;
      destruct (Prim2SF d) as [s|[|]| |[|] m e]; simpl in *;
        try discriminate; reflexivity. }
  destruct P as (P1 & P2 & P3).
  rewrite !DecimalToDMS_eq. unfold direction_of. cbn [fst snd].
  rewrite P1, P2, P3. now destruct isLatitude.
Qed.

Lemma DecimalToDMS_mirror_witness :
  (0 <? 38.8587333)%float = true
  /\ fst (DecimalToDMS (- 38.8587333) true) = fst (DecimalToDMS 38.8587333 true).
Proof.
  assert (H : (0 <? 38.8587333)%float = true) by reflexivity.
  split; [exact H|]. exact (proj1 (DecimalToDMS_mirror 38.8587333 true H)).
Defined.

Lemma dms_sum_parsed (dms : DMS) :
  (0 <= Degrees dms <= 99)%Z -> (0 <= Minutes dms <= 99)%Z ->
  finite (Seconds dms) -> 0 <= B2R (Seconds dms) <= 100 ->
  finite (dms_sum dms) /\ 0 <= B2R (dms_sum dms) <= 1007 / 10.
Proof.
  intros HD HM FS BS. unfold dms_sum.
  destruct (of_int_exact (Degrees dms)) as [ED FD]; [lia|].
  destruct (of_int_exact (Minutes dms)) as [EM FM]; [lia|].
  assert (BD : 0 <= IZR (Degrees dms) <= 99) by (split; apply IZR_le; lia).
  assert (BM : 0 <= IZR (Minutes dms) <= 99) by (split; apply IZR_le; lia).
  destruct B2R_60 as [E60 F60]. destruct B2R_3600 as [E36 F36].
  destruct (div_step (F64.of_int (Minutes dms)) 60 FM F60 1 ltac:(lia)) as (F1 & E1 & S1 & _).
  { rewrite E60. lra. }
  { rewrite EM, E60. apply Rabs_le; bpow_lit; split; lra. }
  rewrite EM, E60 in *. specialize (S1 ltac:(lra)).
  set (a1 := (F64.of_int (Minutes dms) / 60)%float) in *. clearbody a1.
  apply Rabs_le_inv in E1. bpow_lit.
  destruct (add_step (F64.of_int (Degrees dms)) a1 FD F1 7 ltac:(lia)) as (F2 & E2 & S2 & _).
  { rewrite ED. apply Rabs_le; bpow_lit; split; lra. }
  rewrite ED in *. specialize (S2 ltac:(lra)).
  set (a2 := (F64.of_int (Degrees dms) + a1)%float) in *. clearbody a2.
  apply Rabs_le_inv in E2. bpow_lit.
  destruct (div_step (Seconds dms) 3600 FS F36 0 ltac:(lia)) as (F3 & E3 & S3 & _).
  { rewrite E36. lra. }
  { rewrite E36. apply Rabs_le; bpow_lit; split; lra. }
  rewrite E36 in *. specialize (S3 ltac:(lra)).
  set (a3 := (Seconds dms / 3600)%float) in *. clearbody a3.
  apply Rabs_le_inv in E3. bpow_lit.
  destruct (add_step a2 a3 F2 F3 7 ltac:(lia)) as (F4 & E4 & S4 & _).
  { apply Rabs_le; bpow_lit; split; lra. }
  specialize (S4 ltac:(lra)). apply Rabs_le_inv in E4. bpow_lit.
  split; [exact F4|]. split; lra.
Qed.

(** X6: What [DmsToDecimal] makes of a value that [ParseDMS] accepted: it
    prints nothing, and returns a finite decimal of magnitude at most
    101 whose sign is that of the hemisphere. *)
Theorem parsed_DMS_to_decimal (input : string) (dms : DMS) (direction : string) :
  ParseDMS input = (dms, direction, None) ->
  snd (DmsToDecimal dms direction) = []
  /\ finite (fst (DmsToDecimal dms direction))
  /\ Rabs (B2R (fst (DmsToDecimal dms direction))) <= 101
  /\ (direction = "S" \/ direction = "W" -> B2R (fst (DmsToDecimal dms direction)) <= 0)
  /\ (direction = "N" \/ direction = "E" -> 0 <= B2R (fst (DmsToDecimal dms direction))).
Proof.
  intros H. apply ParseDMS_accepts in H as (HD & HM & FS & BS & Hh).
  destruct (dms_sum_parsed dms HD HM FS BS) as [F4 B].
  assert (Pos : finite (roundToPlaces (dms_sum dms) 7)
                /\ 0 <= B2R (roundToPlaces (dms_sum dms) 7) <= 101).
  { destruct B2R_pow10_7 as [E7 F7].
    destruct (roundToPlaces_R (dms_sum dms) 7 10000000 31 10 F4 E7 F7) as (Fr & _ & Sr & _);
      [lra|lia|lia| | |].
    { apply Rabs_le; bpow_lit; split; lra. }
    { bpow_lit. lra. }
    pose proof (final_rounding (dms_sum dms) F4 ltac:(apply Rabs_le; split; lra)) as Er.
    apply Rabs_le_inv in Er.
    split; [exact Fr|]. split; [apply Sr; lra|lra]. }
  destruct Pos as (Fr & Br).
  destruct (opp_R (roundToPlaces (dms_sum dms) 7)) as [Eo Fo].
  destruct Hh as [-> | [-> | [-> | ->]]].
  - rewrite DmsToDecimal_kept by auto.
    split; [reflexivity|]. split; [exact Fr|]. split; [apply Rabs_le; split; lra|].
    split; [intros [X|X]; discriminate|intros _; lra].
  - rewrite DmsToDecimal_negated by auto. rewrite roundToPlaces_opp.
    split; [reflexivity|]. split; [now apply Fo|]. rewrite Eo.
    split; [apply Rabs_le; split; lra|].
    split; [intros _; lra|intros [X|X]; discriminate].
  - rewrite DmsToDecimal_kept by auto.
    split; [reflexivity|]. split; [exact Fr|]. split; [apply Rabs_le; split; lra|].
    split; [intros [X|X]; discriminate|intros _; lra].
  - rewrite DmsToDecimal_negated by auto. rewrite roundToPlaces_opp.
    split; [reflexivity|]. split; [now apply Fo|]. rewrite Eo.
    split; [apply Rabs_le; split; lra|].
    split; [intros _; lra|intros [X|X]; discriminate].
Qed.

Lemma parsed_DMS_to_decimal_witness :
  ParseDMS fixture_text = (fixture_dms, "N", None)
  /\ snd (DmsToDecimal fixture_dms "N") = []
  /\ Rabs (B2R (fst (DmsToDecimal fixture_dms "N"))) <= 101.
Proof.
  split; [exact ParseDMS_fixture|].
  destruct (parsed_DMS_to_decimal fixture_text fixture_dms "N" ParseDMS_fixture)
    as (A & _ & B & _).
  split; [exact A|exact B].
Defined.

(** ** Floats are determined by their values *)

Lemma pos_mag_pos m e : 0 < IZR (Zpos m) * bpow e.
Proof.
  pose proof (bpow_gt_0 e). pose proof (IZR_lt 0 (Zpos m) ltac:(lia)).
  now apply Rmult_lt_0_compat.
Qed.

Lemma B2R_inj (x y : float) :
  finite x -> finite y -> B2R x = B2R y -> B2R x <> 0 -> x = y.
Proof.
  unfold finite, B2R. intros Fx Fy E N. apply Prim2SF_inj.
  pose proof (Prim2SF_valid x) as Vx. pose proof (Prim2SF_valid y) as Vy.
  destruct (Prim2SF x) as [sx|sx| |sx mx ex]; try discriminate;
    [exfalso; apply N; reflexivity|].
  destruct (Prim2SF y) as [sy|sy| |sy my ey]; try discriminate;
    [exfalso; apply N; rewrite E; reflexivity|].
  rewrite !SF2R_finite in E. clear N Fx Fy.
  pose proof (pos_mag_pos mx ex) as Px. pose proof (pos_mag_pos my ey) as Py.
  assert (S : sx = sy) by (destruct sx, sy; unfold signed in E; try reflexivity; lra).
  subst sy.
  assert (M : IZR (Zpos mx) * bpow ex = IZR (Zpos my) * bpow ey)
    by (destruct sx; unfold signed in E; lra).
  pose proof (compare_magnitudes mx ex my ey Vx Vy) as C.
  destruct (Z.compare_spec ex ey) as [Ee|L|G]; simpl in C; try lra.
  subst ey. change (Pos.compare_cont Eq mx my) with (Pos.compare mx my) in C.
  destruct (Pos.compare_spec mx my) as [Em|L|G]; simpl in C; try lra.
  now subst.
Qed.

(** ** Julian days at midnight and at noon *)

Lemma mul_half x y a b :
  finite x -> finite y -> B2R x = IZR a / 2 -> B2R y = IZR (2 * b) ->
  (Z.abs (a * b) < 2 ^ 53)%Z ->
  finite (x * y) /\ B2R (x * y) = IZR (a * b).
Proof.
  intros Fx Fy Ex Ey H.
  assert (E : B2R x * B2R y = IZR (a * b)).
  { rewrite Ex, Ey, !mult_IZR. field. }
  assert (R : Rrounded (B2R x * B2R y) (Prim2SF (x * y))).
  { apply mul_R; auto. rewrite E, <- abs_IZR.
    eapply Rlt_trans; [|apply bpow_1023_large]. apply IZR_lt. lia. }
  rewrite E in R. split; [apply (Rrounded_finite _ _ R)|].
  destruct R as (_ & _ & _ & X & _). apply X. now apply representable_int.
Qed.

(** [math.Modf] of a positive float whose double is a whole number. *)
Lemma Modf_half x n :
  finite x -> B2R x = IZR n / 2 -> (2 <= n < 2 ^ 52)%Z ->
  finite (fst (math.Modf x)) /\ B2R (fst (math.Modf x)) = IZR (n / 2)
  /\ finite (snd (math.Modf x)) /\ B2R (snd (math.Modf x)) = IZR (n mod 2) / 2.
Proof.
  intros F E H.
  pose proof (Z.div_mod n 2 ltac:(lia)) as DM.
  pose proof (Z.mod_pos_bound n 2 ltac:(lia)) as MB.
  destruct (Z.eq_dec (n mod 2) 0) as [Z0|Z1].
  - (* a whole number *)
    assert (E' : B2R x = IZR (n / 2)).
    { rewrite E. replace n with (2 * (n / 2))%Z at 1 by lia. rewrite mult_IZR. field. }
    destruct (Modf_int x (n / 2) F E') as (A & B & C & D); [lia|].
    rewrite Z0. repeat split; auto. rewrite D. lra.
  - assert (R1 : (n mod 2 = 1)%Z) by lia. rewrite R1.
    assert (Ev : B2R x = IZR (n / 2) + / 2).
    { rewrite E. replace n with (2 * (n / 2) + 1)%Z at 1 by lia.
      rewrite plus_IZR, mult_IZR. field. }
    assert (P : 1 <= B2R x).
    { rewrite Ev. assert (1 <= IZR (n / 2)) by (apply IZR_le; lia). lra. }
    unfold math.Modf.
    destruct B2R_0 as [E0 F0]. destruct B2R_1 as [E1 F1].
    replace (x <? 0)%float with false
      by (symmetry; apply (ltb_R_false x 0 F F0); lra).
    unfold math.Modf_pos.
    replace (x <? 1)%float with false
      by (symmetry; apply (ltb_R_false x 1 F F1); lra).
    assert (T : F64.trunc x = (n / 2)%Z).
    { destruct (trunc_R x F) as [Hp _]. destruct Hp as [A B]; [lra|].
      rewrite Ev in A, B.
      assert (A' : IZR (F64.trunc x) < IZR (n / 2 + 1)) by (rewrite plus_IZR; lra).
      assert (B' : IZR (n / 2 - 1) < IZR (F64.trunc x)) by (rewrite minus_IZR; lra).
      apply lt_IZR in A', B'. lia. }
    set (int := match Prim2SF x with
                | S754_finite _ _ e => if (0 <=? e)%Z then x else F64.of_int (F64.trunc x)
                | _ => x
                end).
    assert (I : int = F64.of_int (n / 2)).
    { subst int. rewrite T. unfold finite, B2R in *.
      destruct (Prim2SF x) as [s|s| |s m e]; try discriminate.
      - simpl in P. lra.
      - destruct (Z.leb_spec 0 e) as [L|L]; [exfalso|reflexivity].
        rewrite SF2R_finite in E.
        assert (X : IZR (Zpos m * 2 ^ e) = IZR n / 2).
        { rewrite mult_IZR, IZR_pow2_bpow by lia.
          destruct s; unfold signed in E; [|exact E].
          pose proof (pos_mag_pos m e). simpl in P. unfold signed in P. lra. }
        assert (Y : IZR (2 * (Zpos m * 2 ^ e)) = IZR n) by (rewrite mult_IZR, X; field).
        apply eq_IZR in Y. lia. }
    clearbody int. subst int. cbn [fst snd].
    destruct (of_int_exact (n / 2)) as [Ei Fi]; [lia|].
    split; [exact Fi|]. split; [exact Ei|].
    rewrite twice_half in Ei.
    destruct (sub_half x _ _ _ F Fi E Ei) as [Fs Es]; [lia|].
    split; [exact Fs|]. rewrite Es. apply (f_equal (fun k => IZR k / 2)). lia.
Qed.

(** The calendar date of a Julian day n/2 of the years 1 to 9999. *)
Lemma jdToCalendarGregorian_half jd n :
  finite jd -> B2R jd = IZR n / 2 -> (3442851 <= n <= 10746968)%Z ->
  fst (julian.jdToCalendarGregorian jd) = fst (meeus_date ((n + 1) / 2))
  /\ finite (snd (julian.jdToCalendarGregorian jd))
  /\ B2R (snd (julian.jdToCalendarGregorian jd))
     = IZR (2 * snd (meeus_date ((n + 1) / 2)) + (n + 1) mod 2) / 2.
Proof.
  intros F E HN. destruct B2R_half as [Eh Fh].
  destruct (add_half jd 0.5 _ _ F Fh E Eh) as [Fx Ex]; [lia|].
  destruct (Modf_half _ (n + 1) Fx Ex) as (Fi & Ei & Ff & Ef); [lia|].
  pose proof (Z.div_mod (n + 1) 2 ltac:(lia)) as DM.
  pose proof (Z.mod_pos_bound (n + 1) 2 ltac:(lia)) as MB.
  set (N := ((n + 1) / 2)%Z) in *. set (r := ((n + 1) mod 2)%Z) in *.
  unfold julian.jdToCalendarGregorian.
  destruct (math.Modf (jd + 0.5)) as [zf f]. cbn [fst snd] in Fi, Ei, Ff, Ef.
  destruct (to_int_exact zf N Fi Ei) as [-> _]; [lia|].
  assert (HN' : (1721426 <= N <= 5373484)%Z) by lia.
  clearbody N r. clear DM.
  unfold julian.FloorDiv, meeus_date. cbv zeta.
  repeat match goal with
  | |- context [julian.wrap64 ?x] => rewrite (wrap64_small x) by div_lia
  end.
  set (alpha := ((N * 100 - 186721625) / 3652425)%Z).
  set (b := (N + 1 + alpha - alpha / 4 + 1524)%Z).
  set (c := ((b * 100 - 12210) / 36525)%Z).
  set (d := (36525 * c / 100)%Z).
  set (e := ((b - d) * 10000 / 306001)%Z).
  set (day := (b - d - 306001 * e / 10000)%Z).
  assert (Bd : (Z.abs day < 2 ^ 40)%Z) by (subst day e d c b alpha; div_lia).
  clearbody day. cbn [fst snd]. split; [reflexivity|].
  destruct (of_int_exact day) as [E1 F1]; [lia|]. rewrite twice_half in E1.
  destruct (add_half _ _ _ _ F1 Ff E1 Ef) as [F2 E2]; [lia|].
  split; [exact F2|exact E2].
Qed.

(** [JDToTime] of a Julian day n/2: half days after the epoch. *)
Lemma JDToTime_half jd n :
  finite jd -> B2R jd = IZR n / 2 -> (3442851 <= n <= 10746968)%Z ->
  julian.JDToTime jd = ((n - 4881175) * (12 * time.Hour))%Z.
Proof.
  intros F E HN.
  destruct (jdToCalendarGregorian_half jd n F E HN) as (E1 & F2 & E2).
  pose proof (Z.div_mod (n + 1) 2 ltac:(lia)) as DM.
  pose proof (Z.mod_pos_bound (n + 1) 2 ltac:(lia)) as MB.
  set (N := ((n + 1) / 2)%Z) in *. set (r := ((n + 1) mod 2)%Z) in *.
  replace N with (N - 2440588 + 2440588)%Z in E1, E2 by lia.
  rewrite meeus_date_civil in E1, E2.
  pose proof (civil_round_trip (N - 2440588)) as R.
  unfold julian.JDToTime.
  destruct (julian.jdToCalendarGregorian jd) as [[y m] d].
  destruct (time.civil_from_days (N - 2440588)) as [[y' m'] d']. cbn [fst snd] in *.
  injection E1 as -> ->. destruct R as (R & Hm & Hd).
  destruct (mul_half d 24 (2 * d' + r) 12 F2 (proj2 B2R_24) E2 (proj1 B2R_24)) as [F3 E3];
    [lia|].
  destruct (of_int_exact time.Hour) as [E4 F4]; [vm_compute; reflexivity|].
  destruct (mul_int _ _ _ _ F3 F4 E3 E4) as [F5 E5].
  { change time.Hour with 3600000000000%Z. lia. }
  destruct (to_int_exact _ _ F5 E5) as [-> _].
  { change time.Hour with 3600000000000%Z. lia. }
  rewrite Date_in_year by lia. unfold time.Add.
  rewrite (days_from_civil_day y' m' d') in R.
  change time.ns_per_day with 86400000000000%Z.
  change time.Hour with 3600000000000%Z. lia.
Qed.

Lemma common_era_days t :
  in_common_era t <-> (-719162 <= t / time.ns_per_day <= 2932896)%Z.
Proof.
  unfold in_common_era.
  change (time.Date 1 1 1) with (-719162 * time.ns_per_day)%Z.
  change (time.Date 10000 1 1) with (2932897 * time.ns_per_day)%Z.
  change time.ns_per_day with 86400000000000%Z. split; intros H; div_lia.
Qed.

Lemma B2R_J1970 : B2R J1970 = IZR 2440588 /\ finite J1970.
Proof. apply (lit_of_int J1970 2440588); [reflexivity|vm_compute; reflexivity]. Qed.

(** X7: [ToJulianDay] in closed form: the whole days since the Unix epoch,
    counted from [J1970] less one half.  Two instants of the years 1 to
    9999 have the same Julian day exactly when they lie on the same UTC
    day. *)
Theorem ToJulianDay_closed_form (t t' : time.Time) :
  in_common_era t -> in_common_era t' ->
  finite (ToJulianDay t)
  /\ B2R (ToJulianDay t) = IZR (t / time.ns_per_day) + B2R J1970 - 1 / 2
  /\ (ToJulianDay t = ToJulianDay t'
      <-> (t / time.ns_per_day = t' / time.ns_per_day)%Z)
  /\ ((t / time.ns_per_day < t' / time.ns_per_day)%Z
      -> B2R (ToJulianDay t) < B2R (ToJulianDay t')).
Proof.
  intros H H'. destruct (ToJulianDay_exact t H) as [F E].
  destruct (ToJulianDay_exact t' H') as [F' E'].
  destruct B2R_J1970 as [EJ _].
  assert (V : forall D, IZR (2 * D + 4881175) / 2 = IZR D + IZR 2440588 - 1 / 2).
  { intros D. rewrite plus_IZR, mult_IZR. lra. }
  rewrite V in E, E'.
  split; [exact F|]. split; [now rewrite EJ|]. split; [split|].
  - intros X. rewrite X, E' in E. apply eq_IZR. lra.
  - intros X.
    unfold ToJulianDay, time.UTC, time.Year, time.Month, time.Day, time.date_of.
    now rewrite X.
  - intros L. rewrite E, E'. apply IZR_lt in L. lra.
Qed.

Lemma ToJulianDay_closed_form_witness :
  in_common_era test_sunrise /\ in_common_era (midnight_of test_sunrise)
  /\ ToJulianDay test_sunrise = ToJulianDay (midnight_of test_sunrise).
Proof.
  assert (H : in_common_era test_sunrise) by (split; vm_compute; congruence).
  assert (H' : in_common_era (midnight_of test_sunrise)) by (split; vm_compute; congruence).
  split; [exact H|]. split; [exact H'|].
  apply (proj1 (proj2 (proj2 (ToJulianDay_closed_form _ _ H H')))).
  vm_compute. reflexivity.
Defined.

(** X8: The other round trip: a Julian day at midnight is recovered exactly,
    as a float, from the instant that [FromJulianDay] makes of it. *)
Theorem ToJulianDay_FromJulianDay (jd : float) :
  midnight_jd jd ->
  ToJulianDay (FromJulianDay jd) = jd
  /\ in_common_era (FromJulianDay jd)
  /\ (FromJulianDay jd mod time.ns_per_day = 0)%Z.
Proof.
  intros (F & k & Hk & E).
  assert (E2 : B2R jd = IZR (2 * k + 1) / 2) by (rewrite E, plus_IZR, mult_IZR; lra).
  assert (T : FromJulianDay jd = ((k - 2440587) * time.ns_per_day)%Z).
  { unfold FromJulianDay. rewrite (JDToTime_half jd (2 * k + 1) F E2) by lia.
    change time.ns_per_day with 86400000000000%Z.
    change time.Hour with 3600000000000%Z. lia. }
  assert (D : (FromJulianDay jd / time.ns_per_day = k - 2440587)%Z).
  { rewrite T. apply Z.div_mul. discriminate. }
  assert (C : in_common_era (FromJulianDay jd)).
  { apply common_era_days. rewrite D. lia. }
  split; [|split; [exact C|]].
  - destruct (ToJulianDay_exact _ C) as [F' E']. rewrite D in E'.
    apply B2R_inj; auto.
    + rewrite E', E2. apply (f_equal (fun z => IZR z / 2)). lia.
    + rewrite E'. intros X.
      assert (Y : IZR (2 * (k - 2440587) + 4881175) = 0) by lra.
      apply eq_IZR in Y. lia.
  - rewrite T. apply Z.mod_mul. discriminate.
Qed.

Lemma fixture_jd_midnight : midnight_jd fixture_jd.
Proof.
  split; [reflexivity|]. exists 2460682%Z. split; [lia|].
  destruct (B2R_literal fixture_jd 5284275431669760 (-31) eq_refl) as [E _].
  rewrite E. bpow_lit. lra.
Qed.

Lemma ToJulianDay_FromJulianDay_witness :
  midnight_jd fixture_jd /\ ToJulianDay (FromJulianDay fixture_jd) = fixture_jd.
Proof.
  split; [exact fixture_jd_midnight|].
  exact (proj1 (ToJulianDay_FromJulianDay fixture_jd fixture_jd_midnight)).
Defined.

Lemma noon_after_ToJulianDay t :
  in_common_era t ->
  FromJulianDay (ToJulianDay t + 0.5)
  = (t / time.ns_per_day * time.ns_per_day + 12 * time.Hour)%Z.
Proof.
  intros H. destruct (ToJulianDay_exact t H) as [F E].
  destruct B2R_half as [Eh Fh].
  destruct (add_half _ 0.5 _ _ F Fh E Eh) as [Fx Ex].
  { apply common_era_days in H. lia. }
  unfold FromJulianDay. rewrite (JDToTime_half _ _ Fx Ex).
  - change time.ns_per_day with 86400000000000%Z.
    change time.Hour with 3600000000000%Z. lia.
  - apply common_era_days in H. lia.
Qed.

Lemma JulianToUTC_ToJulianDay t :
  in_common_era t -> JulianToUTC (ToJulianDay t) = ToJulianDay t.
Proof.
  intros H. unfold JulianToUTC. cbv zeta. rewrite (noon_after_ToJulianDay t H).
  unfold ToJulianDay, time.UTC, time.Year, time.Month, time.Day, time.date_of.
  replace ((t / time.ns_per_day * time.ns_per_day + 12 * time.Hour) / time.ns_per_day)%Z
    with (t / time.ns_per_day)%Z; [reflexivity|].
  change time.ns_per_day with 86400000000000%Z.
  change time.Hour with 3600000000000%Z. div_lia.
Qed.

(** X9: A Julian day that [ToJulianDay] produced is a fixed point of
    [JulianToUTC]: half a day later it is noon of the same day, and the
    event functions then work at the produced day itself. *)
Theorem ToJulianDay_is_normalised (t : time.Time) (longitude latitude : float) :
  in_common_era t ->
  JulianToUTC (ToJulianDay t) = ToJulianDay t
  /\ FromJulianDay (ToJulianDay t + 0.5) = (midnight_of t + 12 * time.Hour)%Z
  /\ Sunrise (ToJulianDay t) longitude latitude
     = calculateTime (ToJulianDay t) longitude latitude 90.833 true
  /\ Sunset (ToJulianDay t) longitude latitude
     = calculateTime (ToJulianDay t) longitude latitude 90.833 false.
Proof.
  intros H. unfold Sunrise, Sunset.
  rewrite (JulianToUTC_ToJulianDay t H), midnight_of_eq, (noon_after_ToJulianDay t H).
  repeat split.
Qed.

Lemma ToJulianDay_is_normalised_witness :
  in_common_era test_sunrise
  /\ JulianToUTC (ToJulianDay test_sunrise) = ToJulianDay test_sunrise.
Proof.
  assert (H : in_common_era test_sunrise) by (split; vm_compute; congruence).
  split; [exact H|].
  exact (proj1 (ToJulianDay_is_normalised test_sunrise fixture_longitude fixture_latitude H)).
Defined.

(** X10: [JulianToUTC] is idempotent, and the event functions give for a
    normalised Julian day what they give for the day itself. *)
Theorem JulianToUTC_idempotent (jd longitude latitude : float) :
  in_common_era (FromJulianDay (jd + 0.5)) ->
  JulianToUTC (JulianToUTC jd) = JulianToUTC jd
  /\ Sunrise (JulianToUTC jd) longitude latitude = Sunrise jd longitude latitude
  /\ Sunset (JulianToUTC jd) longitude latitude = Sunset jd longitude latitude.
Proof.
  intros H.
  assert (E : JulianToUTC (JulianToUTC jd) = JulianToUTC jd).
  { unfold JulianToUTC at 2 3. cbv zeta. unfold time.UTC.
    now apply JulianToUTC_ToJulianDay. }
  unfold Sunrise, Sunset. rewrite E. repeat split.
Qed.

Lemma JulianToUTC_idempotent_witness :
  in_common_era (FromJulianDay (afternoon_jd + 0.5))
  /\ JulianToUTC (JulianToUTC afternoon_jd) = JulianToUTC afternoon_jd.
Proof.
  assert (H : in_common_era (FromJulianDay (afternoon_jd + 0.5)))
    by (split; vm_compute; congruence).
  split; [exact H|].
  exact (proj1 (JulianToUTC_idempotent afternoon_jd fixture_longitude fixture_latitude H)).
Defined.

(** ** Rising and setting mirror each other about the transit *)

Lemma SFadd_opp_r x y : SFadd prec emax x (SFopp y) = SFsub prec emax x y.
Proof.
  destruct x as [sx|sx| |sx mx ex], y as [sy|sy| |sy my ey]; simpl;
    try reflexivity; try (now destruct sx, sy).
  all: try (f_equal; destruct sy; simpl; lia).
Qed.

Lemma add_opp_r (x y : float) : (x + - y = x - y)%float.
Proof. apply Prim2SF_inj. now rewrite add_spec, opp_spec, sub_spec, SFadd_opp_r. Qed.

Lemma opp_nan : (- nan)%float = nan.
Proof. reflexivity. Qed.

(** X11: The Julian day of the setting is the transit plus the half arc, the
    one of the rising is the transit minus the same half arc; and where
    these are finite and below 2^23, the transit lies midway between
    them up to the rounding of the two operations. *)
Theorem rising_and_setting_mirror (julianDay longitude latitude angle : float) :
  let T := transit_of julianDay longitude in
  let X := half_arc julianDay longitude latitude angle in
  Jset_of julianDay longitude latitude angle false = (T + X)%float
  /\ Jset_of julianDay longitude latitude angle true = (T - X)%float
  /\ (finite T -> finite X -> Rabs (B2R T) + Rabs (B2R X) <= bpow 23 ->
      Rabs (B2R (T + X) + B2R (T - X) - 2 * B2R T) <= bpow (-28)).
Proof.
  intros T X. split; [reflexivity|]. split.
  - unfold Jset_of, hour_angle. cbv zeta.
    rewrite div_opp_l, add_opp_r. reflexivity.
  - intros FT FX B.
    pose proof (Rabs_triang (B2R T) (B2R X)) as A1.
    pose proof (Rabs_triang (B2R T) (- B2R X)) as A2. rewrite Rabs_Ropp in A2.
    destruct (add_step T X FT FX 23 ltac:(lia)) as (_ & E1 & _); [lra|].
    destruct (sub_step T X FT FX 23 ltac:(lia)) as (_ & E2 & _);
      [unfold Rminus; lra|].
    apply Rabs_le_inv in E1, E2. bpow_lit. apply Rabs_le. split; lra.
Qed.

Lemma rising_and_setting_mirror_witness :
  (finite (transit_of fixture_jd fixture_longitude)
   /\ finite (half_arc fixture_jd fixture_longitude fixture_latitude 90.833)
   /\ Rabs (B2R (transit_of fixture_jd fixture_longitude))
      + Rabs (B2R (half_arc fixture_jd fixture_longitude fixture_latitude 90.833))
      <= bpow 23)
  /\ Rabs (B2R (transit_of fixture_jd fixture_longitude
                + half_arc fixture_jd fixture_longitude fixture_latitude 90.833)
           + B2R (transit_of fixture_jd fixture_longitude
                  - half_arc fixture_jd fixture_longitude fixture_latitude 90.833)
           - 2 * B2R (transit_of fixture_jd fixture_longitude)) <= bpow (-28).
Proof.
  destruct (B2R_literal (transit_of fixture_jd fixture_longitude)
              5284274900753880 (-31)) as [ET FT]; [vm_compute; reflexivity|].
  destruct (B2R_literal (half_arc fixture_jd fixture_longitude fixture_latitude 90.833)
              7268823858580561 (-55)) as [EX FX]; [vm_compute; reflexivity|].
  assert (B : Rabs (B2R (transit_of fixture_jd fixture_longitude))
              + Rabs (B2R (half_arc fixture_jd fixture_longitude fixture_latitude 90.833))
              <= bpow 23).
  { rewrite ET, EX, !Rabs_pos_eq by apply pos_mag_nonneg. bpow_lit. lra. }
  split; [split; [exact FT|split; [exact FX|exact B]]|].
  exact (proj2 (proj2 (rising_and_setting_mirror fixture_jd fixture_longitude
                         fixture_latitude 90.833)) FT FX B).
Defined.

(** ** The helper hourAngle *)

(** X12: [hourAngle] for the rising is the negation of the one for the
    setting, and where the argument of the arccosine leaves [-1, 1]
    both are NaN: the helper has no error path either. *)
Theorem hourAngle_branches (lat decl angle : float) :
  hourAngle lat decl angle true = (- hourAngle lat decl angle false)%float
  /\ ((hourAngle_argument lat decl angle <? -1)%float
      || (1 <? hourAngle_argument lat decl angle)%float = true ->
      hourAngle lat decl angle false = nan /\ hourAngle lat decl angle true = nan).
Proof.
  split; [reflexivity|]. intros H.
  unfold hourAngle. cbv zeta. fold (hourAngle_argument lat decl angle).
  rewrite (Acos_outside _ H). split; reflexivity.
Qed.

Lemma hourAngle_branches_witness :
  (hourAngle_argument 70 (-0.4) 90.833 <? -1)%float
  || (1 <? hourAngle_argument 70 (-0.4) 90.833)%float = true
  /\ hourAngle 70 (-0.4) 90.833 true = nan.
Proof.
  assert (H : (hourAngle_argument 70 (-0.4) 90.833 <? -1)%float
              || (1 <? hourAngle_argument 70 (-0.4) 90.833)%float = true)
    by (vm_compute; reflexivity).
  split; [exact H|].
  exact (proj2 (proj2 (hourAngle_branches 70 (-0.4) 90.833) H)).
Defined.

(** X13: The helper [solarTransit] with the hour angles of [hourAngle]: the
    value for the rising is [J2000 + d] minus, and the value for the
    setting [J2000 + d] plus, the same quotient of the setting's hour
    angle by 2 pi; the longitude argument is never used. *)
Theorem solarTransit_mirror (d lng lng' lat decl angle : float) :
  let h := hourAngle lat decl angle false in
  solarTransit d lng (hourAngle lat decl angle true)
  = (J2000 + d - h / 0x1.921fb54442d18p+2)%float
  /\ solarTransit d lng h = (J2000 + d + h / 0x1.921fb54442d18p+2)%float
  /\ solarTransit d lng' h = solarTransit d lng h.
Proof.
  intros h. split; [|split; reflexivity].
  unfold solarTransit.
  replace (hourAngle lat decl angle true) with (- h)%float by reflexivity.
  now rewrite div_opp_l, add_opp_r.
Qed.

(** ** Rounding to places twice *)

Lemma Pow10_exact places :
  (0 <= places <= 15)%Z ->
  finite (math.Pow10 places) /\ B2R (math.Pow10 places) = IZR (10 ^ places)
  /\ 1 <= IZR (10 ^ places) <= bpow 50.
Proof.
  intros H.
  assert (B : (1 <= 10 ^ places <= 10 ^ 15)%Z).
  { split; [apply (Z.pow_le_mono_r 10 0 places); lia|apply Z.pow_le_mono_r; lia]. }
  destruct (of_int_exact (10 ^ places)) as [E F].
  { change (10 ^ 15)%Z with 1000000000000000%Z in B.
    change (2 ^ 53)%Z with 9007199254740992%Z. lia. }
  split; [exact F|]. split; [exact E|]. split; [apply IZR_le; lia|].
  rewrite <- IZR_pow2_bpow by lia. apply IZR_le.
  change (10 ^ 15)%Z with 1000000000000000%Z in B.
  change (2 ^ 50)%Z with 1125899906842624%Z. lia.
Qed.

(** A zero divided by a positive float and multiplied by it again, and
    rounded to an integer, is the same zero. *)
Lemma zero_through_factor (r f : float) :
  finite r -> B2R r = 0 -> finite f -> 0 < B2R f ->
  math.Round (r / f * f) = r.
Proof.
  unfold finite, B2R. intros Fr Er Ff Pf.
  assert (Z : exists s, Prim2SF r = S754_zero s).
  { destruct (Prim2SF r) as [s|s| |s m e]; try discriminate; [eauto|].
    exfalso. rewrite SF2R_finite in Er. pose proof (pos_mag_pos m e).
    destruct s; unfold signed in Er; lra. }
  destruct Z as [s Zr].
  assert (P : exists m e, Prim2SF f = S754_finite false m e).
  { destruct (Prim2SF f) as [sf|sf| |sf m e]; try discriminate; [simpl in Pf; lra|].
    destruct sf; [|eauto]. exfalso. rewrite SF2R_finite in Pf.
    pose proof (pos_mag_pos m e). unfold signed in Pf. lra. }
  destruct P as (m & e & Pf').
  assert (T : Prim2SF (r / f * f) = S754_zero s).
  { rewrite mul_spec, div_spec, Zr, Pf'. simpl. now destruct s. }
  apply Prim2SF_inj. unfold math.Round. rewrite T, Zr. exact T.
Qed.

(** X14: [roundToPlaces] is idempotent: a value already rounded to a number
    of places is returned as it is. *)
Theorem roundToPlaces_idempotent (v : float) (places : Z) :
  finite v -> (0 <= places <= 15)%Z ->
  Rabs (B2R v) * IZR (10 ^ places) <= bpow 49 ->
  roundToPlaces (roundToPlaces v places) places = roundToPlaces v places.
Proof.
  intros Fv Hp Hb. destruct (Pow10_exact places Hp) as (Ff & Ef & P1 & P2).
  unfold roundToPlaces. cbv zeta.
  set (f := math.Pow10 places) in *. clearbody f.
  set (P := IZR (10 ^ places)) in *. clearbody P.
  (* the first pass *)
  destruct (mul_step v f Fv Ff 49 ltac:(lia)) as (Ft & Et & _).
  { rewrite Ef, Rabs_mult, (Rabs_pos_eq P) by lra. exact Hb. }
  rewrite Ef in Et. apply Rabs_le_inv in Et.
  assert (Bt : Rabs (B2R v * P) <= bpow 49).
  { rewrite Rabs_mult, (Rabs_pos_eq P) by lra. exact Hb. }
  apply Rabs_le_inv in Bt.
  set (t := (v * f)%float) in *. clearbody t.
  destruct (Round_R t Ft) as (FR & (n & En) & ER & _). apply Rabs_le_inv in ER.
  set (R := math.Round t) in *. clearbody R.
  assert (Bn : Rabs (IZR n) <= bpow 49 + 1).
  { rewrite <- En. bpow_lit. apply Rabs_le. split; lra. }
  (* the quotient, multiplied back *)
  assert (Rw : Rrounded (B2R R / B2R f) (Prim2SF (R / f))).
  { apply div_R; auto; rewrite Ef; [lra|].
    apply Rle_lt_trans with (bpow 50); [|apply bpow_lt; lia].
    unfold Rdiv. rewrite Rabs_mult, Rabs_inv, (Rabs_pos_eq P), En by lra.
    apply Rle_trans with (Rabs (IZR n) * 1).
    - apply Rmult_le_compat_l; [apply Rabs_pos|].
      rewrite <- Rinv_1. apply Rinv_le_contravar; lra.
    - bpow_lit. lra. }
  pose proof (Rrounded_finite _ _ Rw) as Fw. fold (finite (R / f)) in Fw.
  destruct Rw as (_ & _ & Ew & _). fold (B2R (R / f)) in Ew.
  rewrite Ef, En in Ew.
  set (w := (R / f)%float) in *.
  assert (Eq : Rabs (B2R w * P - IZR n) <= bpow (-3) + bpow (-10)).
  { replace (B2R w * P - IZR n) with ((B2R w - IZR n / P) * P) by (field; lra).
    rewrite Rabs_mult, (Rabs_pos_eq P) by lra.
    apply Rle_trans with ((Rabs (IZR n / P) * bpow (-53) + bpow (-1075)) * P).
    { apply Rmult_le_compat_r; [lra|exact Ew]. }
    replace ((Rabs (IZR n / P) * bpow (-53) + bpow (-1075)) * P)
      with (Rabs (IZR n) * bpow (-53) + bpow (-1075) * P).
    2:{ unfold Rdiv. rewrite Rabs_mult, Rabs_inv, (Rabs_pos_eq P) by lra. field. lra. }
    apply Rplus_le_compat.
    - apply Rle_trans with ((bpow 49 + 1) * bpow (-53)).
      + apply Rmult_le_compat_r; [apply Rlt_le, bpow_gt_0|exact Bn].
      + bpow_lit. lra.
    - apply Rle_trans with (bpow (-60) * bpow 50).
      + apply Rmult_le_compat; try lra; try (apply Rlt_le, bpow_gt_0).
        apply bpow_le. lia.
      + rewrite <- bpow_plus. apply bpow_le. lia. }
  apply Rabs_le_inv in Eq.
  destruct (mul_step w f Fw Ff 50 ltac:(lia)) as (Ft' & Et' & _).
  { rewrite Ef. apply Rabs_le_inv in Bn. apply Rabs_le. bpow_lit. split; lra. }
  rewrite Ef in Et'. apply Rabs_le_inv in Et'.
  set (t' := (w * f)%float) in *.
  destruct (Round_R t' Ft') as (FR' & (n' & En') & ER' & _). apply Rabs_le_inv in ER'.
  assert (N : n' = n).
  { bpow_lit.
    assert (A : IZR (n' - n) < IZR 1) by (rewrite minus_IZR, <- En'; lra).
    assert (B : IZR (-1) < IZR (n' - n)) by (rewrite minus_IZR, <- En'; lra).
    apply lt_IZR in A, B. lia. }
  subst n'.
  assert (X : math.Round t' = R).
  { destruct (Z.eq_dec n 0) as [Z0|NZ].
    - subst n. subst t' w. apply zero_through_factor; auto. rewrite Ef. lra.
    - apply B2R_inj; auto; [now rewrite En', En|].
      rewrite En'. intros Y. apply eq_IZR in Y. contradiction. }
  now rewrite X.
Qed.

Lemma roundToPlaces_idempotent_witness :
  (finite 38.8587333 /\ (0 <= 7 <= 15)%Z
   /\ Rabs (B2R 38.8587333) * IZR (10 ^ 7) <= bpow 49)
  /\ roundToPlaces (roundToPlaces 38.8587333 7) 7 = roundToPlaces 38.8587333 7.
Proof.
  assert (H : Rabs (B2R 38.8587333) * IZR (10 ^ 7) <= bpow 49).
  { pose proof (proj2 fixture_decimal_in_range) as B.
    change (10 ^ 7)%Z with 10000000%Z. bpow_lit.
    pose proof (Rabs_pos (B2R 38.8587333)). lra. }
  assert (P : (0 <= 7 <= 15)%Z) by lia.
  split; [split; [reflexivity|split; [exact P|exact H]]|].
  exact (roundToPlaces_idempotent 38.8587333 7 (proj1 fixture_decimal_in_range) P H).
Defined.

(** ** Days and declinations that are not finite *)

Lemma nonfinite_cases (x : float) :
  SF_finite (Prim2SF x) = false -> x = nan \/ x = infinity \/ x = neg_infinity.
Proof.
  intros H. rewrite <- (SF2Prim_Prim2SF x).
  destruct (Prim2SF x) as [s|[|]| |s m e]; try discriminate; auto.
Qed.

Lemma sub_nonfinite_l (x y : float) :
  SF_finite (Prim2SF x) = false -> SF_finite (Prim2SF (x - y)) = false.
Proof.
  rewrite sub_spec.
  destruct (Prim2SF x) as [s|[|]| |s m e]; try discriminate; intros _;
    destruct (Prim2SF y) as [sy|[|]| |sy my ey]; reflexivity.
Qed.

Lemma mul_nan_r (x : float) : (x * nan)%float = nan.
Proof.
  apply Prim2SF_inj. rewrite mul_spec, Prim2SF_nan.
  destruct (Prim2SF x); reflexivity.
Qed.

Lemma add_nan_l (x : float) : (nan + x)%float = nan.
Proof. apply Prim2SF_inj. rewrite add_spec, Prim2SF_nan. reflexivity. Qed.

Lemma sub_nan_l (x : float) : (nan - x)%float = nan.
Proof. apply Prim2SF_inj. rewrite sub_spec, Prim2SF_nan. reflexivity. Qed.

Lemma Sin_M_nonfinite (Jstar : float) :
  SF_finite (Prim2SF Jstar) = false -> math.Sin (M_of Jstar) = nan.
Proof.
  intros H. destruct (nonfinite_cases Jstar H) as [-> | [-> | ->]];
    vm_compute; reflexivity.
Qed.

(** X15: A Julian day that is NaN or infinite gives no error either: the
    transit is NaN, and [calculateTime] returns the instant that
    [FromJulianDay] makes of NaN, for every place, angle and direction. *)
Theorem calculateTime_nonfinite_day (julianDay longitude latitude angle : float)
    (isSunrise : bool) :
  SF_finite (Prim2SF julianDay) = false ->
  Jset_of julianDay longitude latitude angle isSunrise = nan
  /\ calculateTime julianDay longitude latitude angle isSunrise
     = time.Round (FromJulianDay nan) time.Second.
Proof.
  intros H.
  assert (E : Jset_of julianDay longitude latitude angle isSunrise = nan).
  { unfold Jset_of, Jstar_of, Jtransit_of. cbv zeta.
    rewrite Sin_M_nonfinite by (apply sub_nonfinite_l, sub_nonfinite_l, H).
    now rewrite mul_nan_r, add_nan_r, sub_nan_l, add_nan_l. }
  split; [exact E|]. unfold calculateTime. now rewrite E.
Qed.

Lemma calculateTime_nonfinite_day_witness :
  SF_finite (Prim2SF infinity) = false
  /\ calculateTime infinity fixture_longitude fixture_latitude 90.833 true
     = time.Round (FromJulianDay nan) time.Second.
Proof.
  assert (H : SF_finite (Prim2SF infinity) = false) by reflexivity.
  split; [exact H|].
  exact (proj2 (calculateTime_nonfinite_day infinity fixture_longitude
                  fixture_latitude 90.833 true H)).
Defined.

(** X16: The helper [solarDeclination] answers NaN for every day that is not
    finite. *)
Theorem solarDeclination_nonfinite (d : float) :
  SF_finite (Prim2SF d) = false -> solarDeclination d = nan.
Proof.
  intros H. destruct (nonfinite_cases d H) as [-> | [-> | ->]];
    vm_compute; reflexivity.
Qed.

Lemma solarDeclination_nonfinite_witness :
  SF_finite (Prim2SF neg_infinity) = false /\ solarDeclination neg_infinity = nan.
Proof.
  assert (H : SF_finite (Prim2SF neg_infinity) = false) by reflexivity.
  split; [exact H|exact (solarDeclination_nonfinite neg_infinity H)].
Defined.

(** ** The value of a DMS decomposition *)

Lemma dms_of_value (x : float) :
  finite x -> 0 <= B2R x <= 180 ->
  IZR (Degrees (dms_of x)) <= B2R x < IZR (Degrees (dms_of x)) + 1
  /\ Rabs (IZR (Degrees (dms_of x)) + IZR (Minutes (dms_of x)) / 60
           + B2R (Seconds (dms_of x)) / 3600 - B2R x) <= 1 / 1000000.
Proof.
  intros Fx [Hx0 Hx1]. unfold dms_of. cbn [Degrees Minutes Seconds].
  destruct (to_int_floor x Fx) as (HD0 & HD); [split; [lra|]|].
  { apply Rle_lt_trans with 180; [lra|]. apply IZR_lt. reflexivity. }
  set (D := F64.to_int x) in *. clearbody D.
  assert (HD1 : (D <= 180)%Z) by (apply le_IZR; lra).
  destruct (sub_floor_exact x D Fx HD0 ltac:(lia) HD) as [F1 E1].
  set (f1 := (x - F64.of_int D)%float) in *. clearbody f1.
  destruct B2R_60 as [E60 F60].
  pose proof (times_60_below f1 F1 ltac:(lra)) as P60.
  destruct (mul_step f1 60 F1 F60 6 ltac:(lia)) as (F2 & E2 & S2 & _).
  { rewrite E60. apply Rabs_le; bpow_lit; split; lra. }
  rewrite E60 in *. specialize (S2 ltac:(lra)).
  set (p := (f1 * 60)%float) in *. clearbody p.
  apply Rabs_le_inv in E2. bpow_lit.
  destruct (to_int_floor p F2) as (HM0 & HM).
  { split; [lra|]. apply Rle_lt_trans with 100; [lra|]. apply IZR_lt. reflexivity. }
  set (Mn := F64.to_int p) in *. clearbody Mn.
  assert (HM1 : (Mn <= 59)%Z).
  { apply Z.lt_succ_r, lt_IZR. change (Z.succ 59) with 60%Z. lra. }
  destruct (sub_floor_exact p Mn F2 HM0 ltac:(lia) HM) as [F3 E3].
  set (q := (p - F64.of_int Mn)%float) in *. clearbody q.
  destruct B2R_pow10_4 as [E4 F4].
  destruct (roundToPlaces_R q 4 10000 14 3 F3 E4 F4) as (F5 & E5 & S5 & _);
    [lra|lia|lia| | |].
  { apply Rabs_le; bpow_lit; split; lra. }
  { bpow_lit. lra. }
  specialize (S5 ltac:(lra)).
  set (w := roundToPlaces q 4) in *. clearbody w.
  apply Rabs_le_inv in E5. bpow_lit.
  destruct (mul_step w 60 F5 F60 7 ltac:(lia)) as (F6 & E6 & _).
  { rewrite E60. apply Rabs_le; bpow_lit; split; lra. }
  rewrite E60 in *.
  set (sec := (w * 60)%float) in *. clearbody sec.
  apply Rabs_le_inv in E6. bpow_lit.
  split; [exact HD|]. apply Rabs_le. split; lra.
Qed.

(** X17: What [DecimalToDMS] returns, as a number: the degrees are the whole
    degrees of the magnitude, and degrees, minutes and seconds together
    are the magnitude to within a millionth of a degree. *)
Theorem DecimalToDMS_value (d : float) (isLatitude : bool) :
  finite d -> Rabs (B2R d) <= 180 ->
  IZR (Degrees (fst (DecimalToDMS d isLatitude))) <= Rabs (B2R d)
    < IZR (Degrees (fst (DecimalToDMS d isLatitude))) + 1
  /\ Rabs (IZR (Degrees (fst (DecimalToDMS d isLatitude)))
           + IZR (Minutes (fst (DecimalToDMS d isLatitude))) / 60
           + B2R (Seconds (fst (DecimalToDMS d isLatitude))) / 3600
           - Rabs (B2R d)) <= 1 / 1000000.
Proof.
  intros F H. rewrite DecimalToDMS_eq. cbn [fst].
  set (x := if (d <? 0)%float then math.Abs d else d).
  assert (X : finite x /\ B2R x = Rabs (B2R d)).
  { unfold x. destruct (d <? 0)%float eqn:L.
    - destruct (abs_R d) as [Ea Fa]. unfold math.Abs. auto.
    - split; [exact F|]. symmetry. apply Rabs_pos_eq.
      apply (ltb_R_false d 0 F) in L; [|apply B2R_0].
      destruct B2R_0 as [E0 _]. rewrite E0 in L. exact L. }
  destruct X as [Fx Ex]. rewrite <- Ex.
  apply dms_of_value; [exact Fx|]. rewrite Ex. split; [apply Rabs_pos|exact H].
Qed.

Lemma DecimalToDMS_value_witness :
  (finite 38.8587333 /\ Rabs (B2R 38.8587333) <= 180)
  /\ IZR (Degrees (fst (DecimalToDMS 38.8587333 true))) <= Rabs (B2R 38.8587333).
Proof.
  split; [exact fixture_decimal_in_range|].
  exact (proj1 (proj1 (DecimalToDMS_value 38.8587333 true
                         (proj1 fixture_decimal_in_range)
                         (proj2 fixture_decimal_in_range)))).
Defined.

(** ** Julian days with a time of day *)

(** The year of a day number up to 2^47 in magnitude. *)
Lemma civil_year_wide D :
  (- 2 ^ 47 <= D <= 2 ^ 47)%Z ->
  (- 10 ^ 12 <= fst (fst (time.civil_from_days D)) <= 10 ^ 12)%Z.
Proof.
  intros H. pose proof (civil_round_trip D) as R.
  destruct (time.civil_from_days D) as [[y m] d]. destruct R as (E & Hm & Hd).
  cbn [fst]. unfold time.days_from_civil in E. cbv zeta in E.
  change (2 ^ 47)%Z with 140737488355328%Z in H.
  change (10 ^ 12)%Z with 1000000000000%Z.
  destruct (Z.leb_spec m 2), (Z.ltb_spec 2 m); try lia; div_lia.
Qed.

(** A float of value at least 1: its mantissa and exponent. *)
Lemma positive_normal x :
  finite x -> 1 <= B2R x ->
  exists m e, Prim2SF x = S754_finite false m e
              /\ (2 ^ 52 <= Zpos m < 2 ^ 53)%Z /\ (-52 <= e <= 971)%Z
              /\ B2R x = IZR (Zpos m) * bpow e.
Proof.
  unfold finite, B2R. intros F H. pose proof (Prim2SF_valid x) as V.
  destruct (Prim2SF x) as [s|s| |s m e]; try discriminate; [simpl in H; lra|].
  rewrite SF2R_finite in *. pose proof (pos_mag_pos m e) as P.
  destruct s; [unfold signed in H; lra|]. unfold signed in *.
  apply valid_finite_inv in V as (Bm & Be & N & _).
  assert (He : (-52 <= e)%Z).
  { destruct (Z_le_gt_dec (-52) e) as [|G]; [assumption|exfalso].
    assert (A : IZR (Zpos m) * bpow e < bpow 53 * bpow (-53)).
    { apply IZR_lt in Bm. rewrite IZR_pow2_bpow in Bm by lia.
      assert (bpow e <= bpow (-53)) by (apply bpow_le; lia).
      pose proof (bpow_gt_0 e). pose proof (bpow_gt_0 53).
      apply Rlt_le_trans with (bpow 53 * bpow e);
        [apply Rmult_lt_compat_r; assumption|apply Rmult_le_compat_l; lra]. }
    rewrite <- bpow_plus in A. change (53 + -53)%Z with 0%Z in A. rewrite bpow_0 in A. lra. }
  exists m, e. split; [reflexivity|]. split; [|split; [lia|reflexivity]].
  destruct N as [N|N]; lia.
Qed.

(** Floats from 2^12 on are multiples of 2^-40. *)
Lemma grid_of_large y :
  finite y -> bpow 12 <= B2R y -> exists K : Z, B2R y = IZR K * bpow (-40).
Proof.
  intros F H.
  destruct (positive_normal y F) as (m & e & _ & Bm & Be & E).
  { apply Rle_trans with (bpow 12); [apply bpow_ge_1; lia|exact H]. }
  assert (He : (-40 <= e)%Z).
  { destruct (Z_le_gt_dec (-40) e) as [|G]; [assumption|exfalso].
    assert (A : IZR (Zpos m) * bpow e < bpow 53 * bpow (-41)).
    { destruct Bm as [_ Bm]. apply IZR_lt in Bm. rewrite IZR_pow2_bpow in Bm by lia.
      assert (bpow e <= bpow (-41)) by (apply bpow_le; lia).
      pose proof (bpow_gt_0 e). pose proof (bpow_gt_0 53).
      apply Rlt_le_trans with (bpow 53 * bpow e);
        [apply Rmult_lt_compat_r; assumption|apply Rmult_le_compat_l; lra]. }
    rewrite <- bpow_plus in A. change (53 + -41)%Z with 12%Z in A. lra. }
  exists (Zpos m * 2 ^ (e + 40))%Z.
  rewrite E, mult_IZR, IZR_pow2_bpow by lia.
  rewrite Rmult_assoc, <- bpow_plus. f_equal. f_equal. lia.
Qed.

(** The largest float below a power of two. *)
Lemma below_pow2 y j :
  finite y -> (-1000 <= j <= 1000)%Z -> B2R y < bpow j ->
  B2R y <= bpow j - bpow (j - 53).
Proof.
  unfold finite, B2R. intros F Hj H. pose proof (Prim2SF_valid y) as V.
  assert (G0 : bpow (j - 53) <= bpow (j - 1)) by (apply bpow_le; lia).
  assert (G1 : bpow j = 2 * bpow (j - 1)).
  { replace j with (1 + (j - 1))%Z at 1 by lia. now rewrite bpow_plus, bpow_1. }
  pose proof (bpow_gt_0 (j - 53)) as G2.
  destruct (Prim2SF y) as [s|s| |s m e]; try discriminate; cbn [SF2R SF_finite] in *; try lra.
  pose proof (pos_mag_pos m e) as P.
  destruct s; [lra|].
  apply valid_finite_inv in V as (Bm & Be & _ & _).
  pose proof (bpow_gt_0 e) as Pe.
  destruct (Z_le_gt_dec (j - 53) e) as [L|G].
  - assert (He : (e <= j)%Z).
    { destruct (Z_le_gt_dec e j) as [|G]; [assumption|exfalso].
      assert (1 <= IZR (Zpos m)) by (apply (IZR_le 1); lia).
      assert (bpow j <= bpow e) by (apply bpow_le; lia). nra. }
    assert (Hm : (Zpos m < 2 ^ (j - e))%Z).
    { apply lt_IZR. rewrite IZR_pow2_bpow by lia.
      apply Rmult_lt_reg_r with (bpow e); [exact Pe|].
      rewrite <- bpow_plus. replace (j - e + e)%Z with j by lia. exact H. }
    assert (Hm' : IZR (Zpos m) <= bpow (j - e) - 1).
    { rewrite <- IZR_pow2_bpow by lia. rewrite <- minus_IZR. apply IZR_le. lia. }
    assert (A : IZR (Zpos m) * bpow e <= bpow j - bpow e).
    { apply (Rmult_le_compat_r (bpow e)) in Hm'; [|lra].
      rewrite Rmult_minus_distr_r, <- bpow_plus in Hm'.
      replace (j - e + e)%Z with j in Hm' by lia. lra. }
    assert (bpow (j - 53) <= bpow e) by (apply bpow_le; lia). lra.
  - assert (A : IZR (Zpos m) * bpow e < bpow 53 * bpow (j - 54)).
    { apply IZR_lt in Bm. rewrite IZR_pow2_bpow in Bm by lia.
      assert (bpow e <= bpow (j - 54)) by (apply bpow_le; lia).
      pose proof (bpow_gt_0 53).
      apply Rlt_le_trans with (bpow 53 * bpow e);
        [apply Rmult_lt_compat_r; assumption|apply Rmult_le_compat_l; lra]. }
    rewrite <- bpow_plus in A. replace (53 + (j - 54))%Z with (j - 1)%Z in A by lia. lra.
Qed.

(** Adding one half to a float between 1 and 2^51 does not move it
    across a whole number. *)
Lemma floor_add_half x k :
  finite x -> 1 <= B2R x <= bpow 51 ->
  IZR k <= B2R x + / 2 < IZR k + 1 ->
  finite (x + 0.5) /\ IZR k <= B2R (x + 0.5) < IZR k + 1.
Proof.
  intros F [H1 H2] Hk.
  destruct (positive_normal x F H1) as (m & e & _ & Bm & Be & E).
  destruct B2R_half as [Eh Fh].
  assert (Hs : Rabs (B2R x + B2R 0.5) < bpow 1023).
  { rewrite Eh. apply Rle_lt_trans with (bpow 52); [|apply bpow_lt; lia].
    apply Rabs_le. bpow_lit. bpow_lit. split; lra. }
  pose proof (add_R x 0.5 F Fh Hs) as R. rewrite Eh in R.
  replace (IZR 1 / 2) with (/ 2) in R by lra.
  split; [apply (Rrounded_finite _ _ R)|].
  pose proof (bpow_gt_0 e) as Pe.
  assert (He : (e <= -1)%Z).
  { destruct (Z_le_gt_dec e (-1)) as [|G]; [assumption|exfalso].
    assert (A : bpow 52 * bpow 0 <= IZR (Zpos m) * bpow e).
    { apply Rmult_le_compat; try (apply Rlt_le, bpow_gt_0).
      - rewrite <- IZR_pow2_bpow by lia. apply IZR_le. lia.
      - apply bpow_le. lia. }
    rewrite bpow_0, Rmult_1_r in A.
    assert (bpow 51 < bpow 52) by (apply bpow_lt; lia). lra. }
  set (K := (Zpos m + 2 ^ (- e - 1))%Z).
  assert (Es : B2R x + / 2 = IZR K * bpow e).
  { unfold K. rewrite plus_IZR, IZR_pow2_bpow by lia.
    rewrite Rmult_plus_distr_r, <- bpow_plus, E.
    replace (- e - 1 + e)%Z with (-1)%Z by lia. now rewrite bpow_m1. }
  destruct (Z_lt_ge_dec K (2 ^ 53 + 1)) as [Small|Big].
  - (* the sum is a float *)
    assert (X : B2R (x + 0.5) = B2R x + / 2).
    { destruct R as (_ & _ & _ & X & _). apply X. rewrite Es.
      destruct (Z.eq_dec K (2 ^ 53)) as [EK|NK].
      - exists (2 ^ 52)%Z, (e + 1)%Z. split; [|split; [simpl; lia|lia]].
        rewrite EK, bpow_plus, bpow_1, !IZR_pow2_bpow by lia.
        replace (bpow 53) with (bpow 52 * 2); [ring|].
        rewrite <- bpow_1, <- bpow_plus. reflexivity.
      - exists K, e. split; [reflexivity|]. unfold K in *. split; lia. }
    rewrite X. exact Hk.
  - (* the sum lies just above the power of two e + 53 *)
    set (j := (e + 53)%Z). assert (Hj : (1 <= j <= 52)%Z) by (unfold j; lia).
    assert (EB : bpow j = bpow 53 * bpow e) by (unfold j; rewrite Z.add_comm; apply bpow_plus).
    assert (LB : bpow j + bpow e <= B2R x + / 2).
    { rewrite Es, EB. replace (bpow 53 * bpow e + bpow e) with ((bpow 53 + 1) * bpow e) by ring.
      apply Rmult_le_compat_r; [lra|].
      rewrite <- IZR_pow2_bpow by lia. rewrite <- plus_IZR. apply IZR_le. lia. }
    assert (UB : B2R x < bpow j).
    { rewrite E, EB. apply Rmult_lt_compat_r; [exact Pe|].
      rewrite <- IZR_pow2_bpow by lia. apply IZR_lt. lia. }
    assert (Ek : IZR k = bpow j).
    { rewrite <- (IZR_pow2_bpow j) by lia. f_equal.
      assert (A : IZR (k - 2 ^ j) < IZR 1).
      { rewrite minus_IZR, IZR_pow2_bpow by lia. lra. }
      assert (B : IZR (-1) < IZR (k - 2 ^ j)).
      { rewrite minus_IZR, IZR_pow2_bpow by lia. lra. }
      apply lt_IZR in A, B. lia. }
    assert (J51 : bpow j <= bpow 51 + / 2) by lra.
    destruct R as (_ & Fy & Er & _). fold (finite (x + 0.5)) in Fy. fold (B2R (x + 0.5)) in Er.
    rewrite (Rabs_pos_eq (B2R x + / 2)) in Er by lra. apply Rabs_le_inv in Er.
    assert (T : bpow (-1075) < bpow (-60)) by (apply bpow_lt; lia).
    assert (U : bpow j * bpow (-53) = bpow e).
    { rewrite EB, (Rmult_comm (bpow 53)), Rmult_assoc, <- bpow_plus.
      change (53 + -53)%Z with 0%Z. now rewrite bpow_0, Rmult_1_r. }
    assert (He2 : (e <= -2)%Z).
    { destruct (Z.eq_dec e (-1)) as [E1|]; [|lia]. exfalso. subst e.
      unfold K in Big. change (2 ^ (- -1 - 1))%Z with 1%Z in Big. lia. }
    assert (V : bpow e <= / 4).
    { apply Rle_trans with (bpow (-2)); [apply bpow_le; lia|]. bpow_lit. lra. }
    rewrite Ek. split.
    + (* not below the power of two *)
      apply Rnot_lt_le. intros Lt.
      pose proof (below_pow2 (x + 0.5) j Fy ltac:(lia) Lt) as G.
      replace (j - 53)%Z with e in G by (unfold j; lia).
      assert (W : (B2R x + / 2) * bpow (-53) <= bpow e + bpow (-53)).
      { rewrite Rmult_plus_distr_r.
        assert (B2R x * bpow (-53) <= bpow j * bpow (-53)).
        { apply Rmult_le_compat_r; [apply Rlt_le, bpow_gt_0|lra]. }
        pose proof (bpow_gt_0 (-53)). nra. }
      assert (S53 : bpow (-53) + bpow (-60) < bpow (-52) ).
      { bpow_lit. lra. }
      assert (E52 : bpow (-52) <= bpow e) by (apply bpow_le; lia).
      bpow_lit. lra.
    + assert (W : (B2R x + / 2) * bpow (-53) <= bpow e + bpow (-53)).
      { rewrite Rmult_plus_distr_r.
        assert (B2R x * bpow (-53) <= bpow j * bpow (-53)).
        { apply Rmult_le_compat_r; [apply Rlt_le, bpow_gt_0|lra]. }
        pose proof (bpow_gt_0 (-53)). nra. }
      bpow_lit. lra.
Qed.

(** [math.Modf] of a float of value at least 1: the whole part and the
    rest, both without rounding. *)
Lemma Modf_floor y k :
  finite y -> 1 <= B2R y -> (0 <= k < 2 ^ 53)%Z ->
  IZR k <= B2R y < IZR k + 1 ->
  finite (fst (math.Modf y)) /\ B2R (fst (math.Modf y)) = IZR k
  /\ finite (snd (math.Modf y)) /\ B2R (snd (math.Modf y)) = B2R y - IZR k.
Proof.
  intros F P Hk H. unfold math.Modf.
  destruct B2R_0 as [E0 F0]. destruct B2R_1 as [E1 F1].
  replace (y <? 0)%float with false
    by (symmetry; apply (ltb_R_false y 0 F F0); lra).
  unfold math.Modf_pos.
  replace (y <? 1)%float with false
    by (symmetry; apply (ltb_R_false y 1 F F1); lra).
  assert (T : F64.trunc y = k).
  { destruct (trunc_R y F) as [Hp _]. destruct Hp as [A B]; [lra|].
    assert (A' : IZR (F64.trunc y) < IZR (k + 1)) by (rewrite plus_IZR; lra).
    assert (B' : IZR (k - 1) < IZR (F64.trunc y)) by (rewrite minus_IZR; lra).
    apply lt_IZR in A', B'. lia. }
  destruct (sub_floor_exact y k F ltac:(lia) ltac:(lia) H) as [Fs Es].
  destruct (of_int_exact k) as [Ei Fi]; [lia|].
  unfold finite, B2R in F, H, P.
  destruct (Prim2SF y) as [s|s| |s m e] eqn:Ey; try discriminate; [simpl in P; lra|].
  destruct (Z.leb_spec 0 e) as [L|L]; cbn [fst snd].
  - (* a whole number already *)
    rewrite SF2R_finite in H, P. pose proof (pos_mag_pos m e).
    destruct s; [unfold signed in P; lra|]. unfold signed in H.
    assert (X : IZR (Zpos m * 2 ^ e) = IZR (Zpos m) * bpow e)
      by now rewrite mult_IZR, IZR_pow2_bpow.
    rewrite <- X in H.
    assert (Ek : (Zpos m * 2 ^ e)%Z = k).
    { destruct H as [A B]. rewrite <- (plus_IZR k 1) in B.
      apply le_IZR in A. apply lt_IZR in B. lia. }
    assert (Ev : B2R y = IZR k).
    { unfold B2R. rewrite Ey, SF2R_finite. unfold signed. now rewrite <- X, Ek. }
    assert (Fy : finite y) by (unfold finite; now rewrite Ey).
    split; [exact Fy|]. split; [exact Ev|].
    assert (R : Rrounded (B2R y - B2R y) (Prim2SF (y - y))).
    { apply sub_R; auto. rewrite Rminus_diag, Rabs_R0. apply bpow_gt_0. }
    split; [apply (Rrounded_finite _ _ R)|].
    destruct R as (_ & _ & _ & Z & _). unfold B2R at 1.
    rewrite Z; [rewrite Ev; ring|].
    rewrite Rminus_diag. exists 0%Z, 0%Z. split; [ring|]. split; [simpl; lia|lia].
  - rewrite T. auto.
Qed.

(** Sums and products of multiples of a power of two, without rounding. *)
Lemma add_grid x y a b e :
  finite x -> finite y -> B2R x = IZR a * bpow e -> B2R y = IZR b * bpow e ->
  (Z.abs (a + b) < 2 ^ 53)%Z -> (-1074 <= e <= 900)%Z ->
  finite (x + y) /\ B2R (x + y) = IZR (a + b) * bpow e.
Proof.
  intros Fx Fy Ex Ey H He.
  assert (E : B2R x + B2R y = IZR (a + b) * bpow e) by (rewrite Ex, Ey, plus_IZR; ring).
  assert (R : Rrounded (B2R x + B2R y) (Prim2SF (x + y))).
  { apply add_R; auto. rewrite E, Rabs_mult, (Rabs_pos_eq (bpow e)), <- abs_IZR
      by apply Rlt_le, bpow_gt_0.
    apply Rlt_le_trans with (bpow 53 * bpow e).
    - apply Rmult_lt_compat_r; [apply bpow_gt_0|].
      rewrite <- IZR_pow2_bpow by lia. now apply IZR_lt.
    - rewrite <- bpow_plus. apply bpow_le. lia. }
  rewrite E in R. split; [apply (Rrounded_finite _ _ R)|].
  destruct R as (_ & _ & _ & X & _). apply X. exists (a + b)%Z, e. repeat split; [assumption|lia].
Qed.

Lemma mul_grid x y a b e :
  finite x -> finite y -> B2R x = IZR a * bpow e -> B2R y = IZR b ->
  (Z.abs (a * b) < 2 ^ 53)%Z -> (-1074 <= e <= 900)%Z ->
  finite (x * y) /\ B2R (x * y) = IZR (a * b) * bpow e.
Proof.
  intros Fx Fy Ex Ey H He.
  assert (E : B2R x * B2R y = IZR (a * b) * bpow e) by (rewrite Ex, Ey, mult_IZR; ring).
  assert (R : Rrounded (B2R x * B2R y) (Prim2SF (x * y))).
  { apply mul_R; auto. rewrite E, Rabs_mult, (Rabs_pos_eq (bpow e)), <- abs_IZR
      by apply Rlt_le, bpow_gt_0.
    apply Rlt_le_trans with (bpow 53 * bpow e).
    - apply Rmult_lt_compat_r; [apply bpow_gt_0|].
      rewrite <- IZR_pow2_bpow by lia. now apply IZR_lt.
    - rewrite <- bpow_plus. apply bpow_le. lia. }
  rewrite E in R. split; [apply (Rrounded_finite _ _ R)|].
  destruct R as (_ & _ & _ & X & _). apply X. exists (a * b)%Z, e. repeat split; [assumption|lia].
Qed.

(** [CalendarGregorianToJD] of a whole day, for years up to 10^12 in
    magnitude. *)
Lemma CalendarGregorianToJD_exact_wide y m d :
  (- 10 ^ 12 <= y <= 10 ^ 12)%Z -> (1 <= m <= 12)%Z -> (1 <= d <= 31)%Z ->
  finite (julian.CalendarGregorianToJD y m (F64.of_int d))
  /\ B2R (julian.CalendarGregorianToJD y m (F64.of_int d))
     = IZR (2 * time.days_from_civil y m d + 4881175) / 2.
Proof.
  intros Hy Hm Hd. change (10 ^ 12)%Z with 1000000000000%Z in Hy.
  replace (2 * time.days_from_civil y m d + 4881175)%Z
    with (2 * meeus_days y m d - 3049)%Z by (rewrite meeus_days_civil; lia).
  unfold julian.CalendarGregorianToJD, meeus_days, julian.FloorDiv.
  set (ym := if ((m =? 1)%Z || (m =? 2)%Z)%bool then ((y - 1)%Z, (m + 12)%Z) else (y, m)).
  assert (B : (-1000000000001 <= fst ym <= 1000000000000)%Z /\ (3 <= snd ym <= 14)%Z).
  { subst ym. destruct (Z.eqb_spec m 1), (Z.eqb_spec m 2); cbn [orb fst snd]; lia. }
  destruct ym as [y' m']. cbn [fst snd] in B. destruct B as [By Bm]. cbv zeta.
  rewrite wrap64_small by lia.
  set (J1 := (36525 * (y' + 4716) / 100)%Z).
  set (J2 := (306 * (m' + 1) / 10 + (2 - y' / 100 + y' / 100 / 4))%Z).
  assert (B1 : (Z.abs J1 < 2 ^ 50)%Z) by (subst J1; div_lia).
  assert (B2 : (Z.abs J2 < 2 ^ 40)%Z) by (subst J2; div_lia).
  clearbody J1 J2.
  destruct (of_int_exact J1) as [E1 F1]; [lia|].
  destruct (of_int_exact J2) as [E2 F2]; [lia|].
  destruct (of_int_exact d) as [E3 F3]; [lia|].
  destruct (add_int _ _ _ _ F1 F2 E1 E2) as [F4 E4]; [lia|].
  destruct (add_int _ _ _ _ F4 F3 E4 E3) as [F5 E5]; [lia|].
  rewrite twice_half in E5. destruct B2R_1524_5 as [E6 F6].
  destruct (sub_half _ _ _ _ F5 F6 E5 E6) as [F7 E7]; [lia|].
  split; [exact F7|]. rewrite E7. apply (f_equal (fun k => IZR k / 2)). lia.
Qed.

(** [ToJulianDay] of an instant up to 2^47 days from the epoch. *)
Lemma ToJulianDay_exact_wide t :
  (- 2 ^ 47 <= t / time.ns_per_day <= 2 ^ 47)%Z ->
  finite (ToJulianDay t)
  /\ B2R (ToJulianDay t) = IZR (2 * (t / time.ns_per_day) + 4881175) / 2.
Proof.
  intros HD. unfold ToJulianDay, time.UTC, time.Year, time.Month, time.Day, time.date_of.
  set (D := (t / time.ns_per_day)%Z) in *.
  pose proof (civil_round_trip D) as R. pose proof (civil_year_wide D HD) as Y.
  destruct (time.civil_from_days D) as [[y m] d]. cbn [fst snd] in *.
  destruct R as (E & Hm & Hd). rewrite <- E.
  apply CalendarGregorianToJD_exact_wide; lia.
Qed.

(** The calendar date that [jdToCalendarGregorian] finds for a Julian day
    of the civil day k, from the Julian day 4096 on (the year -4701): the
    year, the month and the day of the month are the ones of day k, and
    the fraction of the day, a multiple of 2^-40 below 1, is added to the
    day of the month without rounding. *)
Lemma jdToCalendarGregorian_day x k :
  finite x -> bpow 12 <= B2R x <= bpow 46 + 1 ->
  IZR k - 1 / 2 <= B2R x < IZR k + 1 / 2 ->
  exists f K,
    julian.jdToCalendarGregorian x
    = (fst (meeus_date k), (F64.of_int (snd (meeus_date k)) + f)%float)
    /\ finite f /\ B2R f = IZR K * bpow (-40) /\ (0 <= K < 2 ^ 40)%Z
    /\ (4096 <= k <= 2 ^ 46 + 1)%Z.
Proof.
  intros F B H.
  assert (P12 : bpow 12 = 4096) by (bpow_lit; lra).
  assert (P46 : bpow 46 = IZR (2 ^ 46)) by (rewrite IZR_pow2_bpow; [reflexivity|lia]).
  assert (Hk : (4096 <= k <= 2 ^ 46 + 1)%Z).
  { rewrite P12, P46 in B. split.
    - assert (A : IZR 4095 < IZR k) by lra. apply lt_IZR in A. lia.
    - assert (A : IZR k < IZR (2 ^ 46 + 2)) by (rewrite plus_IZR; lra).
      apply lt_IZR in A. lia. }
  assert (P51 : bpow 46 + 1 <= bpow 51).
  { assert (bpow 47 <= bpow 51) by (apply bpow_le; lia).
    assert (bpow 47 = 2 * bpow 46) by (change 47%Z with (1 + 46)%Z; now rewrite bpow_plus, bpow_1).
    assert (1 <= bpow 46) by (apply bpow_ge_1; lia). lra. }
  destruct (floor_add_half x k F) as [Fy Hy]; [rewrite P12 in B; lra|lra|].
  assert (Ck : 4096 <= IZR k) by (apply IZR_le; lia).
  destruct (Modf_floor (x + 0.5) k Fy) as (Fi & Ei & Ff & Ef); [lra| |exact Hy|].
  { change (2 ^ 46)%Z with 70368744177664%Z in Hk.
    change (2 ^ 53)%Z with 9007199254740992%Z. lia. }
  destruct (grid_of_large (x + 0.5) Fy) as [K0 EK]; [rewrite P12; lra|].
  unfold julian.jdToCalendarGregorian.
  destruct (math.Modf (x + 0.5)) as [zf f]. cbn [fst snd] in Fi, Ei, Ff, Ef.
  destruct (to_int_exact zf k Fi Ei) as [-> _].
  { change (2 ^ 46)%Z with 70368744177664%Z in Hk.
    change (2 ^ 63)%Z with 9223372036854775808%Z. lia. }
  exists f, (K0 - k * 2 ^ 40)%Z.
  assert (Eg : B2R f = IZR (K0 - k * 2 ^ 40) * bpow (-40)).
  { rewrite Ef, EK, minus_IZR, mult_IZR, (IZR_pow2_bpow 40) by lia.
    assert (X : bpow 40 * bpow (-40) = 1).
    { rewrite <- bpow_plus. change (40 + -40)%Z with 0%Z. apply bpow_0. }
    rewrite Rmult_minus_distr_r, Rmult_assoc, X. ring. }
  assert (Bf : (0 <= K0 - k * 2 ^ 40 < 2 ^ 40)%Z).
  { assert (A : 0 <= B2R f < 1) by lra. rewrite Eg in A.
    pose proof (bpow_gt_0 (-40)) as G.
    assert (X : bpow 40 * bpow (-40) = 1).
    { rewrite <- bpow_plus. change (40 + -40)%Z with 0%Z. apply bpow_0. }
    split.
    - apply le_IZR. destruct A as [A _].
      apply Rmult_le_reg_r with (bpow (-40)); [exact G|]. lra.
    - apply lt_IZR. rewrite (IZR_pow2_bpow 40) by lia. destruct A as [_ A].
      apply Rmult_lt_reg_r with (bpow (-40)); [exact G|]. lra. }
  split; [|auto].
  unfold julian.FloorDiv, meeus_date. cbv zeta.
  change (2 ^ 46)%Z with 70368744177664%Z in Hk.
  repeat match goal with
  | |- context [julian.wrap64 ?x] => rewrite (wrap64_small x) by div_lia
  end.
  reflexivity.
Qed.

(** [JDToTime] of a Julian day of the civil day k: an instant of that
    day.  The day of the month with its fraction and its product by 24
    are exact; the product by the nanoseconds of an hour is rounded by
    less than a nanosecond, and the fraction, a multiple of 2^-40, keeps
    it 78 ns away from the next midnight. *)
Lemma JDToTime_day x k :
  finite x -> bpow 12 <= B2R x <= bpow 46 + 1 ->
  IZR k - 1 / 2 <= B2R x < IZR k + 1 / 2 ->
  ((k - 2440588) * time.ns_per_day <= julian.JDToTime x
   < (k - 2440588 + 1) * time.ns_per_day)%Z.
Proof.
  intros F B H.
  destruct (jdToCalendarGregorian_day x k F B H) as (f & K & E & Ff & Ef & HK & Hk).
  unfold julian.JDToTime. rewrite E. clear E.
  assert (M : meeus_date k = time.civil_from_days (k - 2440588)).
  { rewrite <- meeus_date_civil. f_equal. lia. }
  rewrite M. clear M.
  pose proof (civil_round_trip (k - 2440588)) as R.
  destruct (time.civil_from_days (k - 2440588)) as [[y m] d]. cbn [fst snd].
  destruct R as (R & Hm & Hd).
  change (2 ^ 40)%Z with 1099511627776%Z in HK.
  (* the day of the month and the fraction *)
  destruct (of_int_exact d) as [E1 F1]; [lia|].
  assert (E1' : B2R (F64.of_int d) = IZR (d * 1099511627776) * bpow (-40)).
  { rewrite E1, mult_IZR. bpow_lit. field. }
  destruct (add_grid _ _ _ _ _ F1 Ff E1' Ef) as [F2 E2];
    [change (2 ^ 53)%Z with 9007199254740992%Z; lia|lia|].
  destruct B2R_24 as [E24 F24].
  destruct (mul_grid _ _ _ _ _ F2 F24 E2 E24) as [F3 E3];
    [change (2 ^ 53)%Z with 9007199254740992%Z; lia|lia|].
  destruct (of_int_exact time.Hour) as [E4 F4]; [vm_compute; reflexivity|].
  change (IZR time.Hour) with (IZR 3600000000000) in E4.
  set (p := ((F64.of_int d + f) * 24 * F64.of_int time.Hour)%float).
  set (s := ((F64.of_int d + f) * 24)%float) in *.
  assert (Bd : 1 <= IZR d <= 31) by (split; apply IZR_le; lia).
  assert (BK : 0 <= IZR K <= 1099511627775) by (split; apply IZR_le; lia).
  assert (V : B2R s * B2R (F64.of_int time.Hour)
              = (IZR d + IZR K / 1099511627776) * 86400000000000).
  { rewrite E3, E4, mult_IZR, plus_IZR, mult_IZR. bpow_lit. field. }
  assert (R0 : Rrounded (B2R s * B2R (F64.of_int time.Hour)) (Prim2SF p)).
  { apply mul_R; auto. rewrite V, Rabs_pos_eq by lra.
    apply Rlt_trans with (bpow 52); [bpow_lit; lra|apply bpow_lt; lia]. }
  assert (Fp : finite p) by apply (Rrounded_finite _ _ R0).
  assert (Er : Rabs (B2R p - B2R s * B2R (F64.of_int time.Hour)) <= 1).
  { replace 1 with (bpow (52 - 52)) by (change (52 - 52)%Z with 0%Z; apply bpow_0).
    apply (Rrounded_err _ _ 52 R0); [|lia].
    rewrite V, Rabs_pos_eq by lra. bpow_lit. lra. }
  assert (Ex : K = 0%Z -> B2R p = IZR d * 86400000000000).
  { intros ->. destruct R0 as (_ & _ & _ & X & _). unfold B2R at 1. rewrite X.
    - rewrite V. lra.
    - rewrite V. replace ((IZR d + IZR 0 / 1099511627776) * 86400000000000)
        with (IZR (d * 86400000000000)) by (rewrite mult_IZR; lra).
      apply representable_int. change (2 ^ 53)%Z with 9007199254740992%Z. lia. }
  rewrite V in Er. apply Rabs_le_inv in Er.
  destruct (trunc_R p Fp) as [Tp _].
  assert (P0 : 0 <= B2R p).
  { destruct (Z.eq_dec K 0) as [Z0|N0]; [rewrite (Ex Z0); lra|lra]. }
  specialize (Tp P0).
  assert (Ti : F64.to_int p = F64.trunc p).
  { apply to_int_trunc; [exact Fp|]. rewrite Rabs_pos_eq by exact P0.
    change (2 ^ 63)%Z with 9223372036854775808%Z. lra. }
  rewrite Ti.
  assert (L : (d * 86400000000000 <= F64.trunc p)%Z).
  { destruct (Z.eq_dec K 0) as [Z0|N0].
    - specialize (Ex Z0).
      assert (A : IZR (d * 86400000000000 - 1) < IZR (F64.trunc p))
        by (rewrite minus_IZR, mult_IZR; lra).
      apply lt_IZR in A. lia.
    - assert (1 <= IZR K) by (apply IZR_le; lia).
      assert (A : IZR (d * 86400000000000) < IZR (F64.trunc p))
        by (rewrite mult_IZR; lra).
      apply lt_IZR in A. lia. }
  assert (U : (F64.trunc p < (d + 1) * 86400000000000)%Z).
  { apply lt_IZR. rewrite mult_IZR, plus_IZR. lra. }
  rewrite Date_in_year by lia. unfold time.Add.
  rewrite <- R, (days_from_civil_day y m d).
  change time.ns_per_day with 86400000000000%Z. lia.
Qed.

(** The instant that [FromJulianDay] returns for a Julian day of the
    civil day k lies on the day k - 2440588 after 1970-01-01. *)
Lemma FromJulianDay_day x k :
  finite x -> bpow 12 <= B2R x <= bpow 46 + 1 ->
  IZR k - 1 / 2 <= B2R x < IZR k + 1 / 2 ->
  (FromJulianDay x / time.ns_per_day = k - 2440588)%Z.
Proof.
  intros F B H. pose proof (JDToTime_day x k F B H) as D. unfold FromJulianDay.
  change time.ns_per_day with 86400000000000%Z in *. div_lia.
Qed.

(** [JulianToUTC] from the Julian day number 4097 (the year -4701) to
    2^46: when the float64 sum [julian + 0.5] lies on the civil day n,
    the instant of [FromJulianDay] lies on that day, and the result is
    the Julian day n - 1/2 of its midnight. *)
Lemma JulianToUTC_day jd n :
  (4097 <= n <= 2 ^ 46)%Z -> on_civil_day n (jd + 0.5) ->
  (FromJulianDay (jd + 0.5) / time.ns_per_day = n - 2440588)%Z
  /\ finite (JulianToUTC jd) /\ B2R (JulianToUTC jd) = IZR n - 1 / 2.
Proof.
  intros Hn [F H].
  assert (B : bpow 12 <= B2R (jd + 0.5) <= bpow 46 + 1).
  { assert (P12 : bpow 12 = 4096) by (bpow_lit; lra).
    assert (P46 : bpow 46 = IZR (2 ^ 46)) by (rewrite IZR_pow2_bpow; [reflexivity|lia]).
    assert (A1 : 4097 <= IZR n) by (apply IZR_le; lia).
    assert (A2 : IZR n <= IZR (2 ^ 46)) by (apply IZR_le; lia).
    rewrite P12, P46. lra. }
  pose proof (FromJulianDay_day _ n F B H) as D. split; [exact D|].
  unfold JulianToUTC, time.UTC. cbv zeta.
  destruct (ToJulianDay_exact_wide (FromJulianDay (jd + 0.5))) as [Ft Et].
  { rewrite D. change (2 ^ 46)%Z with 70368744177664%Z in Hn.
    change (2 ^ 47)%Z with 140737488355328%Z. lia. }
  split; [exact Ft|]. rewrite Et, D.
  replace (2 * (n - 2440588) + 4881175)%Z with (2 * n - 1)%Z by lia.
  rewrite minus_IZR, mult_IZR. lra.
Qed.

(** C10, from the Julian day number 4097 (the year -4701) to 2^46: when
    the float64 sum [jd + 0.5] that [JulianToUTC] computes lies on the
    civil day n, from the midnight n - 1/2 up to the midnight n + 1/2,
    [JulianToUTC jd] is the finite float of value n - 1/2, the Julian
    day of the midnight that begins that day; and when [jd' + 0.5] lies
    on the same civil day, [JulianToUTC] returns the same float for
    [jd'], so that each of the eight event functions returns for [jd']
    what it returns for [jd]. *)
Theorem events_depend_on_civil_day (jd jd' longitude latitude : float) (n : Z) :
  (4097 <= n <= 2 ^ 46)%Z ->
  on_civil_day n (jd + 0.5) -> on_civil_day n (jd' + 0.5) ->
  (finite (JulianToUTC jd) /\ B2R (JulianToUTC jd) = IZR n - 1 / 2)
  /\ JulianToUTC jd' = JulianToUTC jd
  /\ Sunrise jd' longitude latitude = Sunrise jd longitude latitude
  /\ Sunset jd' longitude latitude = Sunset jd longitude latitude
  /\ CivilTwilightSunrise jd' longitude latitude = CivilTwilightSunrise jd longitude latitude
  /\ CivilTwilightSunset jd' longitude latitude = CivilTwilightSunset jd longitude latitude
  /\ NauticalTwilightSunrise jd' longitude latitude
     = NauticalTwilightSunrise jd longitude latitude
  /\ NauticalTwilightSunset jd' longitude latitude
     = NauticalTwilightSunset jd longitude latitude
  /\ AstronomicalTwilightSunrise jd' longitude latitude
     = AstronomicalTwilightSunrise jd longitude latitude
  /\ AstronomicalTwilightSunset jd' longitude latitude
     = AstronomicalTwilightSunset jd longitude latitude.
Proof.
  intros Hn H H'.
  destruct (JulianToUTC_day jd n Hn H) as (D & F & V).
  destruct (JulianToUTC_day jd' n Hn H') as (D' & _ & _).
  assert (E : JulianToUTC jd' = JulianToUTC jd).
  { unfold JulianToUTC, ToJulianDay, time.UTC, time.Year, time.Month, time.Day,
      time.date_of. cbv zeta. now rewrite D, D'. }
  split; [split; [exact F|exact V]|].
  unfold Sunrise, Sunset, CivilTwilightSunrise, CivilTwilightSunset,
    NauticalTwilightSunrise, NauticalTwilightSunset,
    AstronomicalTwilightSunrise, AstronomicalTwilightSunset.
  rewrite E. repeat split.
Qed.

Lemma events_depend_on_civil_day_witness :
  (4097 <= 2460683 <= 2 ^ 46)%Z
  /\ on_civil_day 2460683 (fixture_jd + 0.5)
  /\ on_civil_day 2460683 (afternoon_jd + 0.5)
  /\ B2R (JulianToUTC fixture_jd) = IZR 2460683 - 1 / 2
  /\ Sunrise afternoon_jd fixture_longitude fixture_latitude
     = Sunrise fixture_jd fixture_longitude fixture_latitude.
Proof.
  assert (Hn : (4097 <= 2460683 <= 2 ^ 46)%Z) by (vm_compute; split; discriminate).
  assert (H : on_civil_day 2460683 (fixture_jd + 0.5)).
  { split; [reflexivity|].
    destruct (B2R_literal (fixture_jd + 0.5) 5284276505411584 (-31) eq_refl) as [E _].
    rewrite E. bpow_lit. lra. }
  assert (H' : on_civil_day 2460683 (afternoon_jd + 0.5)).
  { split; [reflexivity|].
    destruct (B2R_literal (afternoon_jd + 0.5) 5284277042282496 (-31) eq_refl) as [E _].
    rewrite E. bpow_lit. lra. }
  split; [exact Hn|]. split; [exact H|]. split; [exact H'|].
  pose proof (events_depend_on_civil_day fixture_jd afternoon_jd fixture_longitude
                fixture_latitude 2460683 Hn H H') as T.
  split; [exact (proj2 (proj1 T))|exact (proj1 (proj2 (proj2 T)))].
Defined.

(** C10 as stated fails at the start of the Julian day count.  The sums
    -2^-54 + 0.5 and -0.25 + 0.5 are exact and both lie on the civil day
    0, which runs from the Julian day -0.5 to 0.5 (the 24th of November
    -4713).  [JulianToUTC] returns -0.5, the midnight of that day, for
    the second, but 0.5, the midnight of the day after, for the first:
    [jdToCalendarGregorian] adds 0.5 once more, and 1 - 2^-54 rounds to
    1.  The sunrises of the two differ. *)
Lemma JulianToUTC_leaves_the_civil_day :
  on_civil_day 0 (day_zero_late_jd + 0.5) /\ on_civil_day 0 (day_zero_jd + 0.5)
  /\ JulianToUTC day_zero_late_jd = 0.5%float
  /\ JulianToUTC day_zero_jd = (-0.5)%float
  /\ Sunrise day_zero_late_jd 0 0 <> Sunrise day_zero_jd 0 0.
Proof.
  split.
  { split; [reflexivity|].
    destruct (B2R_literal (day_zero_late_jd + 0.5) 9007199254740991 (-54) eq_refl) as [E _].
    rewrite E. bpow_lit. lra. }
  split.
  { split; [reflexivity|].
    destruct (B2R_literal (day_zero_jd + 0.5) 4503599627370496 (-54) eq_refl) as [E _].
    rewrite E. bpow_lit. lra. }
  split; [vm_compute; reflexivity|]. split; [vm_compute; reflexivity|].
  vm_compute. discriminate.
Qed.

(** The sum [julian + 0.5] is itself rounded: 20 microseconds before the
    midnight that ends the civil day 2097152 (in the year 1029) the sum
    is that midnight, a Julian day of the day after, and [JulianToUTC]
    returns it. *)
Lemma julianMidnight_rounds_to_the_day_after :
  IZR 2097152 - 1 / 2 <= B2R before_midnight_jd + 1 / 2 < IZR 2097152 + 1 / 2
  /\ on_civil_day 2097153 (before_midnight_jd + 0.5)
  /\ B2R (JulianToUTC before_midnight_jd) = IZR 2097153 - 1 / 2.
Proof.
  assert (H : on_civil_day 2097153 (before_midnight_jd + 0.5)).
  { split; [reflexivity|].
    destruct (B2R_literal (before_midnight_jd + 0.5) 4503600701112320 (-31) eq_refl)
      as [E _].
    rewrite E. bpow_lit. lra. }
  split.
  { destruct (B2R_literal before_midnight_jd 9007199254740991 (-32) eq_refl) as [E _].
    rewrite E. bpow_lit. lra. }
  split; [exact H|].
  apply (JulianToUTC_day before_midnight_jd 2097153); [|exact H].
  vm_compute. split; discriminate.
Qed.

End FloatTheory.

(** ** The pattern of ParseDMS accepts exactly the texts of its shape *)

Lemma rep_max p : forall pre lo hi rest caps k c,
  all_bytes p pre = true -> (lo <= String.length pre)%nat ->
  within hi (String.length pre) -> stops p hi pre rest ->
  k rest caps = Some c ->
  regexp.rep p lo hi (pre ++ rest) caps k = Some c.
Proof.
  induction pre as [|a pre IH]; intros lo hi rest caps k c A L W S K.
  - simpl in L. assert (lo = 0)%nat by lia. subst lo. simpl.
    destruct rest as [|ch r]; simpl; [exact K|].
    destruct S as [-> | S]; simpl; [exact K|].
    rewrite S, andb_false_r. exact K.
  - simpl in A. apply andb_true_iff in A as [A1 A2]. simpl in L, W.
    cbn [append regexp.rep]. rewrite A1.
    assert (M : (match hi with Some O => false | _ => true end) = true).
    { destruct hi as [[|h]|]; simpl in W; try reflexivity. lia. }
    rewrite M. cbn [andb].
    rewrite (IH (Nat.pred lo) (option_map Nat.pred hi) rest caps k c); auto.
    + lia.
    + destruct hi as [h|]; simpl in *; lia.
    + destruct S as [-> | S]; [left; reflexivity|right; exact S].
Qed.

Lemma digit_not_quote : regexp.digit (byte 34) = false.
Proof. reflexivity. Qed.

Lemma hemisphere_letter g :
  hemisphere g -> exists d, g = String d EmptyString /\ regexp.one_of "NSEW" d = true
                            /\ regexp.space d = false /\ regexp.digit d = false.
Proof.
  intros [-> | [-> | [-> | ->]]]; eexists; (split; [reflexivity|]); repeat split.
Qed.

Lemma digits_first pre :
  all_bytes regexp.digit pre = true -> (1 <= String.length pre)%nat ->
  exists d t, pre = String d t /\ regexp.space d = false.
Proof.
  intros D L. destruct pre as [|d t]; [simpl in L; lia|].
  exists d, t. split; [reflexivity|].
  simpl in D. apply andb_true_iff in D as [D _].
  unfold regexp.digit, strconv.is_digit, regexp.space in *.
  destruct d as [[|] [|] [|] [|] [|] [|] [|] [|]]; try discriminate; reflexivity.
Qed.

Lemma digits12_head g rest :
  digits12 g -> exists d t, g ++ rest = String d t /\ regexp.space d = false.
Proof.
  intros [D [L _]]. destruct (digits_first g D L) as (d & t & -> & S).
  exists d, (t ++ rest). split; [reflexivity|exact S].
Qed.

Lemma seconds_head g rest :
  seconds_text g -> exists d t, g ++ rest = String d t /\ regexp.space d = false.
Proof.
  intros (pre & D & [L _] & E).
  destruct (digits_first pre D L) as (d & t & -> & S).
  destruct E as [-> | (frac & _ & _ & ->)]; eexists d, _; (split; [reflexivity|exact S]).
Qed.

(** The seconds group on its own: the pattern of group 3 consumes a
    seconds text that a double quote follows. *)
Lemma seconds_group_matches g3 rest caps k c :
  seconds_text g3 ->
  k (String (byte 34) rest) caps = Some c ->
  regexp.run (regexp.Cat (regexp.Rep regexp.digit 1 (Some 2%nat))
                (regexp.Opt (regexp.Cat (regexp.Lit ".")
                                        (regexp.Rep regexp.digit 1 None))))
    (g3 ++ String (byte 34) rest) caps k = Some c.
Proof.
  intros (pre & D & [L1 L2] & E) K. rewrite run_cat.
  destruct E as [-> | (frac & Df & Lf & ->)].
  - cbn [regexp.run].
    apply rep_max; [exact D|exact L1|exact L2|right; exact digit_not_quote|].
    cbn [regexp.run]. rewrite K. reflexivity.
  - rewrite app_assoc_s. cbn [regexp.run].
    apply rep_max; [exact D|exact L1|exact L2|right; reflexivity|].
    cbn [append regexp.run]. rewrite Ascii.eqb_refl.
    rewrite (rep_max regexp.digit frac 1 None (String (byte 34) rest) caps k c);
      [reflexivity|exact Df|exact Lf|exact I|right; exact digit_not_quote|exact K].
Qed.

Lemma dms_text_matches input g1 g2 g3 g4 :
  dms_text input g1 g2 g3 g4 ->
  regexp.FindStringSubmatch dms_pattern 4 input = Some [input; g1; g2; g3; g4].
Proof.
  intros (D1 & D2 & S3 & H4 & w1 & w2 & w3 & [W1 L1] & [W2 L2] & [W3 L3] & ->).
  destruct (hemisphere_letter g4 H4) as (d & -> & Pd & Sd & Dd).
  destruct (digits12_head g2 (String "'" (w2 ++ g3 ++ String (byte 34) (w3 ++ String d "")))
              D2) as (d2 & t2 & E2 & S2).
  destruct (seconds_head g3 (String (byte 34) (w3 ++ String d "")) S3)
    as (d3 & t3 & E3 & S3').
  unfold regexp.FindStringSubmatch.
  set (k := fun (rest : string) (caps : regexp.captures) =>
              match rest with EmptyString => Some caps | _ => None end).
  set (input := g1 ++ _).
  assert (R : regexp.run dms_pattern input [] k
              = Some [(4%nat, String d ""); (3%nat, g3); (2%nat, g2); (1%nat, g1)]).
  { unfold dms_pattern. cbv zeta. rewrite run_cat. subst input.
    cbn [regexp.run]. destruct D1 as [A1 [B1 C1]].
    apply rep_max; [exact A1|exact B1|exact C1|right; reflexivity|].
    rewrite consumed_app. cbn [regexp.run]. rewrite !Ascii.eqb_refl.
    apply rep_max; [exact W1|exact L1|exact I|right; rewrite E2; exact S2|].
    destruct D2 as [A2 [B2 C2]].
    apply rep_max; [exact A2|exact B2|exact C2|right; reflexivity|].
    rewrite consumed_app. rewrite Ascii.eqb_refl.
    apply rep_max; [exact W2|exact L2|exact I|right; rewrite E3; exact S3'|].
    apply (seconds_group_matches g3 (w3 ++ String d "")); [exact S3|].
    rewrite consumed_app. cbn [regexp.run]. rewrite Ascii.eqb_refl.
    apply rep_max; [exact W3|exact L3|exact I|right; exact Sd|].
    rewrite Pd.
    change (String d "") with (String d "" ++ "") at 1. rewrite consumed_app.
    reflexivity. }
  rewrite R. reflexivity.
Qed.

Lemma dms_pattern_shape input matches :
  regexp.FindStringSubmatch dms_pattern 4 input = Some matches ->
  exists g1 g2 g3 g4,
    matches = [input; g1; g2; g3; g4] /\ dms_text input g1 g2 g3 g4.
Proof.
  unfold regexp.FindStringSubmatch.
  destruct (regexp.run dms_pattern input [] _) as [caps|] eqn:R; [|discriminate].
  intros [= <-]. unfold dms_pattern in R.
  rewrite run_cat in R. apply cap_rep_inv in R as (g1 & r1 & -> & D1 & L1 & W1 & R).
  cbv beta in R.
  rewrite run_cat in R. apply lit_inv in R as (r2 & -> & R).
  rewrite run_cat in R. apply lit_inv in R as (r3 & -> & R).
  rewrite run_cat in R. apply run_rep_inv in R as (w1 & r4 & -> & Sw1 & Lw1 & _ & R).
  rewrite run_cat in R. apply cap_rep_inv in R as (g2 & r5 & -> & D2 & L2 & W2 & R).
  cbv beta in R.
  rewrite run_cat in R. apply lit_inv in R as (r6 & -> & R).
  rewrite run_cat in R. apply run_rep_inv in R as (w2 & r7 & -> & Sw2 & Lw2 & _ & R).
  rewrite run_cat in R.
  change (regexp.run (regexp.Cap 3 ?r) r7 ?c ?k)
    with (regexp.run r r7 c (fun rest caps' => k rest ((3%nat, regexp.consumed r7 rest) :: caps'))) in R.
  rewrite run_cat in R. apply run_rep_inv in R as (pre & r8 & -> & D3 & L3 & W3 & R).
  assert (G3 : exists g3 r9,
             pre ++ r8 = g3 ++ r9 /\ seconds_text g3 /\
             regexp.run (regexp.Cat (regexp.Lit (byte 34))
                (regexp.Cat (regexp.Rep regexp.space 1 None)
                   (regexp.Cap 4 (regexp.Class (regexp.one_of "NSEW")))))
               r9 ((3%nat, g3) :: (2%nat, g2) :: (1%nat, g1) :: [])
               (fun rest caps => match rest with EmptyString => Some caps | _ => None end)
             = Some caps).
  { apply opt_inv in R as [R|R].
    - rewrite run_cat in R. apply lit_inv in R as (r9 & -> & R).
      apply run_rep_inv in R as (frac & r10 & -> & D4 & L4 & _ & R).
      cbv beta in R.
      replace (pre ++ String "." (frac ++ r10)) with ((pre ++ String "." frac) ++ r10) in *
        by (rewrite app_assoc_s; reflexivity).
      rewrite consumed_app in R.
      exists (pre ++ String "." frac), r10. split; [reflexivity|]. split; [|exact R].
      exists pre. simpl in W3. repeat split; auto. right. exists frac. auto.
    - cbv beta in R. rewrite consumed_app in R.
      exists pre, r8. split; [reflexivity|]. split; [|exact R].
      exists pre. simpl in W3. repeat split; auto. }
  destruct G3 as (g3 & r9 & E3 & S3 & R'). rewrite E3. clear R E3.
  rewrite run_cat in R'. apply lit_inv in R' as (r10 & -> & R').
  rewrite run_cat in R'. apply run_rep_inv in R' as (w3 & r11 & -> & Sw3 & Lw3 & _ & R').
  apply cap_class_inv in R' as (d & r12 & -> & P & R').
  destruct r12; [|discriminate]. injection R' as <-.
  exists g1, g2, g3, (String d EmptyString).
  simpl in W1, W2.
  split; [reflexivity|]. unfold dms_text, digits12, spaces.
  repeat split; auto; [now apply one_of_NSEW|].
  exists w1, w2, w3. repeat split; auto.
Qed.

(** X18: [ParseDMS] accepts exactly the texts of the pattern's shape, and
    returns the numbers of their first three groups with the letter of
    the fourth. *)
Theorem ParseDMS_accepts_exactly (input : string) (dms : DMS) (direction : string) :
  ParseDMS input = (dms, direction, None)
  <-> exists g1 g2 g3,
        dms_text input g1 g2 g3 direction
        /\ dms = mkDMS (fst (strconv.Atoi g1)) (fst (strconv.Atoi g2))
                       (fst (strconv.ParseFloat g3)).
Proof.
  unfold ParseDMS. split.
  - destruct (regexp.FindStringSubmatch dms_pattern 4 input) as [matches|] eqn:M;
      [|discriminate].
    apply dms_pattern_shape in M as (g1 & g2 & g3 & g4 & -> & T).
    cbn [nth]. destruct T as (D1 & D2 & S3 & H4 & W).
    rewrite (digits12_nonempty g2 D2), (seconds_text_nonempty g3 S3),
      (hemisphere_upper g4 H4).
    intros [= <- <-]. exists g1, g2, g3. split; [|reflexivity].
    unfold dms_text. auto.
  - intros (g1 & g2 & g3 & T & ->).
    rewrite (dms_text_matches input g1 g2 g3 direction T). cbn [nth].
    destruct T as (D1 & D2 & S3 & H4 & W).
    now rewrite (digits12_nonempty g2 D2), (seconds_text_nonempty g3 S3),
      (hemisphere_upper direction H4).
Qed.
